(** * Shaping core of boxesandglue/typesetting (package harfbuzz)

    A shallow embedding of the parts of the Go shaping engine that its
    design document makes checkable statements about: the set digest,
    the feature-map compiler, the lookup recursion guard, GPOS mark
    attachment, the Khmer reordering pass, default-ignorable hiding and
    the propagation of glyph flags.

    Go's fixed-width integers are integers of [Z] with the wrap-around
    written out; slices are lists; a Go panic is [None]. *)

From stdpp Require Import base numbers list.
From Stdlib Require Import ZArith Lia Sorted Permutation.

Local Open Scope Z_scope.

(** * Part I: the embedding *)

(** ** Machine integers *)

Definition u8 (z : Z) : Z := z mod 2 ^ 8.
Definition u16 (z : Z) : Z := z mod 2 ^ 16.
Definition u32 (z : Z) : Z := z mod 2 ^ 32.

(** Conversion to a signed 16-bit integer, as Go's [int16(x)]. *)
Definition int16 (z : Z) : Z := (z + 2 ^ 15) mod 2 ^ 16 - 2 ^ 15.

(** [x & y != 0], the flag test used all over the package. *)
Definition has_bits (x y : Z) : bool := negb (Z.land x y =? 0).

(** [x &^ y] on 32-bit masks: clear the bits of [y] in [x]. *)
Definition clear_bits (x y : Z) : Z := Z.land x (Z.lnot y).

(** Slice access by a Go [int]: out of range is a panic. *)
Definition at_index {A : Type} (l : list A) (i : Z) : option A :=
  if i <? 0 then None else l !! Z.to_nat i.

(** ** Constants declared outside the listed sources

    The scratch-flag bits, the buffer flags, the glyph-property bit
    [substituted], the Khmer category codes and the two limits are
    declared in files of the package that are not part of this
    development.  They are kept abstract: the embedding takes them from
    an instance of this class, and no proof looks at a value. *)
Class PackageConstants : Type := {
  bsfDefault : Z;
  bsfHasDefaultIgnorables : Z;
  bsfHasGPOSAttachment : Z;
  bsfHasGlyphFlags : Z;
  PreserveDefaultIgnorables : Z;
  RemoveDefaultIgnorables : Z;
  ProduceUnsafeToConcat : Z;
  ProduceSafeToInsertTatweel : Z;
  substituted : Z;
  khmSM_ex_H : Z;
  khmSM_ex_Ra : Z;
  khmSM_ex_VPre : Z;
  maxNestingLevel : Z;
  maxOpsDefault : Z;
  khmSM_ex_H_VPre : khmSM_ex_H <> khmSM_ex_VPre
}.

(** ** Glyphs and positions (glyph.go) *)

Record GlyphPosition : Type := mkGlyphPosition {
  XAdvance : Z;
  XOffset : Z;
  YAdvance : Z;
  YOffset : Z;
  attachChain : Z;  (* int16 *)
  attachType : Z    (* uint8 *)
}.

Definition upropsMaskIgnorable : Z := Z.shiftl 1 5.
Definition upropsMaskHidden : Z := Z.shiftl 1 6.
Definition upropsMaskContinuation : Z := Z.shiftl 1 7.

Definition GlyphUnsafeToBreak : Z := 1.
Definition GlyphUnsafeToConcat : Z := 2.
Definition GlyphSafeToInsertTatweel : Z := 4.
Definition glyphFlagDefined : Z :=
  Z.lor (Z.lor GlyphUnsafeToBreak GlyphUnsafeToConcat) GlyphSafeToInsertTatweel.

(** [^x] on a 32-bit mask. *)
Definition not32 (x : Z) : Z := u32 (Z.lnot x).

Record GlyphInfo : Type := mkGlyphInfo {
  Cluster : Z;
  codepoint : Z;
  Glyph : Z;
  Mask : Z;
  glyphProps : Z;
  ligProps : Z;
  syllable : Z;
  unicode : Z;
  complexCategory : Z;
  complexAux : Z
}.

Definition set_Mask (info : GlyphInfo) (m : Z) : GlyphInfo :=
  mkGlyphInfo (Cluster info) (codepoint info) (Glyph info) m (glyphProps info)
    (ligProps info) (syllable info) (unicode info) (complexCategory info)
    (complexAux info).

Definition set_Cluster (info : GlyphInfo) (c : Z) : GlyphInfo :=
  mkGlyphInfo c (codepoint info) (Glyph info) (Mask info) (glyphProps info)
    (ligProps info) (syllable info) (unicode info) (complexCategory info)
    (complexAux info).

Definition set_Glyph (info : GlyphInfo) (g : Z) : GlyphInfo :=
  mkGlyphInfo (Cluster info) (codepoint info) g (Mask info) (glyphProps info)
    (ligProps info) (syllable info) (unicode info) (complexCategory info)
    (complexAux info).

(** [info.Mask |= m] *)
Definition or_Mask (m : Z) (info : GlyphInfo) : GlyphInfo :=
  set_Mask info (Z.lor (Mask info) m).

Definition setCluster (info : GlyphInfo) (cluster mask : Z) : GlyphInfo :=
  let info :=
    if negb (Cluster info =? cluster) then
      set_Mask info (Z.lor (Z.land (Mask info) (not32 glyphFlagDefined))
                           (Z.land mask glyphFlagDefined))
    else info in
  set_Cluster info cluster.

Section GlyphPredicates.
Context `{PackageConstants}.

Definition glyph_substituted (info : GlyphInfo) : bool :=
  has_bits (glyphProps info) substituted.

Definition isDefaultIgnorable (info : GlyphInfo) : bool :=
  has_bits (unicode info) upropsMaskIgnorable && negb (glyph_substituted info).

End GlyphPredicates.

(** ** The buffer

    The buffer type itself is declared outside the listed sources; these
    are the fields the listed functions read and write. *)
Record Buffer : Type := mkBuffer {
  Info : list GlyphInfo;
  Pos : list GlyphPosition;
  idx : Z;
  Flags : Z;
  scratchFlags : Z;
  Invisible : Z;
  maxOps : Z;
  maxLen : Z
}.

Definition set_Info (b : Buffer) (info : list GlyphInfo) : Buffer :=
  mkBuffer info (Pos b) (idx b) (Flags b) (scratchFlags b) (Invisible b)
    (maxOps b) (maxLen b).

Definition set_Pos (b : Buffer) (pos : list GlyphPosition) : Buffer :=
  mkBuffer (Info b) pos (idx b) (Flags b) (scratchFlags b) (Invisible b)
    (maxOps b) (maxLen b).

Definition set_idx (b : Buffer) (i : Z) : Buffer :=
  mkBuffer (Info b) (Pos b) i (Flags b) (scratchFlags b) (Invisible b)
    (maxOps b) (maxLen b).

Definition set_scratchFlags (b : Buffer) (f : Z) : Buffer :=
  mkBuffer (Info b) (Pos b) (idx b) (Flags b) f (Invisible b)
    (maxOps b) (maxLen b).

Definition set_maxOps (b : Buffer) (n : Z) : Buffer :=
  mkBuffer (Info b) (Pos b) (idx b) (Flags b) (scratchFlags b) (Invisible b)
    n (maxLen b).

Definition set_maxLen (b : Buffer) (n : Z) : Buffer :=
  mkBuffer (Info b) (Pos b) (idx b) (Flags b) (scratchFlags b) (Invisible b)
    (maxOps b) n.

(** ** The set digest (set_digest.go) *)

Module SetDigest.

Definition maskBits : Z := 4 * 8.

(** [setType = gID], the 16-bit glyph index of the font tables;
    [setBits] is a [uint32]. *)
Definition setType (g : Z) : Prop := 0 <= g < 2 ^ 16.

Definition maskFor (g shift : Z) : Z :=
  Z.shiftl 1 (Z.land (Z.shiftr g shift) (maskBits - 1)).

Definition add (sd g shift : Z) : Z := Z.lor sd (maskFor g shift).

Definition addRange (sd a b shift : Z) : Z :=
  if u16 (Z.shiftr b shift - Z.shiftr a shift) >=? maskBits - 1 then
    Z.ones 32
  else
    let mb := maskFor b shift in
    let ma := maskFor a shift in
    let op := if mb <? ma then 1 else 0 in
    Z.lor sd (u32 (u32 (mb + u32 (mb - ma)) - op)).

Definition addArray (sd : Z) (arr : list Z) (shift : Z) : Z :=
  fold_left (fun s v => add s v shift) arr sd.

Definition mayHave (sd g shift : Z) : bool := has_bits sd (maskFor g shift).

Definition mayHaveSet (sd g : Z) : bool := has_bits sd g.

Definition shift0 : Z := 4.
Definition shift1 : Z := 0.
Definition shift2 : Z := 9.

(** [type setDigest [3]setBits] *)
Record setDigest : Type := mkDigest { w0 : Z; w1 : Z; w2 : Z }.

Definition empty : setDigest := mkDigest 0 0 0.

Definition digest_add (sd : setDigest) (g : Z) : setDigest :=
  mkDigest (add (w0 sd) g shift0) (add (w1 sd) g shift1) (add (w2 sd) g shift2).

Definition digest_addRange (sd : setDigest) (a b : Z) : setDigest :=
  mkDigest (addRange (w0 sd) a b shift0) (addRange (w1 sd) a b shift1)
           (addRange (w2 sd) a b shift2).

Definition digest_addArray (sd : setDigest) (arr : list Z) : setDigest :=
  mkDigest (addArray (w0 sd) arr shift0) (addArray (w1 sd) arr shift1)
           (addArray (w2 sd) arr shift2).

Definition digest_mayHave (sd : setDigest) (g : Z) : bool :=
  mayHave (w0 sd) g shift0 && mayHave (w1 sd) g shift1 && mayHave (w2 sd) g shift2.

Definition mayHaveDigest (sd o : setDigest) : bool :=
  mayHaveSet (w0 sd) (w0 o) && mayHaveSet (w1 sd) (w1 o) && mayHaveSet (w2 sd) (w2 o).

(** The insertions a digest can undergo, and the glyphs they insert. *)
Inductive insertion : Type :=
| Add (g : Z)
| AddArray (arr : list Z)
| AddRange (a b : Z).

Definition perform (sd : setDigest) (op : insertion) : setDigest :=
  match op with
  | Add g => digest_add sd g
  | AddArray arr => digest_addArray sd arr
  | AddRange a b => digest_addRange sd a b
  end.

Definition inserts (op : insertion) (g : Z) : Prop :=
  match op with
  | Add g' => g = g'
  | AddArray arr => In g arr
  | AddRange a b => a <= g <= b
  end.

(** The glyph ids an insertion mentions are glyph ids. *)
Definition well_typed (op : insertion) : Prop :=
  match op with
  | Add g => setType g
  | AddArray arr => Forall setType arr
  | AddRange a b => setType a /\ setType b
  end.

End SetDigest.

(** ** Buffer operations declared outside the listed sources

    The listed functions call these methods of the buffer; their bodies
    are not part of this development.  What the proofs need of them is
    stated as laws: marking a range unsafe-to-break touches neither the
    cursor nor the positions; like merging clusters, it changes nothing of
    a glyph but its cluster value and its glyph-flag bits. *)
Definition glyph_core (info : GlyphInfo) : GlyphInfo :=
  set_Cluster (set_Mask info (Z.land (Mask info) (not32 glyphFlagDefined))) 0.

Class BufferOps : Type := {
  otLayoutDeleteGlyphsInplace : Buffer -> (GlyphInfo -> bool) -> Buffer;
  unsafeToBreak : Buffer -> Z -> Z -> Buffer;
  mergeClusters : Buffer -> nat -> nat -> Buffer;
  digest : Buffer -> SetDigest.setDigest;
  unsafeToBreak_idx : forall b s e, idx (unsafeToBreak b s e) = idx b;
  unsafeToBreak_Pos : forall b s e, Pos (unsafeToBreak b s e) = Pos b;
  unsafeToBreak_core : forall b s e,
    map glyph_core (Info (unsafeToBreak b s e)) = map glyph_core (Info b);
  mergeClusters_core : forall b s e,
    map glyph_core (Info (mergeClusters b s e)) = map glyph_core (Info b)
}.

(** ** The shaper driver (ot_shaper.go) *)

(** [font.face.NominalGlyph]: the glyph of a code point, and whether the
    font has one. *)
Record Font : Type := mkFont {
  NominalGlyph : Z -> Z * bool
}.

Section Shaper.
Context `{PackageConstants} `{BufferOps}.

Definition hideDefaultIgnorables (buffer : Buffer) (font : Font) : Buffer :=
  if negb (has_bits (scratchFlags buffer) bsfHasDefaultIgnorables)
     || has_bits (Flags buffer) PreserveDefaultIgnorables
  then buffer
  else
    let info := Info buffer in
    let invisible := Invisible buffer in
    let ok := false in
    let '(invisible, ok) :=
      if invisible =? 0 then NominalGlyph font 32 (* ' ' *) else (invisible, ok) in
    if negb (has_bits (Flags buffer) RemoveDefaultIgnorables) && ok then
      (* replace default-ignorables with a zero-advance invisible glyph. *)
      set_Info buffer
        (map (fun g => if isDefaultIgnorable g then set_Glyph g invisible else g) info)
    else
      otLayoutDeleteGlyphsInplace buffer isDefaultIgnorable.

(** Modelled from the spec: [Buffer.clusterIterator], whose code is outside
    the listed sources, walks the buffer cluster by cluster; a cluster is
    a maximal run of glyphs that share a cluster id. *)
Fixpoint clusterRuns (info : list GlyphInfo) : list (list GlyphInfo) :=
  match info with
  | [] => []
  | g :: rest =>
      match clusterRuns rest with
      | (h :: run) :: runs =>
          if Cluster g =? Cluster h then (g :: h :: run) :: runs
          else [g] :: (h :: run) :: runs
      | _ => [[g]]
      end
  end.

(** The first inner loop of [propagateFlags]: the OR of the defined flags
    over a cluster. *)
Definition clusterMask (run : list GlyphInfo) : Z :=
  fold_left (fun mask g => Z.lor mask (Z.land (Mask g) glyphFlagDefined)) run 0.

(** What [propagateFlags] does to the mask of one cluster. *)
Definition adjustMask (flipTatweel clearConcat : bool) (mask : Z) : Z :=
  let mask :=
    if flipTatweel then
      let mask :=
        if has_bits mask GlyphUnsafeToBreak
        then Z.land mask (not32 GlyphSafeToInsertTatweel) else mask in
      let mask :=
        if has_bits mask GlyphSafeToInsertTatweel
        then Z.lor mask (Z.lor GlyphUnsafeToBreak GlyphUnsafeToConcat) else mask in
      mask
    else mask in
  if clearConcat then Z.land mask (not32 GlyphUnsafeToConcat) else mask.

Definition propagateCluster (flipTatweel clearConcat : bool)
    (run : list GlyphInfo) : list GlyphInfo :=
  let mask := adjustMask flipTatweel clearConcat (clusterMask run) in
  map (fun g => set_Mask g mask) run.

Definition propagateFlags (buffer : Buffer) : Buffer :=
  if negb (has_bits (scratchFlags buffer) bsfHasGlyphFlags) then buffer
  else
    let flipTatweel := has_bits (Flags buffer) ProduceSafeToInsertTatweel in
    let clearConcat := negb (has_bits (Flags buffer) ProduceUnsafeToConcat) in
    set_Info buffer
      (concat (map (propagateCluster flipTatweel clearConcat)
                   (clusterRuns (Info buffer)))).

(** The limits [shape] sets before it runs the pipeline. *)
Definition maxLenFactor : Z := 64.
Definition maxLenMin : Z := 16384.
Definition maxOpsFactor : Z := 1024.
Definition maxOpsMin : Z := 16384.

Definition shapeLimits (buffer : Buffer) : Buffer :=
  let n := Z.of_nat (length (Info buffer)) in
  let buffer := set_scratchFlags buffer bsfDefault in
  let buffer := set_maxOps buffer (Z.max (n * maxOpsFactor) maxOpsMin) in
  set_maxLen buffer (Z.max (n * maxLenFactor) maxLenMin).

End Shaper.

(** Which branch [hideDefaultIgnorables] takes. *)
Inductive hideBranch : Type :=
| HideNothing
| HideReplace (invisible : Z)
| HideDelete.

Section ShaperVocabulary.
Context `{PackageConstants}.

Definition hide_branch (buffer : Buffer) (font : Font) : hideBranch :=
  if negb (has_bits (scratchFlags buffer) bsfHasDefaultIgnorables)
     || has_bits (Flags buffer) PreserveDefaultIgnorables
  then HideNothing
  else if (Invisible buffer =? 0) && snd (NominalGlyph font 32)
          && negb (has_bits (Flags buffer) RemoveDefaultIgnorables)
  then HideReplace (fst (NominalGlyph font 32))
  else HideDelete.

Definition has_flag (flag : Z) (g : GlyphInfo) : bool := has_bits (Mask g) flag.

End ShaperVocabulary.

(** Vocabulary for the digest's specification: the bit a glyph selects in
    a filter word, the word [addRange] ORs in when the range is short
    (as a function of the two end slots), and the exhaustive table over
    which that word is checked. *)
Definition slot (g shift : Z) : Z :=
  Z.land (Z.shiftr g shift) (SetDigest.maskBits - 1).

Definition rangeBits (sa sb : Z) : Z :=
  let mb := Z.shiftl 1 sb in
  let ma := Z.shiftl 1 sa in
  let op := if mb <? ma then 1 else 0 in
  u32 (u32 (mb + u32 (mb - ma)) - op).

Definition range_ok (sa d k : Z) : bool :=
  Z.testbit (rangeBits sa ((sa + d) mod 32)) ((sa + k) mod 32).

Definition range_table_ok : bool :=
  forallb (fun sa =>
    forallb (fun d =>
      forallb (fun k => range_ok sa d k) (seqZ 0 (d + 1)))
    (seqZ 0 31))
  (seqZ 0 32).

(** The three words of a digest all answer yes for [g]. *)
Definition all_words_have (sd : SetDigest.setDigest) (g : Z) : Prop :=
  SetDigest.mayHave (SetDigest.w0 sd) g SetDigest.shift0 = true /\
  SetDigest.mayHave (SetDigest.w1 sd) g SetDigest.shift1 = true /\
  SetDigest.mayHave (SetDigest.w2 sd) g SetDigest.shift2 = true.

(** ** A model of the constants and of the buffer operations

    The values are those of the buffer and Khmer-machine declarations of
    the package; the operations follow the design document. *)

#[export] Instance hbConstants : PackageConstants := {|
  bsfDefault := 0;
  bsfHasDefaultIgnorables := 0x02;
  bsfHasGPOSAttachment := 0x08;
  bsfHasGlyphFlags := 0x20;
  PreserveDefaultIgnorables := 0x04;
  RemoveDefaultIgnorables := 0x08;
  ProduceUnsafeToConcat := 0x40;
  ProduceSafeToInsertTatweel := 0x80;
  substituted := 0x10;
  khmSM_ex_H := 4;
  khmSM_ex_Ra := 15;
  khmSM_ex_VPre := 22;
  maxNestingLevel := 64;
  maxOpsDefault := 0x1FFFFFFF;
  khmSM_ex_H_VPre := ltac:(discriminate)
|}.


(** ** Loops over a range of a slice *)

(** [for i := s; i < e; i++ { l[i] = f(l[i]) }], cut at the end of [l]. *)
Fixpoint map_range {A : Type} (f : A -> A) (s e : nat) (l : list A) {struct l} : list A :=
  match l with
  | [] => []
  | x :: l' =>
      match e with
      | O => l
      | S e' =>
          match s with
          | O => f x :: map_range f O e' l'
          | S s' => x :: map_range f s' e' l'
          end
      end
  end.

(** ** The lookup context (hb-ot-layout-gsubgpos port) *)

(** The fields of [otApplyContext] that [reset], [recurse] and
    [otMap.apply] write.  The [recurseFunc] field holds a function over
    the context itself; it is passed beside the context instead. *)
Record otApplyContext : Type := mkContext {
  buffer : Buffer;
  ctxDigest : SetDigest.setDigest;   (* digest *)
  nestingLevelLeft : Z;
  tableIndex : Z;
  lookupMask : Z;
  lookupProps : Z;
  randomState : Z;
  lookupIndex : Z;
  autoZWNJ : bool;
  autoZWJ : bool;
  perSyllable : bool;
  newSyllables : Z;
  random : bool;
  lastBase : Z;
  lastBaseUntil : Z
}.

Definition set_buffer (c : otApplyContext) (b : Buffer) : otApplyContext :=
  mkContext b (ctxDigest c) (nestingLevelLeft c) (tableIndex c) (lookupMask c)
    (lookupProps c) (randomState c) (lookupIndex c) (autoZWNJ c) (autoZWJ c)
    (perSyllable c) (newSyllables c) (random c) (lastBase c) (lastBaseUntil c).

Definition set_ctxDigest (c : otApplyContext) (d : SetDigest.setDigest) : otApplyContext :=
  mkContext (buffer c) d (nestingLevelLeft c) (tableIndex c) (lookupMask c)
    (lookupProps c) (randomState c) (lookupIndex c) (autoZWNJ c) (autoZWJ c)
    (perSyllable c) (newSyllables c) (random c) (lastBase c) (lastBaseUntil c).

Definition set_nestingLevelLeft (c : otApplyContext) (n : Z) : otApplyContext :=
  mkContext (buffer c) (ctxDigest c) n (tableIndex c) (lookupMask c)
    (lookupProps c) (randomState c) (lookupIndex c) (autoZWNJ c) (autoZWJ c)
    (perSyllable c) (newSyllables c) (random c) (lastBase c) (lastBaseUntil c).

(** [c.buffer.maxOps--] *)
Definition dec_maxOps (c : otApplyContext) : otApplyContext :=
  set_buffer c (set_maxOps (buffer c) (maxOps (buffer c) - 1)).

(** [f == nil] *)
Definition is_nil {A : Type} (f : option A) : bool :=
  match f with None => true | Some _ => false end.

(** A nested lookup as [recurse] sees it: it may change the context and
    answers whether it applied; [None] is a panic. *)
Definition recurseFunc : Type := otApplyContext -> Z -> option (bool * otApplyContext).

Section ApplyContext.
Context `{PackageConstants} `{BufferOps}.

Definition reset (c : otApplyContext) (tableIndex : Z) (buffer : Buffer) : otApplyContext :=
  mkContext buffer (digest buffer) maxNestingLevel tableIndex 1 0 1 0
    true true false 0xFF false (-1) 0.

Definition recurse (recurseFunc : option recurseFunc) (c : otApplyContext)
    (subLookupIndex : Z) : option (bool * otApplyContext) :=
  let guard :=
    (nestingLevelLeft c =? 0) || is_nil recurseFunc
    || (maxOps (buffer c) <=? 0) in
  if guard && (maxOps (buffer c) <=? 0) then
    Some (false, dec_maxOps c)
  else
    let c := if guard then dec_maxOps c else c in
    let c := set_nestingLevelLeft c (nestingLevelLeft c - 1) in
    match recurseFunc with
    | None => None
    | Some f =>
        match f c subLookupIndex with
        | None => None
        | Some (ret, c) =>
            Some (ret, set_nestingLevelLeft c (nestingLevelLeft c + 1))
        end
    end.

End ApplyContext.

(** A font's lookup list reduced to what nesting needs: a lookup either
    substitutes the current glyph, or is a one-glyph context rule whose
    single record recurses into another lookup. *)
Inductive nestingLookup : Type :=
| SubstituteGlyph (g : Z)
| RecurseInto (sub : Z).

Section NestedLookups.
Context `{PackageConstants} `{BufferOps}.

(** [applyRecurseGSUB] over such a list; [depth] bounds the Go call
    stack. *)
Fixpoint applyRecurse (lookups : list nestingLookup) (depth : nat)
    (c : otApplyContext) (lookupIndex : Z) : option (bool * otApplyContext) :=
  match depth with
  | O => None
  | S depth =>
      match at_index lookups lookupIndex with
      | None => None
      | Some (SubstituteGlyph g) =>
          Some (true,
                set_buffer c
                  (set_Info (buffer c)
                     (map_range (fun info => set_Glyph info g)
                        (Z.to_nat (idx (buffer c))) (S (Z.to_nat (idx (buffer c))))
                        (Info (buffer c)))))
      | Some (RecurseInto sub) =>
          recurse (Some (applyRecurse lookups depth)) c sub
      end
  end.

End NestedLookups.

(** ** The feature map at work (otMap.apply) *)

Record lookupMap : Type := mkLookupMap {
  lm_index : Z;           (* index *)
  lm_autoZWNJ : bool;
  lm_autoZWJ : bool;
  lm_random : bool;
  lm_perSyllable : bool;
  lm_featureTag : Z;
  lm_mask : Z
}.

(** A pause function may change the buffer and says whether it did. *)
Record stageMap : Type := mkStageMap {
  pauseFunc : option (Buffer -> bool * Buffer);
  lastLookup : Z
}.

(** How a run of [otMap.apply] ends: it went through all stages, it
    returned early on the [maxLen] test, or it panicked on an index. *)
Inductive applied : Type :=
| Finished (c : otApplyContext)
| Returned (c : otApplyContext)
| Panicked.

Section OtMapApply.
Context `{PackageConstants} `{BufferOps}.

(** [otApplyContext.applyString], declared outside the listed sources:
    applies one lookup over the whole buffer. *)
Variable applyString : otApplyContext -> SetDigest.setDigest -> otApplyContext.

(** The lookup settings [apply] copies into the context. *)
Definition configure (c : otApplyContext) (lookup : lookupMap) : otApplyContext :=
  mkContext (buffer c) (ctxDigest c) (nestingLevelLeft c) (tableIndex c)
    (lm_mask lookup) (lookupProps c) (randomState c) (lm_index lookup)
    (lm_autoZWNJ lookup) (lm_autoZWJ lookup) (lm_perSyllable lookup)
    (newSyllables c) (lm_random lookup) (lastBase c) (lastBaseUntil c).

(** The body of the inner loop, for lookup number [i]. *)
Definition applyOne (lookups : list lookupMap) (accels : list SetDigest.setDigest)
    (c : otApplyContext) (i : Z) : applied :=
  match at_index lookups i with
  | None => Panicked
  | Some lookup =>
      match at_index accels (lm_index lookup) with
      | None => Panicked
      | Some accel =>
          if SetDigest.mayHaveDigest accel (ctxDigest c) then
            let c := configure c lookup in
            (* pathological cases *)
            if Z.of_nat (length (Info (buffer c))) >? maxLen (buffer c) then
              Returned c
            else Finished (applyString c accel)
          else Finished c
      end
  end.

(** [for ; i < stage.lastLookup; i++], as [n] turns of the body. *)
Fixpoint applyLookups (lookups : list lookupMap) (accels : list SetDigest.setDigest)
    (n : nat) (c : otApplyContext) (i : Z) : applied :=
  match n with
  | O => Finished c
  | S n =>
      match applyOne lookups accels c i with
      | Finished c => applyLookups lookups accels n c (i + 1)
      | stop => stop
      end
  end.

Definition runPause (stage : stageMap) (c : otApplyContext) : otApplyContext :=
  match pauseFunc stage with
  | None => c
  | Some f =>
      let '(changed, b) := f (buffer c) in
      let c := set_buffer c b in
      if changed then set_ctxDigest c (digest b) else c
  end.

Fixpoint applyStages (lookups : list lookupMap) (accels : list SetDigest.setDigest)
    (stages : list stageMap) (c : otApplyContext) (i : Z) : applied :=
  match stages with
  | [] => Finished c
  | stage :: stages =>
      match applyLookups lookups accels (Z.to_nat (lastLookup stage - i)) c i with
      | Finished c =>
          applyStages lookups accels stages (runPause stage c)
            (Z.max i (lastLookup stage))
      | stop => stop
      end
  end.

(** [otMap.apply] for one table: [lookups] and [stages] are the map's
    lists for that table, [accels] the digests of the proxy's
    accelerators. *)
Definition apply (lookups : list lookupMap) (stages : list stageMap)
    (accels : list SetDigest.setDigest) (tableIndex : Z)
    (c : otApplyContext) (buffer : Buffer) : applied :=
  let c := reset c tableIndex buffer in
  applyStages lookups accels stages c 0.

End OtMapApply.

(** ** Mark attachment (ot_layout_gpos.go) *)

(** Anchor coordinates are [float32] in the source.  The type and its
    operations are kept abstract: subtraction, addition, conversion from
    an integer position, and [roundf], which rounds to a position. *)
Class Float32 : Type := {
  float32 : Type;
  float_sub : float32 -> float32 -> float32;
  float_add : float32 -> float32 -> float32;
  float_of_position : Z -> float32;
  roundf : float32 -> Z
}.

Definition attachTypeNone : Z := 0x00.
Definition attachTypeMark : Z := 0x01.
Definition attachTypeCursive : Z := 0x02.

(** [tables.Anchor]: the three formats; a device table is named by a
    handle. A nil anchor is [None]. *)
Inductive Anchor : Type :=
| AnchorFormat1 (XCoordinate YCoordinate : Z)
| AnchorFormat2 (XCoordinate YCoordinate : Z) (AnchorPoint : Z)
| AnchorFormat3 (XCoordinate YCoordinate : Z) (XDevice YDevice : Z).

Record MarkArray : Type := mkMarkArray {
  MarkRecords : list Z;               (* the MarkClass of each record *)
  MarkAnchors : list (option Anchor)
}.

(** [tables.AnchorMatrix] with its accessor [Anchor(index, class)]. *)
Record AnchorMatrix : Type := mkAnchorMatrix {
  matrixAnchor : Z -> Z -> option Anchor
}.

Section Gpos.
Context `{PackageConstants} `{BufferOps} `{Float32}.

(** What [getAnchor] asks of the font. *)
Record GposFont : Type := mkGposFont {
  emFscaleX : Z -> float32;
  emFscaleY : Z -> float32;
  Ppem : Z * Z;
  getGlyphContourPointForOrigin : Z -> Z -> Z * Z * bool;
  varCoordsLen : Z;
  getXDelta : Z -> Z;
  getYDelta : Z -> Z
}.

(** [getAnchor] on an anchor that is not nil. *)
Definition getAnchor (font : GposFont) (anchor : Anchor) (glyph : Z)
    : float32 * float32 :=
  match anchor with
  | AnchorFormat1 x y => (emFscaleX font x, emFscaleY font y)
  | AnchorFormat2 x y point =>
      let '(xPpem, yPpem) := Ppem font in
      let ret := negb (xPpem =? 0) || negb (yPpem =? 0) in
      let '(cx, cy, ret) :=
        if ret then getGlyphContourPointForOrigin font glyph point
        else (0, 0, ret) in
      (if ret && negb (xPpem =? 0) then float_of_position cx else emFscaleX font x,
       if ret && negb (yPpem =? 0) then float_of_position cy else emFscaleY font y)
  | AnchorFormat3 x y xDevice yDevice =>
      let '(xPpem, yPpem) := Ppem font in
      let fx := emFscaleX font x in
      let fy := emFscaleY font y in
      (if negb (xPpem =? 0) || negb (varCoordsLen font =? 0)
       then float_add fx (float_of_position (getXDelta font xDevice)) else fx,
       if negb (yPpem =? 0) || negb (varCoordsLen font =? 0)
       then float_add fy (float_of_position (getYDelta font yDevice)) else fy)
  end.

(** [o.XOffset = ...; o.YOffset = ...; o.attachType = ...; o.attachChain = ...] *)
Definition attachMark (o : GlyphPosition) (xOffset yOffset chain : Z) : GlyphPosition :=
  mkGlyphPosition (XAdvance o) xOffset (YAdvance o) yOffset chain attachTypeMark.

Definition applyGPOSMarks (font : GposFont) (buffer : Buffer) (marks : MarkArray)
    (markIndex glyphIndex : Z) (anchors : AnchorMatrix) (glyphPos : Z)
    : option (bool * Buffer) :=
  markClass ← at_index (MarkRecords marks) markIndex;
  markAnchor ← at_index (MarkAnchors marks) markIndex;
  match matrixAnchor anchors glyphIndex markClass with
  | None =>
      (* If this subtable doesn't have an anchor for this base and this class,
         return false such that the subsequent subtables have a chance at it. *)
      Some (false, buffer)
  | Some glyphAnchor =>
      let buffer := unsafeToBreak buffer glyphPos (idx buffer + 1) in
      cur ← at_index (Info buffer) (idx buffer);
      markAnchor ← markAnchor;
      let '(markX, markY) := getAnchor font markAnchor (Glyph cur) in
      base ← at_index (Info buffer) glyphPos;
      let '(baseX, baseY) := getAnchor font glyphAnchor (Glyph base) in
      o ← at_index (Pos buffer) (idx buffer);
      let o :=
        attachMark o (roundf (float_sub baseX markX)) (roundf (float_sub baseY markY))
          (int16 (glyphPos - idx buffer)) in
      let buffer := set_Pos buffer (<[Z.to_nat (idx buffer) := o]> (Pos buffer)) in
      let buffer :=
        set_scratchFlags buffer (Z.lor (scratchFlags buffer) bsfHasGPOSAttachment) in
      let buffer := set_idx buffer (idx buffer + 1) in
      Some (true, buffer)
  end.

End Gpos.

(** ** The feature-map builder (hb-ot-map port) *)

(** [otMapFeatureFlags], a [uint8]. *)
Definition ffGLOBAL : Z := Z.shiftl 1 0.
Definition ffHasFallback : Z := Z.shiftl 1 1.
Definition ffManualZWNJ : Z := Z.shiftl 1 2.
Definition ffManualZWJ : Z := Z.shiftl 1 3.
Definition ffGlobalSearch : Z := Z.shiftl 1 4.
Definition ffRandom : Z := Z.shiftl 1 5.
Definition ffPerSyllable : Z := Z.shiftl 1 6.
Definition ffNone : Z := 0.

Definition otMapMaxBits : Z := 8.
Definition otMapMaxValue : Z := Z.shiftl 1 otMapMaxBits - 1.

Definition NoFeatureIndex : Z := 0xFFFF.

Record featureInfo : Type := mkFeatureInfo {
  Tag : Z;
  maxValue : Z;       (* uint32 *)
  flags : Z;          (* otMapFeatureFlags *)
  defaultValue : Z;   (* uint32 *)
  stage : Z * Z       (* GSUB/GPOS *)
}.

Record featureMap : Type := mkFeatureMap {
  fm_tag : Z;
  fm_index : Z * Z;   (* GSUB/GPOS *)
  fm_stage : Z * Z;   (* GSUB/GPOS *)
  fm_shift : Z;
  fm_mask : Z;
  fm_mask1 : Z;
  fm_needsFallback : bool;
  fm_autoZWNJ : bool;
  fm_autoZWJ : bool;
  fm_random : bool;
  fm_perSyllable : bool
}.

(** [sort.SliceStable] by [Tag]: a stable sort is determined by its key,
    so insertion does for it. *)
Fixpoint insertByTag (x : featureInfo) (l : list featureInfo) : list featureInfo :=
  match l with
  | [] => [x]
  | y :: l' => if Tag x <=? Tag y then x :: l else y :: insertByTag x l'
  end.

Definition sortStableByTag (l : list featureInfo) : list featureInfo :=
  foldr insertByTag [] l.

(** The body of the merge loop when [feat] repeats the tag of
    [featureInfos[j]]. *)
Definition mergeInto (cur feat : featureInfo) : featureInfo :=
  let cur :=
    if has_bits (flags feat) ffGLOBAL then
      mkFeatureInfo (Tag cur) (maxValue feat) (Z.lor (flags cur) ffGLOBAL)
        (defaultValue feat) (stage cur)
    else
      mkFeatureInfo (Tag cur) (Z.max (maxValue cur) (maxValue feat))
        (if has_bits (flags cur) ffGLOBAL then Z.lxor (flags cur) ffGLOBAL
         else flags cur)
        (defaultValue cur) (* inherit default_value from j *)
        (stage cur) in
  mkFeatureInfo (Tag cur) (maxValue cur)
    (Z.lor (flags cur) (Z.land (flags feat) ffHasFallback))
    (defaultValue cur)
    (Z.min (fst (stage cur)) (fst (stage feat)),
     Z.min (snd (stage cur)) (snd (stage feat))).

(** The merge loop: [cur] is [featureInfos[j]], [rest] what [range] has
    still to visit. *)
Fixpoint mergeDuplicates (cur : featureInfo) (rest : list featureInfo)
    : list featureInfo :=
  match rest with
  | [] => [cur]
  | feat :: rest =>
      if negb (Tag feat =? Tag cur) then cur :: mergeDuplicates feat rest
      else mergeDuplicates (mergeInto cur feat) rest
  end.

(** "sort features and merge duplicates" *)
Definition mergeFeatureInfos (featureInfos : list featureInfo) : list featureInfo :=
  match sortStableByTag featureInfos with
  | [] => []
  | first :: rest => mergeDuplicates first rest
  end.

(** Modelled from the spec: [bitStorage], declared outside the listed
    sources, is ceil(log2(maxValue+1)), the number of bits that store a
    value. *)
Definition bitStorage (v : Z) : Z := Z.log2_up (v + 1).

(** [bits.OnesCount32] *)
Definition OnesCount32 (x : Z) : Z :=
  Z.of_nat (length (List.filter (Z.testbit x) (seqZ 0 32))).

Definition globalBitShift : Z := 8 * 4 - 1.
Definition globalBitMask : Z := Z.shiftl 1 globalBitShift.

(** What the bit-allocation loop carries from one feature to the next. *)
Record allocation : Type := mkAllocation {
  nextBit : Z;
  globalMask : Z;
  features : list featureMap;
  requiredFeatureStage : Z * Z
}.

Section Compile.

(** The font's side of [compile], declared outside the listed sources:
    the required feature's tag per table, and the two feature searches
    (table index first). *)
Variable requiredFeatureTag : Z * Z.
Variable findFeatureForLang : Z -> Z -> Z.
Variable findFeature : Z -> Z -> Z.

(** The body of the loop "allocate bits now". *)
Definition allocate (st : allocation) (info : featureInfo) : allocation :=
  let bitsNeeded :=
    if has_bits (flags info) ffGLOBAL && (maxValue info =? 1) then 0
    else Z.min otMapMaxBits (bitStorage (maxValue info)) in
  if (maxValue info =? 0) || (nextBit st + bitsNeeded >=? globalBitShift) then
    st (* feature disabled, or not enough bits. *)
  else
    let required :=
      (if fst requiredFeatureTag =? Tag info then fst (stage info)
       else fst (requiredFeatureStage st),
       if snd requiredFeatureTag =? Tag info then snd (stage info)
       else snd (requiredFeatureStage st)) in
    let featureIndex := (findFeatureForLang 0 (Tag info), findFeatureForLang 1 (Tag info)) in
    let found :=
      negb (fst featureIndex =? NoFeatureIndex)
      || negb (snd featureIndex =? NoFeatureIndex) in
    let '(featureIndex, found) :=
      if negb found && has_bits (flags info) ffGlobalSearch then
        ((findFeature 0 (Tag info), findFeature 1 (Tag info)),
         negb (findFeature 0 (Tag info) =? NoFeatureIndex)
         || negb (findFeature 1 (Tag info) =? NoFeatureIndex))
      else (featureIndex, found) in
    if negb found && negb (has_bits (flags info) ffHasFallback) then
      mkAllocation (nextBit st) (globalMask st) (features st) required
    else
      let useGlobal := has_bits (flags info) ffGLOBAL && (maxValue info =? 1) in
      let shift := if useGlobal then globalBitShift else nextBit st in
      let mask :=
        if useGlobal then globalBitMask
        else Z.shiftl 1 (nextBit st + bitsNeeded) - Z.shiftl 1 (nextBit st) in
      let map_ :=
        mkFeatureMap (Tag info) featureIndex (stage info) shift mask
          (Z.land (Z.shiftl 1 shift) mask)
          (negb found)
          (negb (has_bits (flags info) ffManualZWNJ))
          (negb (has_bits (flags info) ffManualZWJ))
          (has_bits (flags info) ffRandom)
          (has_bits (flags info) ffPerSyllable) in
      mkAllocation
        (if useGlobal then nextBit st else nextBit st + bitsNeeded)
        (if useGlobal then globalMask st
         else Z.lor (globalMask st)
                (Z.land (u32 (Z.shiftl (defaultValue info) shift)) mask))
        (features st ++ [map_])
        required.

(** [compile], up to the end of the bit allocation: [nextBit] starts
    above the glyph flags, [globalMask] with the global bit. *)
Definition compile (featureInfos : list featureInfo) : allocation :=
  fold_left allocate (mergeFeatureInfos featureInfos)
    (mkAllocation (OnesCount32 glyphFlagDefined + 1) globalBitMask [] (0, 0)).

End Compile.

(** Vocabulary for the merge of duplicates: the records of one tag, what
    folding them gives, and what it is for a value to be the least of a
    list. *)
Definition same_tag (t : Z) (x : featureInfo) : bool := Tag x =? t.

Definition tags_sorted (l : list featureInfo) : Prop :=
  StronglySorted (fun x y => Tag x <= Tag y) l.

Definition foldDuplicates (dups : list featureInfo) : option featureInfo :=
  match dups with
  | [] => None
  | first :: rest => Some (fold_left mergeInto rest first)
  end.

Definition is_min (m : Z) (vals : list Z) : Prop :=
  In m vals /\ forall v, In v vals -> m <= v.

Definition is_max (m : Z) (vals : list Z) : Prop :=
  In m vals /\ forall v, In v vals -> v <= m.

Definition is_global (x : featureInfo) : bool := has_bits (flags x) ffGLOBAL.

(** What the merged record of the duplicates [first :: rest] looks like. *)
Definition merged_from (r : featureInfo) (dups : list featureInfo) : Prop :=
  exists first rest,
    dups = first :: rest /\
    r = fold_left mergeInto rest first /\
    Tag r = Tag first /\
    is_min (fst (stage r)) (map (fun x => fst (stage x)) dups) /\
    is_min (snd (stage r)) (map (fun x => snd (stage x)) dups) /\
    has_bits (flags r) ffHasFallback =
      existsb (fun x => has_bits (flags x) ffHasFallback) dups /\
    is_global r = is_global (List.last rest first) /\
    (forall k, 2 <= k -> Z.testbit (flags r) k = Z.testbit (flags first) k) /\
    (forallb (fun x => negb (is_global x)) rest = true ->
       is_max (maxValue r) (map maxValue dups) /\
       defaultValue r = defaultValue first) /\
    (is_global (List.last rest first) = true ->
       maxValue r = maxValue (List.last rest first) /\
       defaultValue r = defaultValue (List.last rest first)).

(** Vocabulary for the bit allocation: a feature's mask is a field of
    [w] bits at its shift; it uses the global bit; one mask lies within
    another; the default-value contribution of a record to a feature. *)
Definition field_of (f : featureMap) (w : Z) : Prop :=
  0 <= w <= otMapMaxBits /\ 0 <= fm_shift f /\
  fm_mask f = Z.shiftl (Z.ones w) (fm_shift f).

Definition uses_global_bit (f : featureMap) : bool :=
  Z.testbit (fm_mask f) globalBitShift.

Definition included (x m : Z) : Prop := Z.land x m = x.

Definition contribution (info : featureInfo) (f : featureMap) : Z :=
  Z.land (u32 (Z.shiftl (defaultValue info) (fm_shift f))) (fm_mask f).

(** The invariant of the allocation loop over the records [done] seen so
    far. *)
Definition alloc_inv (done : list featureInfo) (st : allocation) : Prop :=
  4 <= nextBit st < globalBitShift /\
  Z.testbit (globalMask st) globalBitShift = true /\
  (forall f, In f (features st) ->
     (fm_shift f = globalBitShift /\ fm_mask f = globalBitMask) \/
     (exists w, 0 <= w <= otMapMaxBits /\ 4 <= fm_shift f /\
                fm_shift f + w <= nextBit st /\
                fm_mask f = Z.shiftl (Z.ones w) (fm_shift f))) /\
  (forall f, In f (features st) ->
     exists info, In info done /\ Tag info = fm_tag f /\
       (uses_global_bit f = true <-> is_global info = true /\ maxValue info = 1) /\
       included (contribution info f) (globalMask st)) /\
  (forall i j f g, i <> j ->
     features st !! i = Some f -> features st !! j = Some g ->
     uses_global_bit f = false -> Z.land (fm_mask f) (fm_mask g) = 0).

(** ** The Khmer shaper (hb-ot-shape-complex-khmer port) *)

(** Indices of the Khmer features in [khmerFeatures] and in the plan's
    mask array. *)
Definition khmerPref : nat := 0.
Definition khmerBlwf : nat := 1.
Definition khmerAbvf : nat := 2.
Definition khmerPstf : nat := 3.
Definition khmerCfar : nat := 4.
Definition khmerPres : nat := 5.
Definition khmerAbvs : nat := 6.
Definition khmerBlws : nat := 7.
Definition khmerPsts : nat := 8.
Definition khmerNumFeatures : nat := 9.

(** [maskArray [khmerNumFeatures]GlyphMask]: an array of fixed size, read
    at the constants above only. *)
Record khmerShapePlan : Type := mkKhmerShapePlan {
  maskArray : nat -> Z
}.

(** [for i := a; i < a + n; i++ { body }] over a state; a panic in the
    body ends the loop. *)
Fixpoint for_range {St : Type} (body : nat -> St -> option St) (a n : nat) (s : St)
    : option St :=
  match n with
  | O => Some s
  | S n' => s' ← body a s; for_range body (S a) n' s'
  end.

(** [info[i].Mask |= m] *)
Definition or_mask_at (m : Z) (i : nat) (info : list GlyphInfo) : option (list GlyphInfo) :=
  g ← info !! i; Some (<[i := or_Mask m g]> info).

(** [l[i] = x] *)
Definition store {A : Type} (l : list A) (i : nat) (x : A) : option (list A) :=
  if (i <? length l)%nat then Some (<[i := x]> l) else None.

(** [l[a:b]] *)
Definition slice {A : Type} (l : list A) (a b : nat) : option (list A) :=
  if (a <=? b)%nat && (b <=? length l)%nat then Some (take (b - a) (drop a l)) else None.

(** [copy(l[d:], src)]: the elements of [src] are written over [l] from
    index [d] on, as many as fit; [src] is read before anything is
    written, so the two may overlap. *)
Definition copy_to {A : Type} (l : list A) (d : nat) (src : list A) : option (list A) :=
  if (length l <? d)%nat then None
  else Some (take d l ++ take (length l - d) src ++ drop (d + length src) l).

Section Khmer.
Context `{PackageConstants} `{BufferOps}.

(** One turn of the loop of [reorderConsonantSyllable], at index [i],
    on the buffer and the counter [numCoengs].  [info] and [buffer.Info]
    are one slice: what [mergeClusters] writes is what the loop reads. *)
Definition reorderStep (khmerPlan : khmerShapePlan) (start end_ : nat) (i : nat)
    (st : Buffer * Z) : option (Buffer * Z) :=
  let '(buffer, numCoengs) := st in
  g ← Info buffer !! i;
  if (complexCategory g =? khmSM_ex_H) && (numCoengs <=? 2) && (i + 1 <? end_)%nat then
    let numCoengs := numCoengs + 1 in
    g1 ← Info buffer !! (i + 1)%nat;
    if complexCategory g1 =? khmSM_ex_Ra then
      info ← for_range (fun j => or_mask_at (maskArray khmerPlan khmerPref) (i + j)) 0 2
               (Info buffer);
      (* Move the Coeng,Ro sequence to the start. *)
      let buffer := mergeClusters (set_Info buffer info) start (i + 2) in
      let info := Info buffer in
      t0 ← info !! i;
      t1 ← info !! (i + 1)%nat;
      src ← slice info start i;
      info ← copy_to info (start + 2) src;
      info ← store info start t0;
      info ← store info (start + 1) t1;
      (* Mark the subsequent stuff with 'cfar'. *)
      info ← (if negb (maskArray khmerPlan khmerCfar =? 0) then
                for_range (or_mask_at (maskArray khmerPlan khmerCfar)) (i + 2)
                  (end_ - (i + 2)) info
              else Some info);
      let numCoengs := 2 in (* Done. *)
      Some (set_Info buffer info, numCoengs)
    else Some (buffer, numCoengs)
  else if complexCategory g =? khmSM_ex_VPre then
    (* Reorder left matra piece: move to the start. *)
    let buffer := mergeClusters buffer start (i + 1) in
    let info := Info buffer in
    t ← info !! i;
    src ← slice info start i;
    info ← copy_to info (start + 1) src;
    info ← store info start t;
    Some (set_Info buffer info, numCoengs)
  else Some (buffer, numCoengs).

(** [start] and [end] bound a syllable: they are indices of the buffer,
    natural numbers here; reading or writing past the slice is a panic. *)
Definition reorderConsonantSyllable (khmerPlan : khmerShapePlan) (buffer : Buffer)
    (start end_ : nat) : option Buffer :=
  let info := Info buffer in
  (* Setup masks: post-base. *)
  let mask :=
    Z.lor (Z.lor (maskArray khmerPlan khmerBlwf) (maskArray khmerPlan khmerAbvf))
          (maskArray khmerPlan khmerPstf) in
  info ← for_range (or_mask_at mask) (start + 1) (end_ - (start + 1)) info;
  let numCoengs := 0 in
  st ← for_range (reorderStep khmerPlan start end_) (start + 1) (end_ - (start + 1))
         (set_Info buffer info, numCoengs);
  Some (fst st).

End Khmer.


(** ** The buffer operations, as the design document words them *)

(** Modelled from the spec: [deleteGlyphsInplace(pred)], whose code is
    outside the listed sources, removes the glyphs that satisfy the
    predicate, each with its position. *)
Fixpoint deleteGlyphs (pred : GlyphInfo -> bool) (info : list GlyphInfo)
    (pos : list GlyphPosition) : list GlyphInfo * list GlyphPosition :=
  match info with
  | [] => ([], pos)
  | g :: info' =>
      let '(i', p') := deleteGlyphs pred info' (tail pos) in
      if pred g then (i', p') else (g :: i', firstn 1 pos ++ p')
  end.

Definition deleteGlyphsInplace_model (b : Buffer) (pred : GlyphInfo -> bool) : Buffer :=
  let '(i', p') := deleteGlyphs pred (Info b) (Pos b) in
  set_Pos (set_Info b i') p'.

Section BufferModel.
Context `{PackageConstants}.

(** Modelled from the spec: [unsafeToBreak(a,b)], whose code is outside
    the listed sources, marks the glyphs of [a,b) unsafe to break and to
    concat, and records in the scratch flags that glyph flags are
    present. *)
Definition unsafeToBreak_model (b : Buffer) (s e : Z) : Buffer :=
  set_scratchFlags
    (set_Info b
       (map_range (or_Mask (Z.lor GlyphUnsafeToBreak GlyphUnsafeToConcat))
          (Z.to_nat s) (Z.to_nat e) (Info b)))
    (Z.lor (scratchFlags b) bsfHasGlyphFlags).

End BufferModel.

(** Modelled from the spec: [mergeClusters(a,b)], whose code is outside
    the listed sources, sets every cluster value in [a,b) to the minimum
    found there; [setCluster] resets the defined-flag bits of a glyph
    whose cluster changes. *)
Definition minCluster (run : list GlyphInfo) (c : Z) : Z :=
  fold_left (fun m g => Z.min m (Cluster g)) run c.

Definition mergeClusters_model (b : Buffer) (s e : nat) : Buffer :=
  if (e - s <? 2)%nat then b
  else
    match Info b !! s with
    | None => b
    | Some g0 =>
        let cluster := minCluster (firstn (e - s) (skipn s (Info b))) (Cluster g0) in
        set_Info b (map_range (fun g => setCluster g cluster 0) s e (Info b))
    end.

(** Modelled from the spec: [Buffer.digest], whose code is outside the
    listed sources, is the digest of all the current glyphs in the
    buffer. *)
Definition digest_model (b : Buffer) : SetDigest.setDigest :=
  fold_left (fun d g => SetDigest.digest_add d (u16 (Glyph g))) (Info b) SetDigest.empty.

(** ** Sample inputs *)

(** Feature records: 'aalt' asked for a range with value 5 and manual
    ZWJ in stage 3, then globally with value 1 and the Random flag in
    stage 1; 'liga' globally in stage 2. *)
Definition aaltRange : featureInfo :=
  mkFeatureInfo 0x61616C74 5 ffManualZWJ 0 (3, 0).
Definition aaltGlobal : featureInfo :=
  mkFeatureInfo 0x61616C74 1 (Z.lor ffGLOBAL ffRandom) 1 (1, 0).
Definition ligaGlobal : featureInfo :=
  mkFeatureInfo 0x6C696761 1 ffGLOBAL 1 (2, 0).




(** Three clusters with both production flags requested: one unsafe to
    break and, on its second glyph, marked for tatweel; one marked for
    tatweel only; one without flags. Bit 4 of the first mask is a feature
    bit. *)
Definition tatweelBuffer : Buffer :=
  mkBuffer [mkGlyphInfo 0 0x644 300 (Z.lor 16 (Z.lor GlyphUnsafeToBreak GlyphUnsafeToConcat))
              0 0 0 0 0 0;
            mkGlyphInfo 0 0x627 301 GlyphSafeToInsertTatweel 0 0 0 0 0 0;
            mkGlyphInfo 2 0x628 302 GlyphSafeToInsertTatweel 0 0 0 0 0 0;
            mkGlyphInfo 3 0x629 303 0 0 0 0 0 0 0]
           [] 0 (Z.lor ProduceUnsafeToConcat ProduceSafeToInsertTatweel)
           bsfHasGlyphFlags 0 0 0.

(** A font whose space glyph is 3, and a buffer that asks to preserve its
    default ignorables: ZERO WIDTH JOINER between two letters, with an
    Invisible glyph set. *)
Definition spaceFont : Font := mkFont (fun c => if c =? 32 then (3, true) else (0, false)).

Definition zwjBuffer (flags invisible : Z) : Buffer :=
  mkBuffer [mkGlyphInfo 0 0x61 68 0 0 0 0 0 0 0;
            mkGlyphInfo 1 0x200D 900 0 0 0 0 upropsMaskIgnorable 0 0;
            mkGlyphInfo 2 0x62 69 0 0 0 0 0 0 0]
           [] 0 flags bsfHasDefaultIgnorables invisible 0 0.

(** * Part I, continued: further functions of the package *)

(** ** Coverage digests and accelerated subtables
       (set_digest.go, hb-ot-layout-gsubgpos port, ot_layout_gpos.go) *)

(** [tables.Coverage] as [collectCoverage] switches on it: a list of
    glyph ids, a list of inclusive ranges, or anything else. *)
Record RangeRecord : Type := mkRangeRecord {
  StartGlyphID : Z;
  EndGlyphID : Z
}.

Inductive Coverage : Type :=
| Coverage1 (Glyphs : list Z)
| Coverage2 (Ranges : list RangeRecord)
| CoverageOther.

(** [setDigest.collectCoverage] *)
Definition collectCoverage (sd : SetDigest.setDigest) (cov : Coverage) : SetDigest.setDigest :=
  match cov with
  | Coverage1 glyphs => SetDigest.digest_addArray sd glyphs
  | Coverage2 ranges =>
      fold_left (fun sd r => SetDigest.digest_addRange sd (StartGlyphID r) (EndGlyphID r))
        ranges sd
  | CoverageOther => sd
  end.

(** A layout subtable as the accelerator sees it: its coverage
    ([table.Cov()]) and what applying it does to the context
    ([c.applyGSUB(table)] or [c.applyGPOS(table)], [None] for a panic). *)
Record subtable : Type := mkSubtable {
  Cov : Coverage;
  applyTable : otApplyContext -> option (bool * otApplyContext)
}.

(** [type applicable struct] *)
Record applicable : Type := mkApplicable {
  objApply : otApplyContext -> option (bool * otApplyContext);
  ap_digest : SetDigest.setDigest
}.

(** [newGSUBApplicable] and [newGPOSApplicable] differ in the table type
    only. *)
Definition newApplicable (table : subtable) : applicable :=
  mkApplicable (applyTable table) (collectCoverage SetDigest.empty (Cov table)).

(** [applicable.apply]: [buffer.cur(0)] is [Info[idx]]; [gID] is the
    16-bit glyph index. *)
Definition applicable_apply (ap : applicable) (c : otApplyContext)
    : option (bool * otApplyContext) :=
  cur ← at_index (Info (buffer c)) (idx (buffer c));
  if SetDigest.digest_mayHave (ap_digest ap) (u16 (Glyph cur)) then objApply ap c
  else Some (false, c).

(** [type otLayoutLookupAccelerator struct], without the lookup itself. *)
Record otLayoutLookupAccelerator : Type := mkAccelerator {
  subtables : list applicable;
  acc_digest : SetDigest.setDigest
}.

(** [lookupGPOS.collectCoverage] *)
Definition lookup_collectCoverage (l : list subtable) (dst : SetDigest.setDigest)
    : SetDigest.setDigest :=
  fold_left (fun dst table => collectCoverage dst (Cov table)) l dst.

(** [lookupGPOS.dispatchSubtables] *)
Definition dispatchSubtables (l : list subtable) (ctx : list applicable) : list applicable :=
  fold_left (fun ctx table => ctx ++ [newApplicable table]) l ctx.

(** [otLayoutLookupAccelerator.init] *)
Definition accelerator_init (lookup : list subtable) : otLayoutLookupAccelerator :=
  mkAccelerator (dispatchSubtables lookup [])
                (lookup_collectCoverage lookup SetDigest.empty).



(** The glyphs a coverage table lists, and coverage tables over 16-bit
    glyph ids. *)
Definition lists (cov : Coverage) (g : Z) : Prop :=
  match cov with
  | Coverage1 glyphs => In g glyphs
  | Coverage2 ranges => exists r, In r ranges /\ StartGlyphID r <= g <= EndGlyphID r
  | CoverageOther => False
  end.

Definition coverage_typed (cov : Coverage) : Prop :=
  match cov with
  | Coverage1 glyphs => Forall SetDigest.setType glyphs
  | Coverage2 ranges =>
      Forall (fun r => SetDigest.setType (StartGlyphID r) /\ SetDigest.setType (EndGlyphID r))
        ranges
  | CoverageOther => True
  end.

(** ** Glyph properties (glyph.go) *)

(** The GDEF class bits of [tables], the substitution bits of
    [glyphProps] and the general categories are declared outside the
    listed sources; they are kept abstract.  [isMarkCategory] is the
    method [isMark] of a general category. *)
Class GlyphConstants : Type := {
  GPBaseGlyph : Z;
  GPLigature : Z;
  GPMark : Z;
  ligated : Z;
  multiplied : Z;
  spaceSeparator : Z;
  format : Z;
  nonSpacingMark : Z;
  decimalNumber : Z;
  notSpace : Z;
  isMarkCategory : Z -> bool
}.

(** if GEN_CAT=FORMAT, top byte masks *)
Definition upropsMaskCfZwj : Z := Z.shiftl 1 8.
Definition upropsMaskCfZwnj : Z := Z.shiftl 1 9.
Definition upropsMaskGenCat : Z := Z.shiftl 1 5 - 1.

Definition isLigBase : Z := 0x10.

(** [^x] on a [uint16] and on a [uint8]. *)
Definition not16 (x : Z) : Z := u16 (Z.lnot x).
Definition not8 (x : Z) : Z := u8 (Z.lnot x).

Definition generalCategory (prop : Z) : Z := Z.land prop upropsMaskGenCat.

Definition set_unicode (info : GlyphInfo) (u : Z) : GlyphInfo :=
  mkGlyphInfo (Cluster info) (codepoint info) (Glyph info) (Mask info) (glyphProps info)
    (ligProps info) (syllable info) u (complexCategory info) (complexAux info).

Definition set_ligProps (info : GlyphInfo) (p : Z) : GlyphInfo :=
  mkGlyphInfo (Cluster info) (codepoint info) (Glyph info) (Mask info) (glyphProps info)
    p (syllable info) (unicode info) (complexCategory info) (complexAux info).

Definition set_glyphProps (info : GlyphInfo) (p : Z) : GlyphInfo :=
  mkGlyphInfo (Cluster info) (codepoint info) (Glyph info) (Mask info) p
    (ligProps info) (syllable info) (unicode info) (complexCategory info)
    (complexAux info).

Definition set_syllable (info : GlyphInfo) (s : Z) : GlyphInfo :=
  mkGlyphInfo (Cluster info) (codepoint info) (Glyph info) (Mask info) (glyphProps info)
    (ligProps info) s (unicode info) (complexCategory info) (complexAux info).

(** Clears top-byte. *)
Definition setGeneralCategory (info : GlyphInfo) (genCat : Z) : GlyphInfo :=
  set_unicode info
    (Z.lor genCat (Z.land (unicode info) (Z.land 0xFF (not16 upropsMaskGenCat)))).

Definition setContinuation (info : GlyphInfo) : GlyphInfo :=
  set_unicode info (Z.lor (unicode info) upropsMaskContinuation).

Definition isContinuation (info : GlyphInfo) : bool :=
  has_bits (unicode info) upropsMaskContinuation.

Definition resetContinutation (info : GlyphInfo) : GlyphInfo :=
  set_unicode info (Z.land (unicode info) (not16 upropsMaskContinuation)).

Definition unhide (info : GlyphInfo) : GlyphInfo :=
  set_unicode info (Z.land (unicode info) (not16 upropsMaskHidden)).

(** [info.ligProps >> 5] *)
Definition getLigID (info : GlyphInfo) : Z := Z.shiftr (ligProps info) 5.

Definition ligatedInternal (info : GlyphInfo) : bool := has_bits (ligProps info) isLigBase.

Definition getLigComp (info : GlyphInfo) : Z :=
  if ligatedInternal info then 0 else Z.land (ligProps info) 0x0F.

(** [ligID], [ligComp] and [ligNumComps] are [uint8]: the shift wraps. *)
Definition setLigPropsForMark (info : GlyphInfo) (ligID ligComp : Z) : GlyphInfo :=
  set_ligProps info (Z.lor (u8 (Z.shiftl ligID 5)) (Z.land ligComp 0x0F)).

Definition setLigPropsForLigature (info : GlyphInfo) (ligID ligNumComps : Z) : GlyphInfo :=
  set_ligProps info
    (Z.lor (Z.lor (u8 (Z.shiftl ligID 5)) isLigBase) (Z.land ligNumComps 0x0F)).

Section GlyphProperties.
Context `{PackageConstants} `{GlyphConstants}.

Definition isUnicodeSpace (info : GlyphInfo) : bool :=
  generalCategory (unicode info) =? spaceSeparator.

Definition isUnicodeFormat (info : GlyphInfo) : bool :=
  generalCategory (unicode info) =? format.

Definition isZwnj (info : GlyphInfo) : bool :=
  isUnicodeFormat info && has_bits (unicode info) upropsMaskCfZwnj.

Definition isZwj (info : GlyphInfo) : bool :=
  isUnicodeFormat info && has_bits (unicode info) upropsMaskCfZwj.

Definition isUnicodeMark (info : GlyphInfo) : bool :=
  isMarkCategory (generalCategory (Z.land (unicode info) upropsMaskGenCat)).

(** [s] is a [uint8]. *)
Definition setUnicodeSpaceFallbackType (info : GlyphInfo) (s : Z) : GlyphInfo :=
  if negb (isUnicodeSpace info) then info
  else set_unicode info (Z.lor (u16 (Z.shiftl s 8)) (Z.land (unicode info) 0xFF)).

Definition getUnicodeSpaceFallbackType (info : GlyphInfo) : Z :=
  if isUnicodeSpace info then u8 (Z.shiftr (unicode info) 8) else notSpace.

Definition getModifiedCombiningClass (info : GlyphInfo) : Z :=
  if isUnicodeMark info then u8 (Z.shiftr (unicode info) 8) else 0.

(** [modifiedClass] is a [uint8]. *)
Definition setModifiedCombiningClass (info : GlyphInfo) (modifiedClass : Z) : GlyphInfo :=
  if negb (isUnicodeMark info) then info
  else set_unicode info
         (Z.lor (u16 (Z.shiftl modifiedClass 8)) (Z.land (unicode info) 0xFF)).

Definition glyph_ligated (info : GlyphInfo) : bool := has_bits (glyphProps info) ligated.

Definition glyph_multiplied (info : GlyphInfo) : bool :=
  has_bits (glyphProps info) multiplied.

Definition isMark (info : GlyphInfo) : bool := has_bits (glyphProps info) GPMark.

Definition isBaseGlyph (info : GlyphInfo) : bool := has_bits (glyphProps info) GPBaseGlyph.

Definition isLigature (info : GlyphInfo) : bool := has_bits (glyphProps info) GPLigature.

Definition getLigNumComps (info : GlyphInfo) : Z :=
  if has_bits (glyphProps info) GPLigature && ligatedInternal info
  then Z.land (ligProps info) 0x0F
  else 1.

Definition isDefaultIgnorableAndNotHidden (info : GlyphInfo) : bool :=
  (Z.land (unicode info) (Z.lor upropsMaskIgnorable upropsMaskHidden)
   =? upropsMaskIgnorable)
  && negb (glyph_substituted info).

Definition clearLigatedAndMultiplied (info : GlyphInfo) : GlyphInfo :=
  set_glyphProps info (Z.land (glyphProps info) (not16 (Z.lor ligated multiplied))).

Definition ligatedAndDidntMultiply (info : GlyphInfo) : bool :=
  glyph_ligated info && negb (glyph_multiplied info).

End GlyphProperties.

(** A glyph whose fields are in the ranges of their Go types, as far as
    the properties below read them. *)
Definition glyph_typed (info : GlyphInfo) : Prop :=
  0 <= unicode info < 2 ^ 16 /\ 0 <= ligProps info < 2 ^ 8 /\
  0 <= glyphProps info < 2 ^ 16.

(** The ligature byte, checked for every id and every count: the id
    reads back modulo 8, the low nibble modulo 16, and the base bit is as
    set. *)
Definition lig_byte_ok (ligID n : Z) : bool :=
  let mark := Z.lor (u8 (Z.shiftl ligID 5)) (Z.land n 0x0F) in
  let lig := Z.lor (Z.lor (u8 (Z.shiftl ligID 5)) isLigBase) (Z.land n 0x0F) in
  (Z.shiftr mark 5 =? ligID mod 8) && (Z.land mark 0x0F =? n mod 16)
  && negb (has_bits mark isLigBase)
  && (Z.shiftr lig 5 =? ligID mod 8) && (Z.land lig 0x0F =? n mod 16)
  && has_bits lig isLigBase.

Definition lig_table_ok : bool :=
  forallb (fun ligID => forallb (lig_byte_ok ligID) (seqZ 0 256)) (seqZ 0 256).

(** A model of the glyph constants: the GDEF class bits of the OpenType
    tables, the substitution bits next to [substituted], and the
    general categories numbered as in the Unicode tables of the package
    (marks are the categories 10 to 12). *)
#[export] Instance otConstants : GlyphConstants := {|
  GPBaseGlyph := 0x02;
  GPLigature := 0x04;
  GPMark := 0x08;
  ligated := 0x20;
  multiplied := 0x40;
  spaceSeparator := 29;
  format := 1;
  nonSpacingMark := 12;
  decimalNumber := 13;
  notSpace := 0;
  isMarkCategory := fun c => (10 <=? c) && (c <=? 12)
|}.

(** ** Reading the compiled feature map (hb-ot-map port) *)

(** The loop of [bsearchFeature], with [n] turns at most; [None] is a
    panic (an index outside the slice, or the turns used up, neither of
    which happens from [bsearchFeature]). *)
Fixpoint bsearchFrom (n : nat) (features : list featureMap) (tag low high : Z)
    : option (option featureMap) :=
  if low <? high then
    match n with
    | O => None
    | S n =>
        let mid := low + (high - low) / 2 in (* avoid overflow when computing mid *)
        p ← at_index features mid;
        if tag <? fm_tag p then bsearchFrom n features tag low mid
        else if tag >? fm_tag p then bsearchFrom n features tag (mid + 1) high
        else Some (Some p)
    end
  else Some None.

Definition bsearchFeature (features : list featureMap) (tag : Z)
    : option (option featureMap) :=
  bsearchFrom (length features) features tag 0 (Z.of_nat (length features)).

Definition MaxInt32 : Z := 2 ^ 31 - 1.

(** [otMap.needsFallback], [getMask], [getMask1], [getFeatureIndex] and
    [getFeatureStage] on the features of the map. *)
Definition needsFallback (features : list featureMap) (featureTag : Z) : option bool :=
  ma ← bsearchFeature features featureTag;
  Some (match ma with Some ma => fm_needsFallback ma | None => false end).

Definition getMask (features : list featureMap) (featureTag : Z) : option (Z * Z) :=
  ma ← bsearchFeature features featureTag;
  Some (match ma with Some ma => (fm_mask ma, fm_shift ma) | None => (0, 0) end).

Definition getMask1 (features : list featureMap) (featureTag : Z) : option Z :=
  ma ← bsearchFeature features featureTag;
  Some (match ma with Some ma => fm_mask1 ma | None => 0 end).

Definition getFeatureIndex (features : list featureMap) (tableIndex : Z) (featureTag : Z)
    : option Z :=
  ma ← bsearchFeature features featureTag;
  match ma with
  | Some ma => at_index [fst (fm_index ma); snd (fm_index ma)] tableIndex
  | None => Some NoFeatureIndex
  end.

Definition getFeatureStage (features : list featureMap) (tableIndex : Z) (featureTag : Z)
    : option Z :=
  ma ← bsearchFeature features featureTag;
  match ma with
  | Some ma => at_index [fst (fm_stage ma); snd (fm_stage ma)] tableIndex
  | None => Some MaxInt32
  end.

(** [otMap.getStageLookups] for one table: the lookups and the stages of
    that table.  Slicing with [start > end] or beyond the lookups is a
    panic here (Go allows an end up to the capacity of the slice; the
    bounds that [compile] stores never exceed the length). *)
Definition getStageLookups (lookups : list lookupMap) (stages : list stageMap) (stage : Z)
    : option (list lookupMap) :=
  if stage >? Z.of_nat (length stages) then Some []
  else
    start ← (if negb (stage =? 0) then lastLookup <$> at_index stages (stage - 1)
             else Some 0);
    end_ ← (if stage <? Z.of_nat (length stages) then lastLookup <$> at_index stages stage
            else Some (Z.of_nat (length lookups)));
    if (0 <=? start) && (start <=? end_) && (end_ <=? Z.of_nat (length lookups)) then
      Some (take (Z.to_nat (end_ - start)) (drop (Z.to_nat start) lookups))
    else None.

(** ** The builder's requests (hb-ot-map port) *)

(** The fields of [otMapBuilder] that the requests write. *)
Record stageInfo : Type := mkStageInfo {
  si_pauseFunc : option (Buffer -> bool * Buffer);
  si_index : Z
}.

Record otMapBuilder : Type := mkMapBuilder {
  mb_stages : list stageInfo * list stageInfo;
  featureInfos : list featureInfo;
  currentStage : Z * Z
}.

Definition addFeatureExt (mb : otMapBuilder) (tag flags value : Z) : otMapBuilder :=
  let info :=
    mkFeatureInfo tag value flags
      (if negb (Z.land flags ffGLOBAL =? 0) then value else 0)
      (currentStage mb) in
  mkMapBuilder (mb_stages mb) (featureInfos mb ++ [info]) (currentStage mb).

Definition addPause (mb : otMapBuilder) (tableIndex : Z)
    (fn : option (Buffer -> bool * Buffer)) : option otMapBuilder :=
  if tableIndex =? 0 then
    Some (mkMapBuilder
            (fst (mb_stages mb) ++ [mkStageInfo fn (fst (currentStage mb))],
             snd (mb_stages mb))
            (featureInfos mb)
            (fst (currentStage mb) + 1, snd (currentStage mb)))
  else if tableIndex =? 1 then
    Some (mkMapBuilder
            (fst (mb_stages mb),
             snd (mb_stages mb) ++ [mkStageInfo fn (snd (currentStage mb))])
            (featureInfos mb)
            (fst (currentStage mb), snd (currentStage mb) + 1))
  else None.

Definition enableFeatureExt (mb : otMapBuilder) (tag flags value : Z) : otMapBuilder :=
  addFeatureExt mb tag (Z.lor ffGLOBAL flags) value.

Definition enableFeature (mb : otMapBuilder) (tag : Z) : otMapBuilder :=
  enableFeatureExt mb tag ffNone 1.

Definition addFeature (mb : otMapBuilder) (tag : Z) : otMapBuilder :=
  addFeatureExt mb tag ffNone 1.

Definition disableFeature (mb : otMapBuilder) (tag : Z) : otMapBuilder :=
  addFeatureExt mb tag ffGLOBAL 0.

(** Feature maps in the order of their tags, as the binary search needs
    them. *)
Definition features_sorted (features : list featureMap) : Prop :=
  StronglySorted (fun a b => fm_tag a < fm_tag b) features.

(** Stage boundaries that [compile] can have produced: they do not
    decrease and lie within the lookups. *)
Definition stages_wf (lookups : list lookupMap) (stages : list stageMap) : Prop :=
  StronglySorted (fun a b => lastLookup a <= lastLookup b) stages /\
  Forall (fun s => 0 <= lastLookup s <= Z.of_nat (length lookups)) stages.

(** Where stage [k] begins: at 0, or where stage [k - 1] ended; past the
    last stage, at the end of the lookups. *)
Definition stageBound (lookups : list lookupMap) (stages : list stageMap) (k : nat) : nat :=
  match k with
  | O => O
  | S k' =>
      match stages !! k' with
      | Some s => Z.to_nat (lastLookup s)
      | None => length lookups
      end
  end.

(** ** Zero widths (ot_shaper.go) *)

(** [Position] is an [int32]. *)
Definition int32 (z : Z) : Z := (z + 2 ^ 31) mod 2 ^ 32 - 2 ^ 31.

(** [pos[i].XAdvance, pos[i].YAdvance, pos[i].XOffset, pos[i].YOffset = 0, 0, 0, 0] *)
Definition zeroPosition (p : GlyphPosition) : GlyphPosition :=
  mkGlyphPosition 0 0 0 0 (attachChain p) (attachType p).

(** adjustMarkOffsets, then zeroMarkWidth *)
Definition zeroMarkWidth (adjustOffsets : bool) (p : GlyphPosition) : GlyphPosition :=
  let p :=
    if adjustOffsets then
      mkGlyphPosition (XAdvance p) (int32 (XOffset p - XAdvance p))
        (YAdvance p) (int32 (YOffset p - YAdvance p)) (attachChain p) (attachType p)
    else p in
  mkGlyphPosition 0 (XOffset p) 0 (YOffset p) (attachChain p) (attachType p).

(** [for i, info := range buffer.Info { if test(info) { pos[i] = f(pos[i]) } }]:
    a glyph that passes the test and has no position is a panic. *)
Definition updatePositions (test : GlyphInfo -> bool) (f : GlyphPosition -> GlyphPosition)
    (info : list GlyphInfo) (pos : list GlyphPosition) : option (list GlyphPosition) :=
  for_range
    (fun i pos =>
       g ← info !! i;
       if test g then p ← pos !! i; Some (<[i := f p]> pos) else Some pos)
    0 (length info) pos.

Section ZeroWidths.
Context `{PackageConstants} `{GlyphConstants}.

Definition zeroWidthDefaultIgnorables (buffer : Buffer) : option Buffer :=
  if negb (has_bits (scratchFlags buffer) bsfHasDefaultIgnorables)
     || has_bits (Flags buffer) PreserveDefaultIgnorables
     || has_bits (Flags buffer) RemoveDefaultIgnorables
  then Some buffer
  else
    pos ← updatePositions isDefaultIgnorable zeroPosition (Info buffer) (Pos buffer);
    Some (set_Pos buffer pos).

Definition zeroMarkWidthsByGdef (buffer : Buffer) (adjustOffsets : bool) : option Buffer :=
  pos ← updatePositions isMark (zeroMarkWidth adjustOffsets) (Info buffer) (Pos buffer);
  Some (set_Pos buffer pos).

(** use unicodeProp to assign a class *)
Definition synthesizeGlyphClasses (buffer : Buffer) : Buffer :=
  set_Info buffer
    (map (fun g =>
            let class :=
              if negb (generalCategory (unicode g) =? nonSpacingMark) || isDefaultIgnorable g
              then GPBaseGlyph else GPMark in
            set_glyphProps g class)
         (Info buffer)).

End ZeroWidths.

(** ** Vertical forms (ot_shaper.go) *)

Definition vertCharFor (u : Z) : Z :=
  let page := Z.shiftr u 8 in
  if page =? 0x20 then
    if u =? 0x2013 then 0xfe32 (* EN DASH *)
    else if u =? 0x2014 then 0xfe31 (* EM DASH *)
    else if u =? 0x2025 then 0xfe30 (* TWO DOT LEADER *)
    else if u =? 0x2026 then 0xfe19 (* HORIZONTAL ELLIPSIS *)
    else u
  else if page =? 0x30 then
    if u =? 0x3001 then 0xfe11 (* IDEOGRAPHIC COMMA *)
    else if u =? 0x3002 then 0xfe12 (* IDEOGRAPHIC FULL STOP *)
    else if u =? 0x3008 then 0xfe3f (* LEFT ANGLE BRACKET *)
    else if u =? 0x3009 then 0xfe40 (* RIGHT ANGLE BRACKET *)
    else if u =? 0x300a then 0xfe3d (* LEFT DOUBLE ANGLE BRACKET *)
    else if u =? 0x300b then 0xfe3e (* RIGHT DOUBLE ANGLE BRACKET *)
    else if u =? 0x300c then 0xfe41 (* LEFT CORNER BRACKET *)
    else if u =? 0x300d then 0xfe42 (* RIGHT CORNER BRACKET *)
    else if u =? 0x300e then 0xfe43 (* LEFT WHITE CORNER BRACKET *)
    else if u =? 0x300f then 0xfe44 (* RIGHT WHITE CORNER BRACKET *)
    else if u =? 0x3010 then 0xfe3b (* LEFT BLACK LENTICULAR BRACKET *)
    else if u =? 0x3011 then 0xfe3c (* RIGHT BLACK LENTICULAR BRACKET *)
    else if u =? 0x3014 then 0xfe39 (* LEFT TORTOISE SHELL BRACKET *)
    else if u =? 0x3015 then 0xfe3a (* RIGHT TORTOISE SHELL BRACKET *)
    else if u =? 0x3016 then 0xfe17 (* LEFT WHITE LENTICULAR BRACKET *)
    else if u =? 0x3017 then 0xfe18 (* RIGHT WHITE LENTICULAR BRACKET *)
    else u
  else if page =? 0xfe then
    if u =? 0xfe4f then 0xfe34 (* WAVY LOW LINE *)
    else u
  else if page =? 0xff then
    if u =? 0xff01 then 0xfe15 (* FULLWIDTH EXCLAMATION MARK *)
    else if u =? 0xff08 then 0xfe35 (* FULLWIDTH LEFT PARENTHESIS *)
    else if u =? 0xff09 then 0xfe36 (* FULLWIDTH RIGHT PARENTHESIS *)
    else if u =? 0xff0c then 0xfe10 (* FULLWIDTH COMMA *)
    else if u =? 0xff1a then 0xfe13 (* FULLWIDTH COLON *)
    else if u =? 0xff1b then 0xfe14 (* FULLWIDTH SEMICOLON *)
    else if u =? 0xff1f then 0xfe16 (* FULLWIDTH QUESTION MARK *)
    else if u =? 0xff3b then 0xfe47 (* FULLWIDTH LEFT SQUARE BRACKET *)
    else if u =? 0xff3d then 0xfe48 (* FULLWIDTH RIGHT SQUARE BRACKET *)
    else if u =? 0xff3f then 0xfe33 (* FULLWIDTH LOW LINE *)
    else if u =? 0xff5b then 0xfe37 (* FULLWIDTH LEFT CURLY BRACKET *)
    else if u =? 0xff5d then 0xfe38 (* FULLWIDTH RIGHT CURLY BRACKET *)
    else u
  else u.

(** The characters [vertCharFor] changes, with their vertical forms. *)
Definition vertTable : list (Z * Z) :=
  [(0x2013, 0xfe32); (0x2014, 0xfe31); (0x2025, 0xfe30); (0x2026, 0xfe19);
   (0x3001, 0xfe11); (0x3002, 0xfe12); (0x3008, 0xfe3f); (0x3009, 0xfe40);
   (0x300a, 0xfe3d); (0x300b, 0xfe3e); (0x300c, 0xfe41); (0x300d, 0xfe42);
   (0x300e, 0xfe43); (0x300f, 0xfe44); (0x3010, 0xfe3b); (0x3011, 0xfe3c);
   (0x3014, 0xfe39); (0x3015, 0xfe3a); (0x3016, 0xfe17); (0x3017, 0xfe18);
   (0xfe4f, 0xfe34);
   (0xff01, 0xfe15); (0xff08, 0xfe35); (0xff09, 0xfe36); (0xff0c, 0xfe10);
   (0xff1a, 0xfe13); (0xff1b, 0xfe14); (0xff1f, 0xfe16); (0xff3b, 0xfe47);
   (0xff3d, 0xfe48); (0xff3f, 0xfe33); (0xff5b, 0xfe37); (0xff5d, 0xfe38)].

(** What holds of every row of the table: the function maps the
    character to the form, the form is a vertical presentation form and a
    fixed point, and no other row has the same form. *)
Definition vertRow_ok (row : Z * Z) : bool :=
  (vertCharFor (fst row) =? snd row)
  && (0xfe10 <=? snd row) && (snd row <=? 0xfe48)
  && (vertCharFor (snd row) =? snd row)
  && negb (fst row =? snd row)
  && forallb (fun other => negb (snd other =? snd row) || (fst other =? fst row)) vertTable.

(** ** Finishing the offsets (ot_layout_gpos.go) *)

(** What the positioning code reads of a [Direction]. *)
Record Direction : Type := mkDirection {
  isHorizontal : bool;
  isForward : bool
}.

Definition set_attachChain (p : GlyphPosition) (chain : Z) : GlyphPosition :=
  mkGlyphPosition (XAdvance p) (XOffset p) (YAdvance p) (YOffset p) chain (attachType p).

Definition set_offsets (p : GlyphPosition) (x y : Z) : GlyphPosition :=
  mkGlyphPosition (XAdvance p) x (YAdvance p) y (attachChain p) (attachType p).

Definition positionStartGPOS (buffer : Buffer) : Buffer :=
  set_Pos buffer
    (map (fun p => mkGlyphPosition (XAdvance p) (XOffset p) (YAdvance p) (YOffset p) 0 0)
         (Pos buffer)).

(** [l[a:b]] with Go [int] bounds. *)
Definition sliceZ {A : Type} (l : list A) (a b : Z) : option (list A) :=
  if (0 <=? a) && (a <=? b) && (b <=? Z.of_nat (length l))
  then Some (take (Z.to_nat (b - a)) (drop (Z.to_nat a) l))
  else None.

(** [propagateAttachmentOffsets]; the recursion is on the glyph attached
    to, after the chain of the glyph itself is cleared.  [fuel] bounds
    the depth of the recursion. *)
Fixpoint propagateAttachmentOffsets (fuel : nat) (pos : list GlyphPosition) (i : Z)
    (direction : Direction) : option (list GlyphPosition) :=
  match fuel with
  | O => None
  | S fuel =>
      p ← at_index pos i;
      let chain := attachChain p in
      let type_ := attachType p in
      if chain =? 0 then Some pos
      else
        let pos := <[Z.to_nat i := set_attachChain p 0]> pos in
        let j := i + chain in
        if j >=? Z.of_nat (length pos) then Some pos
        else
          pos ← propagateAttachmentOffsets fuel pos j direction;
          pi ← at_index pos i;
          pj ← at_index pos j;
          if negb (Z.land type_ attachTypeCursive =? 0) then
            if isHorizontal direction then
              Some (<[Z.to_nat i :=
                        set_offsets pi (XOffset pi) (int32 (YOffset pi + YOffset pj))]> pos)
            else
              Some (<[Z.to_nat i :=
                        set_offsets pi (int32 (XOffset pi + XOffset pj)) (YOffset pi)]> pos)
          else
            let pi :=
              set_offsets pi (int32 (XOffset pi + XOffset pj))
                (int32 (YOffset pi + YOffset pj)) in
            if isForward direction then
              run ← sliceZ pos j i;
              Some (<[Z.to_nat i :=
                        fold_left
                          (fun pi p =>
                             set_offsets pi (int32 (XOffset pi - XAdvance p))
                               (int32 (YOffset pi - YAdvance p)))
                          run pi]> pos)
            else
              run ← sliceZ pos (j + 1) (i + 1);
              Some (<[Z.to_nat i :=
                        fold_left
                          (fun pi p =>
                             set_offsets pi (int32 (XOffset pi + XAdvance p))
                               (int32 (YOffset pi + YAdvance p)))
                          run pi]> pos)
  end.

Section FinishOffsets.
Context `{PackageConstants}.

(** [positionFinishOffsetsGPOS]: handle attachments.  The recursion is
    never deeper than the number of glyphs plus one. *)
Definition positionFinishOffsetsGPOS (buffer : Buffer) (direction : Direction)
    : option Buffer :=
  if has_bits (scratchFlags buffer) bsfHasGPOSAttachment then
    pos ← for_range
            (fun i pos =>
               propagateAttachmentOffsets (S (length pos)) pos (Z.of_nat i) direction)
            0 (length (Pos buffer)) (Pos buffer);
    Some (set_Pos buffer pos)
  else Some buffer.

End FinishOffsets.

(** Attachments that [propagateAttachmentOffsets] can follow: a chain
    never points before the first glyph, and a mark attachment points
    back. *)
Definition chains_ok (pos : list GlyphPosition) : Prop :=
  forall i p, at_index pos i = Some p -> attachChain p <> 0 ->
    0 <= i + attachChain p /\
    (Z.land (attachType p) attachTypeCursive = 0 -> attachChain p < 0).

(** One position after the pass, against what it was: advances and
    attachment type are kept, the chain is kept or cleared. *)
Definition settled (p p' : GlyphPosition) : Prop :=
  XAdvance p' = XAdvance p /\ YAdvance p' = YAdvance p /\
  attachType p' = attachType p /\
  (attachChain p' = attachChain p \/ attachChain p' = 0).

(** The number of glyphs whose chain is still to be followed. *)
Definition pending (pos : list GlyphPosition) : nat :=
  length (List.filter (fun p => negb (attachChain p =? 0)) pos).

(** The advances of a run of glyphs, added up. *)
Definition sumXAdvance (run : list GlyphPosition) : Z :=
  fold_right Z.add 0 (map XAdvance run).

Definition sumYAdvance (run : list GlyphPosition) : Z :=
  fold_right Z.add 0 (map YAdvance run).

(** ** Khmer syllables (hb-ot-shape-complex-khmer port) *)

(** The syllable types of the Khmer machine are declared outside the
    listed sources. *)
Class KhmerMachine : Type := {
  khmerConsonantSyllable : Z;
  khmerBrokenCluster : Z;
  khmerNonKhmerCluster : Z
}.

(** [foundSyllableKhmer]: the glyphs of [ts, te) get the serial number
    and the type of the syllable; the serial number, a [uint8], is
    returned as it is left. *)
Definition foundSyllableKhmer (syllableType : Z) (ts te : nat) (info : list GlyphInfo)
    (syllableSerial : Z) : option (list GlyphInfo * Z) :=
  info ← for_range
           (fun i info =>
              g ← info !! i;
              Some (<[i := set_syllable g
                             (Z.lor (u8 (Z.shiftl syllableSerial 4)) syllableType)]> info))
           ts (te - ts) info;
  let syllableSerial := u8 (syllableSerial + 1) in
  let syllableSerial := if syllableSerial =? 16 then 1 else syllableSerial in
  Some (info, syllableSerial).

Section KhmerSyllables.
Context `{PackageConstants} `{BufferOps} `{KhmerMachine}.

Definition reorderSyllableKhmer (khmerPlan : khmerShapePlan) (buffer : Buffer)
    (start end_ : nat) : option Buffer :=
  g ← Info buffer !! start;
  let syllableType := Z.land (syllable g) 0x0F in
  if (syllableType =? khmerBrokenCluster) || (syllableType =? khmerConsonantSyllable)
  then reorderConsonantSyllable khmerPlan buffer start end_
  else Some buffer.

End KhmerSyllables.

(** The syllable byte, checked for every serial number and type: the
    serial number reads back from the high nibble and the type from the
    low one, and the byte is not zero. *)
Definition syllable_byte_ok (serial type : Z) : bool :=
  let s := Z.lor (u8 (Z.shiftl serial 4)) type in
  (Z.land s 0x0F =? type) && (Z.shiftr s 4 =? serial) && negb (s =? 0)
  && (s =? serial * 16 + type).

Definition syllable_table_ok : bool :=
  forallb (fun serial => forallb (syllable_byte_ok serial) (seqZ 0 16)) (seqZ 1 15).

(** The Khmer syllable types of the machine: consonant syllable, broken
    cluster and non-Khmer cluster. *)
#[export] Instance khmerMachine : KhmerMachine := {|
  khmerConsonantSyllable := 0;
  khmerBrokenCluster := 1;
  khmerNonKhmerCluster := 2
|}.

(** ** Collecting the features (ot_shaper.go, hb-ot-shape-complex-khmer port) *)

(** Modelled from the spec: a tag is four bytes; [ot.NewTag] packs them
    into a [uint32], the first byte highest. *)
Definition NewTag (a b c d : Z) : Z :=
  Z.lor (Z.lor (Z.lor (Z.shiftl a 24) (Z.shiftl b 16)) (Z.shiftl c 8)) d.

(** The tags the planner and the Khmer shaper name. *)
Definition tag_rvrn : Z := NewTag 0x72 0x76 0x72 0x6E.
Definition tag_ltra : Z := NewTag 0x6C 0x74 0x72 0x61.
Definition tag_ltrm : Z := NewTag 0x6C 0x74 0x72 0x6D.
Definition tag_rtla : Z := NewTag 0x72 0x74 0x6C 0x61.
Definition tag_rtlm : Z := NewTag 0x72 0x74 0x6C 0x6D.
Definition tag_frac : Z := NewTag 0x66 0x72 0x61 0x63.
Definition tag_numr : Z := NewTag 0x6E 0x75 0x6D 0x72.
Definition tag_dnom : Z := NewTag 0x64 0x6E 0x6F 0x6D.
Definition tag_rand : Z := NewTag 0x72 0x61 0x6E 0x64.
Definition tag_trak : Z := NewTag 0x74 0x72 0x61 0x6B.
Definition tag_Harf : Z := NewTag 0x48 0x61 0x72 0x66.
Definition tag_HARF : Z := NewTag 0x48 0x41 0x52 0x46.
Definition tag_Buzz : Z := NewTag 0x42 0x75 0x7A 0x7A.
Definition tag_BUZZ : Z := NewTag 0x42 0x55 0x5A 0x5A.
Definition tag_abvm : Z := NewTag 0x61 0x62 0x76 0x6D.
Definition tag_blwm : Z := NewTag 0x62 0x6C 0x77 0x6D.
Definition tag_ccmp : Z := NewTag 0x63 0x63 0x6D 0x70.
Definition tag_locl : Z := NewTag 0x6C 0x6F 0x63 0x6C.
Definition tag_mark : Z := NewTag 0x6D 0x61 0x72 0x6B.
Definition tag_mkmk : Z := NewTag 0x6D 0x6B 0x6D 0x6B.
Definition tag_rlig : Z := NewTag 0x72 0x6C 0x69 0x67.
Definition tag_calt : Z := NewTag 0x63 0x61 0x6C 0x74.
Definition tag_clig : Z := NewTag 0x63 0x6C 0x69 0x67.
Definition tag_curs : Z := NewTag 0x63 0x75 0x72 0x73.
Definition tag_dist : Z := NewTag 0x64 0x69 0x73 0x74.
Definition tag_kern : Z := NewTag 0x6B 0x65 0x72 0x6E.
Definition tag_liga : Z := NewTag 0x6C 0x69 0x67 0x61.
Definition tag_rclt : Z := NewTag 0x72 0x63 0x6C 0x74.
Definition tag_vert : Z := NewTag 0x76 0x65 0x72 0x74.
Definition tag_pref : Z := NewTag 0x70 0x72 0x65 0x66.
Definition tag_blwf : Z := NewTag 0x62 0x6C 0x77 0x66.
Definition tag_abvf : Z := NewTag 0x61 0x62 0x76 0x66.
Definition tag_pstf : Z := NewTag 0x70 0x73 0x74 0x66.
Definition tag_cfar : Z := NewTag 0x63 0x66 0x61 0x72.
Definition tag_pres : Z := NewTag 0x70 0x72 0x65 0x73.
Definition tag_abvs : Z := NewTag 0x61 0x62 0x76 0x73.
Definition tag_blws : Z := NewTag 0x62 0x6C 0x77 0x73.
Definition tag_psts : Z := NewTag 0x70 0x73 0x74 0x73.

Definition ffManualJoiners : Z := Z.lor ffManualZWNJ ffManualZWJ.
Definition ffGlobalManualJoiners : Z := Z.lor ffGLOBAL ffManualJoiners.
Definition ffGlobalHasFallback : Z := Z.lor ffGLOBAL ffHasFallback.

(** [type otMapFeature struct] *)
Record otMapFeature : Type := mkMapFeature {
  mf_tag : Z;
  mf_flags : Z
}.

(** [mb.addPause(0, fn)] and [mb.addPause(1, fn)] *)
Definition addGSUBPause (mb : otMapBuilder) (fn : option (Buffer -> bool * Buffer))
    : otMapBuilder :=
  mkMapBuilder
    (fst (mb_stages mb) ++ [mkStageInfo fn (fst (currentStage mb))], snd (mb_stages mb))
    (featureInfos mb)
    (fst (currentStage mb) + 1, snd (currentStage mb)).

Definition addGPOSPause (mb : otMapBuilder) (fn : option (Buffer -> bool * Buffer))
    : otMapBuilder :=
  mkMapBuilder
    (fst (mb_stages mb), snd (mb_stages mb) ++ [mkStageInfo fn (snd (currentStage mb))])
    (featureInfos mb)
    (fst (currentStage mb), snd (currentStage mb) + 1).

(** [for _, feat := range features { map_.addFeatureExt(feat.tag, feat.flags, 1) }] *)
Definition addFeatures (mb : otMapBuilder) (l : list otMapFeature) : otMapBuilder :=
  fold_left (fun mb feat => addFeatureExt mb (mf_tag feat) (mf_flags feat) 1) l mb.

Definition commonFeatures : list otMapFeature :=
  [mkMapFeature tag_abvm ffGLOBAL;
   mkMapFeature tag_blwm ffGLOBAL;
   mkMapFeature tag_ccmp ffGLOBAL;
   mkMapFeature tag_locl ffGLOBAL;
   mkMapFeature tag_mark ffGlobalManualJoiners;
   mkMapFeature tag_mkmk ffGlobalManualJoiners;
   mkMapFeature tag_rlig ffGLOBAL].

Definition horizontalFeatures : list otMapFeature :=
  [mkMapFeature tag_calt ffGLOBAL;
   mkMapFeature tag_clig ffGLOBAL;
   mkMapFeature tag_curs ffGLOBAL;
   mkMapFeature tag_dist ffGLOBAL;
   mkMapFeature tag_kern ffGlobalHasFallback;
   mkMapFeature tag_liga ffGLOBAL;
   mkMapFeature tag_rclt ffGLOBAL].

(** Modelled from the spec: the direction of a segment is one of LTR,
    RTL, TTB and BTT. *)
Inductive SegmentDirection : Type :=
| LeftToRight
| RightToLeft
| TopToBottom
| BottomToTop.

(** A user feature; [isGlobal] says whether its range is the whole text
    ([Start == FeatureGlobalStart && End == FeatureGlobalEnd]). *)
Record Feature : Type := mkFeature {
  feat_Tag : Z;
  feat_Value : Z;
  feat_isGlobal : bool
}.

(** What the planner asks of a complex shaper. *)
Record otComplexShaper : Type := mkComplexShaper {
  shaper_collectFeatures : otMapBuilder -> otMapBuilder;
  shaper_overrideFeatures : otMapBuilder -> otMapBuilder
}.

(** [newOtMapBuilder]: the stages, the requests and the current stages
    start at their zero values. *)
Definition newOtMapBuilder : otMapBuilder := mkMapBuilder ([], []) [] (0, 0).

Section Planner.

(** [Direction.isHorizontal] is declared outside the listed sources. *)
Variable direction_isHorizontal : SegmentDirection -> bool.

(** [otShapePlanner.collectFeatures] on the planner's map builder. *)
Definition planner_collectFeatures (shaper : otComplexShaper) (direction : SegmentDirection)
    (userFeatures : list Feature) (map_ : otMapBuilder) : otMapBuilder :=
  let map_ := enableFeature map_ tag_rvrn in
  let map_ := addGSUBPause map_ None in
  let map_ :=
    match direction with
    | LeftToRight => enableFeature (enableFeature map_ tag_ltra) tag_ltrm
    | RightToLeft => addFeature (enableFeature map_ tag_rtla) tag_rtlm
    | _ => map_
    end in
  (* Automatic fractions. *)
  let map_ := addFeature map_ tag_frac in
  let map_ := addFeature map_ tag_numr in
  let map_ := addFeature map_ tag_dnom in
  (* Random! *)
  let map_ := enableFeatureExt map_ tag_rand ffRandom otMapMaxValue in
  (* Tracking. *)
  let map_ := enableFeatureExt map_ tag_trak ffHasFallback 1 in
  let map_ := enableFeature map_ tag_Harf in
  let map_ := enableFeature map_ tag_HARF in
  let map_ := shaper_collectFeatures shaper map_ in
  let map_ := enableFeature map_ tag_Buzz in
  let map_ := enableFeature map_ tag_BUZZ in
  let map_ := addFeatures map_ commonFeatures in
  let map_ :=
    if direction_isHorizontal direction then addFeatures map_ horizontalFeatures
    else enableFeatureExt map_ tag_vert ffGlobalSearch 1 in
  let map_ :=
    fold_left
      (fun map_ f =>
         addFeatureExt map_ (feat_Tag f) (if feat_isGlobal f then ffGLOBAL else ffNone)
           (feat_Value f))
      userFeatures map_ in
  shaper_overrideFeatures shaper map_.

End Planner.

(** The Khmer features: basic ones first, applied one at a time after
    reordering, then the others. *)
Definition khmerFeatures : list otMapFeature :=
  [mkMapFeature tag_pref (Z.lor ffManualJoiners ffPerSyllable);
   mkMapFeature tag_blwf (Z.lor ffManualJoiners ffPerSyllable);
   mkMapFeature tag_abvf (Z.lor ffManualJoiners ffPerSyllable);
   mkMapFeature tag_pstf (Z.lor ffManualJoiners ffPerSyllable);
   mkMapFeature tag_cfar (Z.lor ffManualJoiners ffPerSyllable);
   mkMapFeature tag_pres ffGlobalManualJoiners;
   mkMapFeature tag_abvs ffGlobalManualJoiners;
   mkMapFeature tag_blws ffGlobalManualJoiners;
   mkMapFeature tag_psts ffGlobalManualJoiners].

Definition khmerBasicFeatures : nat := khmerPres.

Section KhmerShaper.

(** The two pause functions of the Khmer shaper and the compatibility
    switch are declared outside the listed sources. *)
Variable setupSyllablesKhmer : Buffer -> bool * Buffer.
Variable reorderKhmer : Buffer -> bool * Buffer.
Variable UniscribeBugCompatible : bool.

Definition khmer_collectFeatures (map_ : otMapBuilder) : otMapBuilder :=
  (* Do this before any lookups have been applied. *)
  let map_ := addGSUBPause map_ (Some setupSyllablesKhmer) in
  let map_ := addGSUBPause map_ (Some reorderKhmer) in
  let map_ := enableFeatureExt map_ tag_locl ffPerSyllable 1 in
  let map_ := enableFeatureExt map_ tag_ccmp ffPerSyllable 1 in
  let map_ := addFeatures map_ (take khmerBasicFeatures khmerFeatures) in
  let map_ := addGSUBPause map_ None in
  addFeatures map_ (drop khmerBasicFeatures (take khmerNumFeatures khmerFeatures)).

Definition khmer_overrideFeatures (map_ : otMapBuilder) : otMapBuilder :=
  let map_ := enableFeature map_ tag_clig in
  (* Uniscribe does not apply 'kern' in Khmer. *)
  let map_ := if UniscribeBugCompatible then disableFeature map_ tag_kern else map_ in
  disableFeature map_ tag_liga.

Definition complexShaperKhmer : otComplexShaper :=
  mkComplexShaper khmer_collectFeatures khmer_overrideFeatures.

End KhmerShaper.
(** * Part II: properties *)

(** ** Flag tests *)

Lemma has_bits_testbit (x k : Z) :
  0 <= k -> has_bits x (Z.shiftl 1 k) = Z.testbit x k.
Proof.
  intros Hk. unfold has_bits.
  rewrite Z.shiftl_1_l.
  destruct (Z.testbit x k) eqn:Hb.
  - apply negb_true_iff, Z.eqb_neq. intros H0.
    assert (Z.testbit (Z.land x (2 ^ k)) k = true) as Ht
      by (rewrite Z.land_spec, Hb, Z.pow2_bits_true by lia; reflexivity).
    rewrite H0, Z.bits_0 in Ht. discriminate.
  - apply negb_false_iff, Z.eqb_eq. apply Z.bits_inj'. intros n Hn.
    rewrite Z.land_spec, Z.bits_0.
    destruct (Z.eq_dec k n) as [->|Hne].
    + rewrite Hb. reflexivity.
    + rewrite (Z.pow2_bits_false k n) by assumption. apply andb_false_r.
Qed.

(** ** The set digest has no false negatives *)

Section DigestFacts.
Import SetDigest.

Lemma slot_range g shift : 0 <= slot g shift < 32.
Proof.
  unfold slot, maskBits. change (4 * 8 - 1) with (Z.ones 5).
  rewrite Z.land_ones by lia. apply Z.mod_pos_bound. lia.
Qed.

Lemma mayHave_testbit sd g shift :
  mayHave sd g shift = Z.testbit sd (slot g shift).
Proof.
  unfold mayHave, maskFor. apply has_bits_testbit. apply slot_range.
Qed.

Lemma mayHave_add_same sd g shift : mayHave (add sd g shift) g shift = true.
Proof.
  rewrite mayHave_testbit. unfold add, maskFor. fold (slot g shift).
  rewrite Z.lor_spec, Z.shiftl_1_l, Z.pow2_bits_true by apply slot_range.
  apply orb_true_r.
Qed.

Lemma mayHave_add_mono sd g h shift :
  mayHave sd g shift = true -> mayHave (add sd h shift) g shift = true.
Proof.
  rewrite !mayHave_testbit. unfold add. rewrite Z.lor_spec. intros ->. reflexivity.
Qed.

Lemma mayHave_addArray_mono arr : forall sd g shift,
  mayHave sd g shift = true -> mayHave (addArray sd arr shift) g shift = true.
Proof.
  induction arr as [|h arr IH]; intros sd g shift H; simpl; [exact H|].
  apply IH. apply mayHave_add_mono. exact H.
Qed.

Lemma mayHave_addArray_in arr : forall sd g shift,
  In g arr -> mayHave (addArray sd arr shift) g shift = true.
Proof.
  induction arr as [|h arr IH]; intros sd g shift Hin; simpl in *; [contradiction|].
  destruct Hin as [->|Hin].
  - apply mayHave_addArray_mono, mayHave_add_same.
  - apply IH. exact Hin.
Qed.

Lemma range_table : range_table_ok = true.
Proof. vm_compute. reflexivity. Qed.

Lemma rangeBits_covers sa d k :
  0 <= sa < 32 -> 0 <= k <= d -> d <= 30 -> range_ok sa d k = true.
Proof.
  intros Hsa Hk Hd.
  pose proof range_table as T. unfold range_table_ok in T.
  rewrite forallb_forall in T.
  specialize (T sa). rewrite <- list_elem_of_In, elem_of_seqZ in T.
  specialize (T ltac:(lia)). rewrite forallb_forall in T.
  specialize (T d). rewrite <- list_elem_of_In, elem_of_seqZ in T.
  specialize (T ltac:(lia)). rewrite forallb_forall in T.
  apply T. rewrite <- list_elem_of_In, elem_of_seqZ. lia.
Qed.

Lemma shiftr_glyph_bounds g shift :
  0 <= shift -> setType g -> 0 <= Z.shiftr g shift < 2 ^ 16.
Proof.
  intros Hs [Hg0 Hg1]. rewrite Z.shiftr_div_pow2 by assumption.
  assert (0 < 2 ^ shift) by (apply Z.pow_pos_nonneg; lia).
  split; [apply Z.div_pos; lia|].
  apply Z.le_lt_trans with g; [|assumption].
  apply Z.div_le_upper_bound; [lia|]. nia.
Qed.

Lemma shiftr_mono a b shift :
  0 <= shift -> a <= b -> Z.shiftr a shift <= Z.shiftr b shift.
Proof.
  intros Hs Hab. rewrite !Z.shiftr_div_pow2 by assumption.
  apply Z.div_le_mono; [apply Z.pow_pos_nonneg; lia|assumption].
Qed.

Lemma slot_mod g shift : slot g shift = Z.shiftr g shift mod 32.
Proof.
  unfold slot, maskBits. change (4 * 8 - 1) with (Z.ones 5).
  rewrite Z.land_ones by lia. reflexivity.
Qed.

Lemma mayHave_addRange_in sd a b g shift :
  0 <= shift -> setType a -> setType b -> a <= g <= b ->
  mayHave (addRange sd a b shift) g shift = true.
Proof.
  intros Hs Ha Hb [Hag Hgb].
  assert (setType g) as Hg by (unfold setType in *; lia).
  pose proof (shiftr_glyph_bounds a shift Hs Ha) as BA.
  pose proof (shiftr_glyph_bounds b shift Hs Hb) as BB.
  pose proof (shiftr_mono a g shift Hs Hag) as LAG.
  pose proof (shiftr_mono g b shift Hs Hgb) as LGB.
  rewrite mayHave_testbit. unfold addRange.
  destruct (u16 (Z.shiftr b shift - Z.shiftr a shift) >=? maskBits - 1) eqn:Hwide.
  - apply Z.ones_spec_low. pose proof (slot_range g shift). lia.
  - rewrite Z.lor_spec. apply orb_true_iff. right.
    unfold maskFor. fold (slot a shift) (slot b shift).
    change (Z.testbit (rangeBits (slot a shift) (slot b shift)) (slot g shift) = true).
    unfold u16 in Hwide. rewrite Z.mod_small in Hwide by lia.
    unfold maskBits in Hwide. rewrite Z.geb_leb in Hwide. apply Z.leb_gt in Hwide.
    pose proof (rangeBits_covers (slot a shift)
                  (Z.shiftr b shift - Z.shiftr a shift)
                  (Z.shiftr g shift - Z.shiftr a shift)
                  (slot_range a shift) ltac:(lia) ltac:(lia)) as Hc.
    unfold range_ok in Hc.
    rewrite !slot_mod in *.
    rewrite !Zplus_mod_idemp_l in Hc.
    replace (Z.shiftr a shift + (Z.shiftr b shift - Z.shiftr a shift))
      with (Z.shiftr b shift) in Hc by lia.
    replace (Z.shiftr a shift + (Z.shiftr g shift - Z.shiftr a shift))
      with (Z.shiftr g shift) in Hc by lia.
    exact Hc.
Qed.

Lemma mayHave_addRange_mono sd a b g shift :
  mayHave sd g shift = true -> mayHave (addRange sd a b shift) g shift = true.
Proof.
  rewrite !mayHave_testbit. intros H. unfold addRange.
  destruct (_ >=? _).
  - apply Z.ones_spec_low. pose proof (slot_range g shift). lia.
  - rewrite Z.lor_spec, H. reflexivity.
Qed.

Lemma all_words_mayHave sd g : all_words_have sd g -> digest_mayHave sd g = true.
Proof. intros (H0 & H1 & H2). unfold digest_mayHave. rewrite H0, H1, H2. reflexivity. Qed.

Lemma perform_inserts sd op g :
  well_typed op -> inserts op g -> all_words_have (perform sd op) g.
Proof.
  destruct op as [g'|arr|a b]; simpl; intros Hwt Hin.
  - subst g'. repeat split; apply mayHave_add_same.
  - repeat split; apply mayHave_addArray_in; exact Hin.
  - destruct Hwt as [Ha Hb].
    repeat split; apply mayHave_addRange_in; unfold shift0, shift1, shift2; (lia || assumption).
Qed.

Lemma perform_keeps sd op g :
  all_words_have sd g -> all_words_have (perform sd op) g.
Proof.
  intros (H0 & H1 & H2).
  destruct op as [g'|arr|a b]; simpl; repeat split;
    (apply mayHave_add_mono || apply mayHave_addArray_mono || apply mayHave_addRange_mono);
    assumption.
Qed.

Lemma perform_all_keeps ops : forall sd g,
  all_words_have sd g -> all_words_have (fold_left perform ops sd) g.
Proof.
  induction ops as [|op ops IH]; intros sd g H; simpl; [exact H|].
  apply IH, perform_keeps, H.
Qed.

(** C6. Whatever was inserted into a digest by [add], [addArray] or
    [addRange] (any glyph of the inclusive range) is found by every later
    [mayHave]: each of the three filter words, built with the shifts 4, 0
    and 9, has the glyph's bit, so the digest has no false negatives. *)
Theorem C6_digest_no_false_negatives (ops : list insertion) (sd : setDigest) (g : Z) :
  Forall well_typed ops ->
  (exists op, In op ops /\ inserts op g) ->
  all_words_have (fold_left perform ops sd) g /\
  digest_mayHave (fold_left perform ops sd) g = true.
Proof.
  intros Hwt (op & Hin & Hg).
  assert (all_words_have (fold_left perform ops sd) g) as H.
  { revert sd. induction ops as [|o ops IH]; intros sd; [contradiction|].
    apply Forall_cons in Hwt as [Ho Hwt]. simpl.
    destruct Hin as [->|Hin].
    - apply perform_all_keeps, perform_inserts; assumption.
    - apply IH; assumption. }
  split; [exact H|apply all_words_mayHave, H].
Qed.

(** The three kinds of insertion at once: glyph 300 is added alone, 7 in
    an array, and 1000 lies in the range 990..1100. *)
Lemma C6_digest_witness :
  (Forall well_typed [Add 300; AddArray [5; 7; 9]; AddRange 990 1100] /\
   exists op, In op [Add 300; AddArray [5; 7; 9]; AddRange 990 1100] /\
              inserts op 1000) /\
  all_words_have
    (fold_left perform [Add 300; AddArray [5; 7; 9]; AddRange 990 1100] empty) 1000 /\
  digest_mayHave
    (fold_left perform [Add 300; AddArray [5; 7; 9]; AddRange 990 1100] empty) 1000 = true.
Proof.
  assert (Forall well_typed [Add 300; AddArray [5; 7; 9]; AddRange 990 1100]) as Hwt.
  { repeat apply Forall_cons_2; try apply Forall_nil_2; simpl; unfold setType;
      repeat apply Forall_cons_2; try apply Forall_nil_2; lia. }
  assert (exists op, In op [Add 300; AddArray [5; 7; 9]; AddRange 990 1100] /\
                     inserts op 1000) as Hin.
  { exists (AddRange 990 1100). simpl. split; [auto|lia]. }
  split; [split; assumption|].
  exact (C6_digest_no_false_negatives _ empty 1000 Hwt Hin).
Defined.

End DigestFacts.

(** ** Glyph flags and their propagation *)

Section FlagFacts.
Context `{PackageConstants}.


Lemma has_flag_concat g : has_flag GlyphUnsafeToConcat g = Z.testbit (Mask g) 1.
Proof. apply (has_bits_testbit (Mask g) 1). lia. Qed.




Lemma clusterMask_acc_small run : forall acc,
  Z.land acc glyphFlagDefined = acc ->
  Z.land (fold_left (fun mask g => Z.lor mask (Z.land (Mask g) glyphFlagDefined)) run acc)
         glyphFlagDefined
  = fold_left (fun mask g => Z.lor mask (Z.land (Mask g) glyphFlagDefined)) run acc.
Proof.
  induction run as [|g run IH]; intros acc Hacc; simpl; [exact Hacc|].
  apply IH. rewrite Z.land_lor_distr_l, Hacc, <- Z.land_assoc, Z.land_diag.
  reflexivity.
Qed.

Lemma clusterMask_range run : 0 <= clusterMask run < 8.
Proof.
  pose proof (clusterMask_acc_small run 0 eq_refl) as Hs. fold (clusterMask run) in Hs.
  change glyphFlagDefined with (Z.ones 3) in Hs. rewrite Z.land_ones in Hs by lia.
  rewrite <- Hs. apply Z.mod_pos_bound. lia.
Qed.

(** The case analysis behind every fact about [adjustMask]: a cluster
    mask is one of eight values. *)
Lemma small_mask_cases m (P : Z -> Prop) :
  0 <= m < 8 ->
  P 0 -> P 1 -> P 2 -> P 3 -> P 4 -> P 5 -> P 6 -> P 7 -> P m.
Proof.
  intros Hm P0 P1 P2 P3 P4 P5 P6 P7.
  assert (m = 0 \/ m = 1 \/ m = 2 \/ m = 3 \/ m = 4 \/ m = 5 \/ m = 6 \/ m = 7)
    as [->|[->|[->|[->|[->|[->|[->| ->]]]]]]] by lia; assumption.
Qed.




Lemma adjustMask_clears_concat flip m :
  0 <= m < 8 -> Z.testbit (adjustMask flip true m) 1 = false.
Proof.
  intros Hm. pattern m. apply small_mask_cases; [exact Hm|..];
    destruct flip; reflexivity.
Qed.

Lemma adjustMask_clear_keeps_break flip m :
  0 <= m < 8 -> Z.testbit m 0 = true -> Z.testbit (adjustMask flip true m) 0 = true.
Proof.
  intros Hm. pattern m. apply small_mask_cases; [exact Hm|..];
    destruct flip; vm_compute; intros; congruence.
Qed.

End FlagFacts.

Section PropagateFacts.
Context `{PackageConstants} `{BufferOps}.




Lemma propagateCluster_mask flip clear run g :
  In g (propagateCluster flip clear run) ->
  Mask g = adjustMask flip clear (clusterMask run).
Proof.
  unfold propagateCluster. intros Hin. apply in_map_iff in Hin as (g0 & <- & _).
  reflexivity.
Qed.

(** Every glyph leaving [propagateFlags], when flags were recorded, sits
    in the image of one cluster of the input. *)
Lemma propagateFlags_glyph buffer g :
  has_bits (scratchFlags buffer) bsfHasGlyphFlags = true ->
  In g (Info (propagateFlags buffer)) ->
  exists run,
    In run (clusterRuns (Info buffer)) /\
    In g (propagateCluster (has_bits (Flags buffer) ProduceSafeToInsertTatweel)
            (negb (has_bits (Flags buffer) ProduceUnsafeToConcat)) run).
Proof.
  intros Hrec. unfold propagateFlags. rewrite Hrec. simpl.
  intros Hin. apply in_concat in Hin as (run' & Hrun' & Hg).
  apply in_map_iff in Hrun' as (run & <- & Hrun).
  exists run. split; assumption.
Qed.





(** Without the ProduceUnsafeToConcat flag, propagation over recorded
    flags strips UnsafeToConcat from every glyph, and a cluster that was
    unsafe to break stays so. *)
Lemma propagateFlags_strips_concat (buffer : Buffer) :
  has_bits (Flags buffer) ProduceUnsafeToConcat = false ->
  has_bits (scratchFlags buffer) bsfHasGlyphFlags = true ->
  forall g, In g (Info (propagateFlags buffer)) ->
    has_flag GlyphUnsafeToConcat g = false.
Proof.
  intros Hreq Hrec g Hin.
  destruct (propagateFlags_glyph buffer g Hrec Hin) as (run & Hrun & Hg).
  rewrite has_flag_concat, (propagateCluster_mask _ _ _ _ Hg), Hreq. simpl.
  apply adjustMask_clears_concat, clusterMask_range.
Qed.



End PropagateFacts.

(** *** Propagation on sample buffers *)




(** What propagation makes of the sample buffer: the first cluster (flags
    break+concat and tatweel) loses tatweel, the second (tatweel alone)
    becomes unsafe to break and to concat as well. *)
Example propagateFlags_tatweelBuffer :
  map Mask (Info (propagateFlags tatweelBuffer)) = [3; 3; 7; 0].
Proof. reflexivity. Qed.

(** ** The buffer operations of the design document obey the laws *)

Lemma map_range_lookup {A : Type} (f : A -> A) (l : list A) : forall s e k,
  map_range f s e l !! k =
  if bool_decide (s <= k < e)%nat then f <$> l !! k else l !! k.
Proof.
  induction l as [|x l IH]; intros s e k; simpl.
  - destruct (bool_decide _); reflexivity.
  - destruct e as [|e].
    + rewrite bool_decide_eq_false_2 by lia. reflexivity.
    + destruct s as [|s], k as [|k]; simpl.
      * reflexivity.
      * rewrite IH. apply (f_equal (fun c : bool => if c then _ else _)).
        apply bool_decide_ext. lia.
      * reflexivity.
      * rewrite IH. apply (f_equal (fun c : bool => if c then _ else _)).
        apply bool_decide_ext. lia.
Qed.

Lemma map_range_length {A : Type} (f : A -> A) (l : list A) : forall s e,
  length (map_range f s e l) = length l.
Proof.
  induction l as [|x l IH]; intros s e; simpl; [reflexivity|].
  destruct e as [|e]; [reflexivity|].
  destruct s as [|s]; simpl; rewrite IH; reflexivity.
Qed.

Lemma map_range_invariant {A B : Type} (f : A -> A) (h : A -> B) (l : list A) :
  (forall x, h (f x) = h x) ->
  forall s e, map h (map_range f s e l) = map h l.
Proof.
  intros Hf. induction l as [|x l IH]; intros s e; simpl; [reflexivity|].
  destruct e as [|e]; [reflexivity|].
  destruct s as [|s]; simpl; rewrite IH, ?Hf; reflexivity.
Qed.

Lemma not32_idem_land m x : Z.land (Z.land m (not32 x)) (not32 x) = Z.land m (not32 x).
Proof. rewrite <- Z.land_assoc, Z.land_diag. reflexivity. Qed.

Lemma glyph_core_setCluster g cluster :
  glyph_core (setCluster g cluster 0) = glyph_core g.
Proof.
  unfold setCluster, glyph_core.
  destruct (negb (Cluster g =? cluster)); destruct g as [c cp gl m gp lp sy un cc ca];
    simpl; [|reflexivity].
  rewrite Z.land_0_l, Z.lor_0_r, not32_idem_land. reflexivity.
Qed.

Lemma mergeClusters_model_core b s e :
  map glyph_core (Info (mergeClusters_model b s e)) = map glyph_core (Info b).
Proof.
  unfold mergeClusters_model.
  destruct (e - s <? 2)%nat; [reflexivity|].
  destruct (Info b !! s) as [g0|]; [|reflexivity].
  simpl. apply map_range_invariant. intros x. apply glyph_core_setCluster.
Qed.

Lemma glyph_core_or_flags g :
  glyph_core (or_Mask (Z.lor GlyphUnsafeToBreak GlyphUnsafeToConcat) g) = glyph_core g.
Proof.
  unfold glyph_core, or_Mask. destruct g as [c cp gl m gp lp sy un cc ca]. simpl.
  rewrite Z.land_lor_distr_l.
  change (Z.land (Z.lor GlyphUnsafeToBreak GlyphUnsafeToConcat) (not32 glyphFlagDefined))
    with 0.
  rewrite Z.lor_0_r. reflexivity.
Qed.

Lemma unsafeToBreak_model_core b s e :
  map glyph_core (Info (unsafeToBreak_model b s e)) = map glyph_core (Info b).
Proof.
  unfold unsafeToBreak_model. simpl. apply map_range_invariant. intros g.
  apply glyph_core_or_flags.
Qed.

#[export] Instance hbBufferOps : BufferOps := {|
  otLayoutDeleteGlyphsInplace := deleteGlyphsInplace_model;
  unsafeToBreak := unsafeToBreak_model;
  mergeClusters := mergeClusters_model;
  digest := digest_model;
  unsafeToBreak_idx := fun _ _ _ => eq_refl;
  unsafeToBreak_Pos := fun _ _ _ => eq_refl;
  unsafeToBreak_core := unsafeToBreak_model_core;
  mergeClusters_core := mergeClusters_model_core
|}.

(** *** Sample inputs for the lookup machinery *)

(** A context before any [reset]. *)
Definition blankContext : otApplyContext :=
  mkContext (mkBuffer [] [] 0 0 0 0 0 0) SetDigest.empty 0 0 0 0 0 0
    false false false 0 false 0 0.

(** One letter, with the limits [shape] gives it. *)
Definition oneGlyph : Buffer :=
  shapeLimits (mkBuffer [mkGlyphInfo 0 0x61 68 0 0 0 0 0 0 0] [] 0 0 0 0 0 0).

(** A context whose nesting budget has run down to zero while operations
    are left. *)
Definition exhaustedContext : otApplyContext :=
  set_nestingLevelLeft (reset blankContext 0 oneGlyph) 0.

(** Lookup 0 recurses into lookup 1, which substitutes glyph 999. *)
Definition twoLookups : list nestingLookup := [RecurseInto 1; SubstituteGlyph 999].

(** A hundred context lookups, each recursing into the next, and a
    substitution at the bottom. *)
Definition lookupChain : list nestingLookup :=
  map (fun k => RecurseInto (k + 1)) (seqZ 0 100) ++ [SubstituteGlyph 999].





(** ** Hiding default ignorables *)

Section HideFacts.
Context `{PackageConstants} `{BufferOps}.

Lemma hideDefaultIgnorables_branch buffer font :
  hideDefaultIgnorables buffer font =
  match hide_branch buffer font with
  | HideNothing => buffer
  | HideReplace invisible =>
      set_Info buffer
        (map (fun g => if isDefaultIgnorable g then set_Glyph g invisible else g)
             (Info buffer))
  | HideDelete => otLayoutDeleteGlyphsInplace buffer isDefaultIgnorable
  end.
Proof.
  unfold hideDefaultIgnorables, hide_branch.
  destruct (negb (has_bits (scratchFlags buffer) bsfHasDefaultIgnorables)
            || has_bits (Flags buffer) PreserveDefaultIgnorables); [reflexivity|].
  destruct (Invisible buffer =? 0); simpl.
  - destruct (NominalGlyph font 32) as [invisible ok]. simpl.
    destruct ok, (has_bits (Flags buffer) RemoveDefaultIgnorables); reflexivity.
  - rewrite andb_false_r. reflexivity.
Qed.



End HideFacts.



(** With the operations of the design document: a nonzero Invisible glyph
    does not replace the joiner, it is deleted; a zero one is replaced by
    the font's space glyph. *)
Example hide_with_invisible :
  map Glyph (Info (hideDefaultIgnorables (zwjBuffer 0 1) spaceFont)) = [68; 69].
Proof. reflexivity. Qed.

Example hide_without_invisible :
  map Glyph (Info (hideDefaultIgnorables (zwjBuffer 0 0) spaceFont)) = [68; 3; 69].
Proof. reflexivity. Qed.

(** ** The recursion guard *)

Section RecurseFacts.
Context `{PackageConstants} `{BufferOps}.


(** What it misses: at nesting level zero, with operations left, the
    nested lookup is called all the same, one level below zero. *)
Lemma recurse_at_level_zero (f : recurseFunc) c sub :
  nestingLevelLeft c = 0 -> 0 < maxOps (buffer c) ->
  recurse (Some f) c sub =
  match f (set_nestingLevelLeft (dec_maxOps c) (-1)) sub with
  | None => None
  | Some (ret, c') => Some (ret, set_nestingLevelLeft c' (nestingLevelLeft c' + 1))
  end.
Proof.
  intros Hzero Hops. unfold recurse.
  assert ((maxOps (buffer c) <=? 0) = false) as -> by (apply Z.leb_gt; assumption).
  rewrite Hzero. simpl. rewrite Hzero. reflexivity.
Qed.

(** Below zero the guard never fires again. *)
Lemma recurse_below_zero (f : recurseFunc) c sub :
  nestingLevelLeft c < 0 -> 0 < maxOps (buffer c) ->
  recurse (Some f) c sub =
  match f (set_nestingLevelLeft c (nestingLevelLeft c - 1)) sub with
  | None => None
  | Some (ret, c') => Some (ret, set_nestingLevelLeft c' (nestingLevelLeft c' + 1))
  end.
Proof.
  intros Hneg Hops. unfold recurse.
  assert ((nestingLevelLeft c =? 0) = false) as -> by (apply Z.eqb_neq; lia).
  assert ((maxOps (buffer c) <=? 0) = false) as -> by (apply Z.leb_gt; assumption).
  reflexivity.
Qed.

End RecurseFacts.

(** C2, at the failing input: the nesting budget is zero and operations
    are left; [recurse] does not return false, it runs the nested lookup,
    which substitutes the glyph. *)
Lemma C2_recurse_runs_at_level_zero :
  nestingLevelLeft exhaustedContext = 0 /\
  match recurse (Some (applyRecurse twoLookups 5)) exhaustedContext 1 with
  | Some (ret, c) =>
      ret = true /\ map Glyph (Info (buffer c)) = [999] /\
      nestingLevelLeft c = 0 /\ maxOps (buffer c) = 16383
  | None => False
  end.
Proof. vm_compute. repeat split; reflexivity. Qed.

(** From a fresh context (64 levels), a chain of a hundred nested lookups
    runs to its bottom: nothing is clipped at level 64. *)
Example nesting_chain_not_clipped :
  nestingLevelLeft (reset blankContext 0 oneGlyph) = 64 /\
  match recurse (Some (applyRecurse lookupChain 200)) (reset blankContext 0 oneGlyph) 0 with
  | Some (ret, c) => ret = true /\ map Glyph (Info (buffer c)) = [999]
  | None => False
  end.
Proof. vm_compute. repeat split; reflexivity. Qed.

(** ** Limits in [otMap.apply] *)

Section ApplyFacts.
Context `{PackageConstants} `{BufferOps}.
Variable applyString : otApplyContext -> SetDigest.setDigest -> otApplyContext.






End ApplyFacts.



(** ** Sorting and merging the feature records *)

Section MergeFacts.

Lemma insertByTag_perm x l : Permutation (insertByTag x l) (x :: l).
Proof.
  induction l as [|y l IH]; simpl; [reflexivity|].
  destruct (Tag x <=? Tag y); [reflexivity|].
  rewrite IH. apply perm_swap.
Qed.

Lemma sortStableByTag_perm l : Permutation (sortStableByTag l) l.
Proof.
  induction l as [|x l IH]; simpl; [reflexivity|].
  rewrite insertByTag_perm, IH. reflexivity.
Qed.

Lemma insertByTag_in x l y : In y (insertByTag x l) <-> y = x \/ In y l.
Proof.
  split; intros Hy.
  - apply (Permutation_in _ (insertByTag_perm x l)) in Hy. destruct Hy; auto.
  - apply (Permutation_in _ (Permutation_sym (insertByTag_perm x l))).
    destruct Hy; [left|right]; auto.
Qed.

Lemma insertByTag_sorted x l : tags_sorted l -> tags_sorted (insertByTag x l).
Proof.
  unfold tags_sorted. induction l as [|y l IH]; intros Hs; simpl.
  - repeat constructor.
  - apply StronglySorted_inv in Hs as [Hl Hy].
    destruct (Tag x <=? Tag y) eqn:E.
    + apply Z.leb_le in E. constructor; [constructor; assumption|].
      constructor; [assumption|].
      rewrite List.Forall_forall in Hy |- *. intros z Hz. specialize (Hy z Hz). lia.
    + apply Z.leb_gt in E. constructor; [apply IH, Hl|].
      rewrite List.Forall_forall in Hy |- *. intros z Hz.
      apply insertByTag_in in Hz as [->|Hz]; [lia|apply Hy, Hz].
Qed.

Lemma sortStableByTag_sorted l : tags_sorted (sortStableByTag l).
Proof.
  induction l as [|x l IH]; simpl; [constructor|].
  apply insertByTag_sorted, IH.
Qed.

Lemma insertByTag_filter t x l :
  List.filter (same_tag t) (insertByTag x l) = List.filter (same_tag t) (x :: l).
Proof.
  induction l as [|y l IH]; [reflexivity|].
  simpl insertByTag. destruct (Tag x <=? Tag y) eqn:E; [reflexivity|].
  apply Z.leb_gt in E. simpl in *. rewrite IH. unfold same_tag.
  destruct (Tag y =? t) eqn:Ey, (Tag x =? t) eqn:Ex; try reflexivity.
  apply Z.eqb_eq in Ey, Ex. lia.
Qed.

Lemma sortStableByTag_filter t l :
  List.filter (same_tag t) (sortStableByTag l) = List.filter (same_tag t) l.
Proof.
  induction l as [|x l IH]; [reflexivity|].
  simpl sortStableByTag. rewrite insertByTag_filter. simpl. rewrite IH. reflexivity.
Qed.

Lemma mergeInto_Tag cur feat : Tag (mergeInto cur feat) = Tag cur.
Proof. unfold mergeInto. destruct (has_bits (flags feat) ffGLOBAL); reflexivity. Qed.

Lemma fold_mergeInto_Tag rest : forall cur, Tag (fold_left mergeInto rest cur) = Tag cur.
Proof.
  induction rest as [|x rest IH]; intros cur; simpl; [reflexivity|].
  rewrite IH. apply mergeInto_Tag.
Qed.

Lemma filter_none_above t l :
  (forall x, In x l -> t < Tag x) -> List.filter (same_tag t) l = [].
Proof.
  induction l as [|y l IH]; intros Hall; simpl; [reflexivity|].
  unfold same_tag at 1.
  assert (t < Tag y) as Hy by (apply Hall; left; reflexivity).
  destruct (Tag y =? t) eqn:E; [apply Z.eqb_eq in E; lia|].
  apply IH. intros x Hx. apply Hall. right. exact Hx.
Qed.

(** The merge loop over a sorted slice: every record it leaves is the
    fold of the records of its tag, in their order. *)
Lemma mergeDuplicates_spec rest : forall cur r,
  tags_sorted (cur :: rest) ->
  In r (mergeDuplicates cur rest) ->
  (Tag r = Tag cur /\
   r = fold_left mergeInto (List.filter (same_tag (Tag r)) rest) cur) \/
  (Tag cur < Tag r /\
   foldDuplicates (List.filter (same_tag (Tag r)) rest) = Some r).
Proof.
  induction rest as [|feat rest IH]; intros cur r Hs Hr; simpl in Hr.
  - destruct Hr as [<-|[]]. left. split; reflexivity.
  - pose proof Hs as Hs0.
    apply StronglySorted_inv in Hs as [Hrest Hcur].
    apply Forall_cons in Hcur as [Hle Hcur].
    destruct (Tag feat =? Tag cur) eqn:E; simpl in Hr.
    + apply Z.eqb_eq in E.
      assert (tags_sorted (mergeInto cur feat :: rest)) as Hs'.
      { apply StronglySorted_inv in Hrest as [Hrest' Hfeat].
        constructor; [exact Hrest'|]. rewrite mergeInto_Tag.
        rewrite List.Forall_forall in Hcur |- *. intros z Hz. apply Hcur, Hz. }
      destruct (IH _ _ Hs' Hr) as [[Ht Hf]|[Ht Hf]]; rewrite mergeInto_Tag in Ht.
      * left. split; [exact Ht|]. simpl. unfold same_tag at 1.
        rewrite Ht in Hf |- *. rewrite E, Z.eqb_refl. simpl. exact Hf.
      * right. split; [exact Ht|]. simpl. unfold same_tag at 1.
        destruct (Tag feat =? Tag r) eqn:E'; [apply Z.eqb_eq in E'; lia|exact Hf].
    + apply Z.eqb_neq in E. destruct Hr as [<-|Hr].
      * left. split; [reflexivity|]. rewrite filter_none_above; [reflexivity|].
        intros x [<-|Hx]; [lia|].
        rewrite List.Forall_forall in Hcur. specialize (Hcur x Hx).
        apply StronglySorted_inv in Hrest as [_ Hfeat].
        rewrite List.Forall_forall in Hfeat. specialize (Hfeat x Hx). lia.
      * destruct (IH _ _ Hrest Hr) as [[Ht Hf]|[Ht Hf]].
        -- right. split; [lia|]. simpl. unfold same_tag at 1.
           rewrite Ht in Hf |- *. rewrite Z.eqb_refl. simpl. f_equal. symmetry. exact Hf.
        -- right. split; [lia|]. simpl. unfold same_tag at 1.
           destruct (Tag feat =? Tag r) eqn:E'; [apply Z.eqb_eq in E'; lia|exact Hf].
Qed.

Lemma mergeDuplicates_complete rest : forall cur x,
  In x (cur :: rest) -> exists r, In r (mergeDuplicates cur rest) /\ Tag r = Tag x.
Proof.
  induction rest as [|feat rest IH]; intros cur x Hx; simpl.
  - destruct Hx as [<-|[]]. exists cur. split; [left|]; reflexivity.
  - destruct (Tag feat =? Tag cur) eqn:E; simpl.
    + apply Z.eqb_eq in E.
      destruct Hx as [<-|[<-|Hx]].
      * destruct (IH (mergeInto cur feat) (mergeInto cur feat)) as (r & Hr & Ht);
          [left; reflexivity|].
        exists r. split; [exact Hr|]. rewrite Ht. apply mergeInto_Tag.
      * destruct (IH (mergeInto cur feat) (mergeInto cur feat)) as (r & Hr & Ht);
          [left; reflexivity|].
        exists r. split; [exact Hr|]. rewrite Ht, mergeInto_Tag. symmetry. exact E.
      * apply IH. right. exact Hx.
    + destruct Hx as [<-|Hx].
      * exists cur. split; [left|]; reflexivity.
      * destruct (IH feat x Hx) as (r & Hr & Ht). exists r. split; [right|]; assumption.
Qed.

Lemma mergeDuplicates_increasing rest : forall cur,
  tags_sorted (cur :: rest) ->
  StronglySorted (fun a b => Tag a < Tag b) (mergeDuplicates cur rest) /\
  Forall (fun r => Tag cur <= Tag r) (mergeDuplicates cur rest).
Proof.
  induction rest as [|feat rest IH]; intros cur Hs; simpl.
  - split; repeat constructor. lia.
  - apply StronglySorted_inv in Hs as [Hrest Hcur].
    apply Forall_cons in Hcur as [Hle Hcur].
    destruct (Tag feat =? Tag cur) eqn:E; simpl.
    + assert (tags_sorted (mergeInto cur feat :: rest)) as Hs'.
      { apply StronglySorted_inv in Hrest as [Hrest' Hfeat].
        constructor; [exact Hrest'|]. rewrite mergeInto_Tag. exact Hcur. }
      destruct (IH _ Hs') as [Hinc Hall]. rewrite mergeInto_Tag in Hall.
      split; assumption.
    + apply Z.eqb_neq in E. destruct (IH _ Hrest) as [Hinc Hall]. split.
      * constructor; [exact Hinc|].
        rewrite List.Forall_forall in Hall |- *. intros z Hz. specialize (Hall z Hz). lia.
      * constructor; [lia|].
        rewrite List.Forall_forall in Hall |- *. intros z Hz. specialize (Hall z Hz). lia.
Qed.

(** *** What one merge step does to each field *)

Lemma mergeInto_stage cur feat :
  stage (mergeInto cur feat) =
  (Z.min (fst (stage cur)) (fst (stage feat)), Z.min (snd (stage cur)) (snd (stage feat))).
Proof. unfold mergeInto. destruct (has_bits (flags feat) ffGLOBAL); reflexivity. Qed.

Lemma flag_bit x k : 0 <= k -> has_bits x (Z.shiftl 1 k) = Z.testbit x k.
Proof. apply has_bits_testbit. Qed.

Ltac bool_cases :=
  repeat match goal with
         | |- context [Z.testbit ?x ?k] => destruct (Z.testbit x k)
         end;
  reflexivity.

Lemma mergeInto_flag_bit cur feat k :
  0 <= k ->
  Z.testbit (flags (mergeInto cur feat)) k =
  if k =? 0 then Z.testbit (flags feat) 0
  else if k =? 1 then Z.testbit (flags cur) 1 || Z.testbit (flags feat) 1
  else Z.testbit (flags cur) k.
Proof.
  intros Hk. unfold mergeInto.
  assert (has_bits (flags feat) ffGLOBAL = Z.testbit (flags feat) 0) as Hgf
    by (apply (flag_bit _ 0); lia).
  assert (has_bits (flags cur) ffGLOBAL = Z.testbit (flags cur) 0) as Hgc
    by (apply (flag_bit _ 0); lia).
  rewrite Hgf, Hgc.
  change ffGLOBAL with (2 ^ 0). change ffHasFallback with (2 ^ 1).
  assert (k = 0 \/ k = 1 \/ 2 <= k) as Hcases by lia.
  destruct (Z.testbit (flags feat) 0) eqn:Ef;
    [|destruct (Z.testbit (flags cur) 0) eqn:Ec]; cbn [flags];
    rewrite ?Z.lor_spec, ?Z.lxor_spec, ?Z.land_spec, !Z.pow2_bits_eqb by lia;
    destruct Hcases as [->|[->|Hk2]];
    try (change (0 =? 0) with true; change (1 =? 0) with false; cbv iota;
         rewrite ?Ef, ?Ec; bool_cases);
    try (change (0 =? 1) with false; change (1 =? 1) with true;
         change (1 =? 0) with false; cbv iota; bool_cases);
    (assert ((0 =? k) = false) as E0k by (apply Z.eqb_neq; lia);
     assert ((1 =? k) = false) as E1k by (apply Z.eqb_neq; lia);
     assert ((k =? 0) = false) as Ek0 by (apply Z.eqb_neq; lia);
     assert ((k =? 1) = false) as Ek1 by (apply Z.eqb_neq; lia);
     rewrite ?E0k, ?E1k, ?Ek0, ?Ek1; bool_cases).
Qed.

Lemma mergeInto_global cur feat : is_global (mergeInto cur feat) = is_global feat.
Proof.
  unfold is_global. rewrite !(flag_bit _ 0) by lia.
  rewrite mergeInto_flag_bit by lia. reflexivity.
Qed.

Lemma mergeInto_fallback cur feat :
  has_bits (flags (mergeInto cur feat)) ffHasFallback =
  has_bits (flags cur) ffHasFallback || has_bits (flags feat) ffHasFallback.
Proof.
  rewrite !(flag_bit _ 1) by lia. rewrite mergeInto_flag_bit by lia. reflexivity.
Qed.

Lemma mergeInto_values_global cur feat :
  is_global feat = true ->
  maxValue (mergeInto cur feat) = maxValue feat /\
  defaultValue (mergeInto cur feat) = defaultValue feat.
Proof. unfold is_global, mergeInto. intros ->. split; reflexivity. Qed.

Lemma mergeInto_values_local cur feat :
  is_global feat = false ->
  maxValue (mergeInto cur feat) = Z.max (maxValue cur) (maxValue feat) /\
  defaultValue (mergeInto cur feat) = defaultValue cur.
Proof. unfold is_global, mergeInto. intros ->. split; reflexivity. Qed.

(** *** What the fold over the duplicates of a tag adds up to *)

Lemma is_min_step m a b l : is_min m (Z.min a b :: l) -> is_min m (a :: b :: l).
Proof.
  intros [Hin Hle]. split.
  - destruct Hin as [<-|Hin]; [|right; right; exact Hin].
    destruct (Z.min_spec a b) as [[_ ->]|[_ ->]]; [left|right; left]; reflexivity.
  - intros v Hv. assert (m <= Z.min a b) as Hm by (apply Hle; left; reflexivity).
    destruct Hv as [<-|[<-|Hv]]; [lia|lia|apply Hle; right; exact Hv].
Qed.

Lemma is_max_step m a b l : is_max m (Z.max a b :: l) -> is_max m (a :: b :: l).
Proof.
  intros [Hin Hle]. split.
  - destruct Hin as [<-|Hin]; [|right; right; exact Hin].
    destruct (Z.max_spec a b) as [[_ ->]|[_ ->]]; [right; left|left]; reflexivity.
  - intros v Hv. assert (Z.max a b <= m) as Hm by (apply Hle; left; reflexivity).
    destruct Hv as [<-|[<-|Hv]]; [lia|lia|apply Hle; right; exact Hv].
Qed.

Lemma fold_min (val : featureInfo -> Z) :
  (forall c f, val (mergeInto c f) = Z.min (val c) (val f)) ->
  forall rest cur,
    is_min (val (fold_left mergeInto rest cur)) (val cur :: map val rest).
Proof.
  intros Hstep. induction rest as [|x rest IH]; intros cur; simpl.
  - split; [left; reflexivity|]. intros v [<-|[]]. lia.
  - apply is_min_step. rewrite <- Hstep. apply IH.
Qed.

Lemma fold_max_local rest : forall cur,
  forallb (fun x => negb (is_global x)) rest = true ->
  is_max (maxValue (fold_left mergeInto rest cur)) (maxValue cur :: map maxValue rest) /\
  defaultValue (fold_left mergeInto rest cur) = defaultValue cur.
Proof.
  induction rest as [|x rest IH]; intros cur Hall; simpl.
  - split; [|reflexivity]. split; [left; reflexivity|]. intros v [<-|[]]. lia.
  - simpl in Hall. apply andb_true_iff in Hall as [Hx Hall].
    apply negb_true_iff in Hx.
    destruct (mergeInto_values_local cur x Hx) as [Hm Hd].
    destruct (IH (mergeInto cur x) Hall) as [IHm IHd].
    split; [|rewrite IHd; exact Hd].
    apply is_max_step. rewrite <- Hm. exact IHm.
Qed.

Lemma last_indep {A : Type} (l : list A) (d d' : A) :
  l <> [] -> List.last l d = List.last l d'.
Proof.
  induction l as [|a l IH]; intros Hne; [contradiction|].
  destruct l as [|b l]; [reflexivity|].
  change (List.last (b :: l) d = List.last (b :: l) d'). apply IH. discriminate.
Qed.

Lemma last_cons {A : Type} (x : A) (l : list A) (d : A) :
  List.last (x :: l) d = List.last l x.
Proof.
  destruct l as [|b l]; [reflexivity|].
  change (List.last (b :: l) d = List.last (b :: l) x). apply last_indep. discriminate.
Qed.

Lemma fold_global rest : forall cur,
  is_global (fold_left mergeInto rest cur) = is_global (List.last rest cur).
Proof.
  induction rest as [|x rest IH]; intros cur; [reflexivity|].
  rewrite last_cons. simpl. rewrite IH.
  destruct rest as [|y rest]; [apply mergeInto_global|].
  f_equal. apply last_indep. discriminate.
Qed.

Lemma fold_values_global rest : forall cur,
  is_global (List.last rest cur) = true ->
  maxValue (fold_left mergeInto rest cur) = maxValue (List.last rest cur) /\
  defaultValue (fold_left mergeInto rest cur) = defaultValue (List.last rest cur).
Proof.
  induction rest as [|x rest IH]; intros cur Hg; [split; reflexivity|].
  rewrite last_cons in Hg |- *. simpl.
  destruct rest as [|y rest].
  - simpl in *. apply mergeInto_values_global, Hg.
  - rewrite (last_indep (y :: rest) x (mergeInto cur x)) in Hg |- * by discriminate.
    apply IH, Hg.
Qed.

Lemma fold_fallback rest : forall cur,
  has_bits (flags (fold_left mergeInto rest cur)) ffHasFallback =
  has_bits (flags cur) ffHasFallback
  || existsb (fun x => has_bits (flags x) ffHasFallback) rest.
Proof.
  induction rest as [|x rest IH]; intros cur; simpl.
  - rewrite orb_false_r. reflexivity.
  - rewrite IH, mergeInto_fallback, orb_assoc. reflexivity.
Qed.

Lemma fold_other_flags rest k : forall cur,
  2 <= k -> Z.testbit (flags (fold_left mergeInto rest cur)) k = Z.testbit (flags cur) k.
Proof.
  induction rest as [|x rest IH]; intros cur Hk; simpl; [reflexivity|].
  rewrite IH, mergeInto_flag_bit by lia.
  assert ((k =? 0) = false) as -> by (apply Z.eqb_neq; lia).
  assert ((k =? 1) = false) as -> by (apply Z.eqb_neq; lia).
  reflexivity.
Qed.

Lemma fold_merged_from first rest :
  merged_from (fold_left mergeInto rest first) (first :: rest).
Proof.
  exists first, rest. split; [reflexivity|]. split; [reflexivity|].
  split; [apply fold_mergeInto_Tag|].
  split; [apply (fold_min (fun x => fst (stage x)));
          intros c f; rewrite mergeInto_stage; reflexivity|].
  split; [apply (fold_min (fun x => snd (stage x)));
          intros c f; rewrite mergeInto_stage; reflexivity|].
  split; [apply fold_fallback|].
  split; [apply fold_global|].
  split; [intros k Hk; apply fold_other_flags, Hk|].
  split; [apply fold_max_local|apply fold_values_global].
Qed.

(** C4 (as amended). [compile] sorts the feature records stably by tag
    and merges the records of each tag, in their order, into one: its
    stages are the minima per table, HasFallback is OR-ed over the
    duplicates and the other flags are those of the first, GLOBAL is set
    exactly when the last duplicate is global, and maxValue is the
    maximum over the duplicates when none after the first is global,
    while a global last duplicate overrides maxValue and defaultValue. *)
Theorem C4_sort_and_merge (featureInfos : list featureInfo) :
  (Permutation (sortStableByTag featureInfos) featureInfos /\
   tags_sorted (sortStableByTag featureInfos) /\
   forall t, List.filter (same_tag t) (sortStableByTag featureInfos)
             = List.filter (same_tag t) featureInfos) /\
  StronglySorted (fun a b => Tag a < Tag b) (mergeFeatureInfos featureInfos) /\
  (forall x, In x featureInfos ->
     exists r, In r (mergeFeatureInfos featureInfos) /\ Tag r = Tag x) /\
  (forall r, In r (mergeFeatureInfos featureInfos) ->
     merged_from r (List.filter (same_tag (Tag r)) featureInfos)).
Proof.
  split; [split; [apply sortStableByTag_perm|split;
          [apply sortStableByTag_sorted|intros t; apply sortStableByTag_filter]]|].
  pose proof (sortStableByTag_sorted featureInfos) as Hs.
  pose proof (sortStableByTag_perm featureInfos) as Hp.
  pose proof (fun t => sortStableByTag_filter t featureInfos) as Hf.
  unfold mergeFeatureInfos.
  destruct (sortStableByTag featureInfos) as [|first rest] eqn:E.
  - split; [constructor|]. split.
    + intros x Hx. apply (Permutation_in _ (Permutation_sym Hp)) in Hx. destruct Hx.
    + intros r [].
  - split; [apply mergeDuplicates_increasing, Hs|]. split.
    + intros x Hx. apply mergeDuplicates_complete.
      apply (Permutation_in _ (Permutation_sym Hp)), Hx.
    + intros r Hr. rewrite <- Hf.
      destruct (mergeDuplicates_spec rest first r Hs Hr) as [[Ht Hfold]|[Ht Hfold]].
      * simpl. unfold same_tag at 1. rewrite Ht, Z.eqb_refl.
        rewrite Ht in Hfold. rewrite Hfold at 1. apply fold_merged_from.
      * simpl. unfold same_tag at 1.
        destruct (Tag first =? Tag r) eqn:E'; [apply Z.eqb_eq in E'; lia|].
        destruct (List.filter (same_tag (Tag r)) rest) as [|f0 more]; [discriminate|].
        simpl in Hfold. injection Hfold as <-. apply fold_merged_from.
Qed.

End MergeFacts.

(** *** The merge on sample records *)

(** C4, the claim as stated, fails: the tag 'aalt' is asked first for a
    range with value 5 (not global), then globally with value 1. The
    merged record is global although one duplicate is not, and its
    maxValue is 1, not the maximum 5. The first record's ManualZWJ flag
    is kept, the second's Random flag is not OR-ed in. *)
Lemma C4_counterexample :
  exists r,
    mergeFeatureInfos [aaltRange; aaltGlobal] = [r] /\
    is_global aaltRange = false /\
    is_global r = true /\
    maxValue r = 1 /\ Z.max (maxValue aaltRange) (maxValue aaltGlobal) = 5 /\
    flags r <> Z.lor (flags aaltRange) (flags aaltGlobal).
Proof.
  eexists. split; [reflexivity|]. repeat split; try reflexivity. discriminate.
Qed.

Lemma C4_witness :
  In (mergeInto aaltRange aaltGlobal) (mergeFeatureInfos [ligaGlobal; aaltRange; aaltGlobal]) /\
  merged_from (mergeInto aaltRange aaltGlobal)
    (List.filter (same_tag (Tag (mergeInto aaltRange aaltGlobal)))
       [ligaGlobal; aaltRange; aaltGlobal]).
Proof.
  assert (In (mergeInto aaltRange aaltGlobal)
            (mergeFeatureInfos [ligaGlobal; aaltRange; aaltGlobal])) as Hin
    by (left; reflexivity).
  split; [exact Hin|].
  exact (proj2 (proj2 (proj2 (C4_sort_and_merge [ligaGlobal; aaltRange; aaltGlobal])))
           _ Hin).
Defined.

Example merge_three_records :
  map (fun r => (Tag r, maxValue r, flags r, stage r))
      (mergeFeatureInfos [ligaGlobal; aaltRange; aaltGlobal])
  = [(0x61616C74, 1, Z.lor ffGLOBAL ffManualZWJ, (1, 0));
     (0x6C696761, 1, ffGLOBAL, (2, 0))].
Proof. reflexivity. Qed.

(** ** Allocation of mask bits *)

Lemma range_mask_bit w s k :
  0 <= w -> 0 <= s -> 0 <= k ->
  Z.testbit (Z.shiftl (Z.ones w) s) k = (s <=? k) && (k <? s + w).
Proof.
  intros Hw Hs Hk. rewrite Z.shiftl_spec, Z.testbit_ones by lia.
  destruct (0 <=? k - s) eqn:E1, (k - s <? w) eqn:E2, (s <=? k) eqn:E3,
    (k <? s + w) eqn:E4; try reflexivity;
    rewrite ?Z.leb_le, ?Z.leb_gt, ?Z.ltb_lt, ?Z.ltb_ge in *; lia.
Qed.

Lemma range_mask_source nb bn :
  0 <= nb -> 0 <= bn ->
  Z.shiftl 1 (nb + bn) - Z.shiftl 1 nb = Z.shiftl (Z.ones bn) nb.
Proof.
  intros Hnb Hbn. rewrite !Z.shiftl_mul_pow2, Z.ones_equiv, Z.pow_add_r by lia.
  unfold Z.pred. ring.
Qed.

Lemma range_masks_disjoint w1 s1 w2 s2 :
  0 <= w1 -> 0 <= s1 -> 0 <= w2 -> 0 <= s2 ->
  s1 + w1 <= s2 ->
  Z.land (Z.shiftl (Z.ones w1) s1) (Z.shiftl (Z.ones w2) s2) = 0.
Proof.
  intros Hw1 Hs1 Hw2 Hs2 Hle. apply Z.bits_inj'. intros k Hk.
  rewrite Z.land_spec, !range_mask_bit, Z.bits_0 by lia.
  destruct (s1 <=? k) eqn:E1, (k <? s1 + w1) eqn:E2, (s2 <=? k) eqn:E3,
    (k <? s2 + w2) eqn:E4; try reflexivity;
    rewrite ?Z.leb_le, ?Z.leb_gt, ?Z.ltb_lt, ?Z.ltb_ge in *; lia.
Qed.

Lemma globalBitMask_range : globalBitMask = Z.shiftl (Z.ones 1) globalBitShift.
Proof. reflexivity. Qed.

Lemma included_lor_l x m y : included x m -> included x (Z.lor m y).
Proof.
  unfold included. intros Hx. apply Z.bits_inj'. intros k Hk.
  apply (f_equal (fun z => Z.testbit z k)) in Hx.
  rewrite Z.land_spec in Hx. rewrite Z.land_spec, Z.lor_spec.
  destruct (Z.testbit x k), (Z.testbit m k), (Z.testbit y k); simpl in *; congruence.
Qed.

Lemma included_lor_r m y : included y (Z.lor m y).
Proof.
  unfold included. apply Z.bits_inj'. intros k Hk.
  rewrite Z.land_spec, Z.lor_spec.
  destruct (Z.testbit y k), (Z.testbit m k); reflexivity.
Qed.

Lemma included_global_bit x m :
  Z.testbit m globalBitShift = true -> included (Z.land x globalBitMask) m.
Proof.
  unfold included. intros Hm. apply Z.bits_inj'. intros k Hk.
  rewrite !Z.land_spec. rewrite globalBitMask_range, range_mask_bit by (unfold globalBitShift; lia).
  destruct (Z.eq_dec k globalBitShift) as [->|Hne].
  - rewrite Hm, andb_true_r. reflexivity.
  - assert ((globalBitShift <=? k) && (k <? globalBitShift + 1) = false) as ->.
    { destruct (globalBitShift <=? k) eqn:E1, (k <? globalBitShift + 1) eqn:E2;
        try reflexivity; rewrite ?Z.leb_le, ?Z.ltb_lt in *; lia. }
    rewrite andb_false_r. reflexivity.
Qed.

Section AllocationFacts.
Variable requiredFeatureTag : Z * Z.
Variable findFeatureForLang : Z -> Z -> Z.
Variable findFeature : Z -> Z -> Z.

(** The three ways a turn of the loop can go. *)
Lemma allocate_cases st info :
  let st' := allocate requiredFeatureTag findFeatureForLang findFeature st info in
  (nextBit st' = nextBit st /\
   globalMask st' = globalMask st /\
   features st' = features st) \/
  (is_global info = true /\ maxValue info = 1 /\
   nextBit st' = nextBit st /\
   globalMask st' = globalMask st /\
   exists f, features st' = features st ++ [f] /\
             fm_tag f = Tag info /\ fm_shift f = globalBitShift /\
             fm_mask f = globalBitMask) \/
  (~ (is_global info = true /\ maxValue info = 1) /\
   exists bn f,
     0 <= bn <= otMapMaxBits /\ nextBit st + bn < globalBitShift /\
     nextBit st' = nextBit st + bn /\
     features st' = features st ++ [f] /\
     fm_tag f = Tag info /\ fm_shift f = nextBit st /\
     fm_mask f = Z.shiftl 1 (nextBit st + bn) - Z.shiftl 1 (nextBit st) /\
     globalMask st' = Z.lor (globalMask st) (contribution info f)).
Proof.
  intros st'. subst st'. unfold allocate, is_global, contribution.
  destruct (has_bits (flags info) ffGLOBAL && (maxValue info =? 1)) eqn:Eglobal.
  - (* the global bit *)
    apply andb_true_iff in Eglobal as [Eg E1]. apply Z.eqb_eq in E1.
    destruct ((maxValue info =? 0) || (nextBit st + 0 >=? globalBitShift));
      [left; auto|].
    match goal with
    | |- context [let '(_, _) := ?p in _] => destruct p as [featureIndex found]
    end.
    destruct (negb found && negb (has_bits (flags info) ffHasFallback));
      [left; auto|].
    right. left. repeat (split; [assumption || reflexivity|]).
    eexists. repeat split.
  - (* bits of its own *)
    assert (~ (has_bits (flags info) ffGLOBAL = true /\ maxValue info = 1)) as Hown.
    { intros [Eg E1]. rewrite Eg in Eglobal. apply Z.eqb_eq in E1.
      rewrite E1 in Eglobal. discriminate. }
    set (bn := Z.min otMapMaxBits (bitStorage (maxValue info))).
    assert (0 <= bn <= otMapMaxBits) as Hbn.
    { unfold bn, bitStorage, otMapMaxBits.
      pose proof (Z.log2_up_nonneg (maxValue info + 1)). lia. }
    destruct ((maxValue info =? 0) || (nextBit st + bn >=? globalBitShift)) eqn:Eskip;
      [left; auto|].
    apply orb_false_iff in Eskip as [_ Eroom].
    rewrite Z.geb_leb in Eroom. apply Z.leb_gt in Eroom.
    match goal with
    | |- context [let '(_, _) := ?p in _] => destruct p as [featureIndex found]
    end.
    destruct (negb found && negb (has_bits (flags info) ffHasFallback));
      [left; auto|].
    right. right. split; [exact Hown|].
    eexists bn, _. repeat split; try reflexivity; lia.
Qed.

Lemma global_field_uses_global_bit f :
  fm_mask f = globalBitMask -> uses_global_bit f = true.
Proof. unfold uses_global_bit. intros ->. reflexivity. Qed.

Lemma own_field_below_global_bit f w nb :
  0 <= w -> 0 <= fm_shift f -> fm_shift f + w <= nb -> nb <= globalBitShift ->
  fm_mask f = Z.shiftl (Z.ones w) (fm_shift f) ->
  uses_global_bit f = false.
Proof.
  intros Hw Hs Hle Hnb Hm. unfold uses_global_bit. rewrite Hm.
  rewrite range_mask_bit by (unfold globalBitShift; lia).
  destruct (fm_shift f <=? globalBitShift) eqn:E1,
    (globalBitShift <? fm_shift f + w) eqn:E2; try reflexivity.
  apply Z.ltb_lt in E2. lia.
Qed.

Lemma own_field_misses_global_bit f w nb :
  0 <= w -> 0 <= fm_shift f -> fm_shift f + w <= nb -> nb <= globalBitShift ->
  fm_mask f = Z.shiftl (Z.ones w) (fm_shift f) ->
  Z.land (fm_mask f) globalBitMask = 0.
Proof.
  intros Hw Hs Hle Hnb Hm. rewrite Hm, globalBitMask_range.
  apply range_masks_disjoint; unfold globalBitShift in *; lia.
Qed.

Lemma alloc_inv_step done st info :
  alloc_inv done st ->
  alloc_inv (done ++ [info])
    (allocate requiredFeatureTag findFeatureForLang findFeature st info).
Proof.
  intros (Hnb & Hgm & Hfield & Hfrom & Hdisj).
  assert (forall f, In f (features st) -> uses_global_bit f = false ->
          exists w, 0 <= w <= otMapMaxBits /\ 4 <= fm_shift f /\
                    fm_shift f + w <= nextBit st /\
                    fm_mask f = Z.shiftl (Z.ones w) (fm_shift f)) as Hown_old.
  { intros f Hf Hu. destruct (Hfield f Hf) as [[_ Hm]|Hw]; [|exact Hw].
    rewrite (global_field_uses_global_bit f Hm) in Hu. discriminate. }
  assert (forall x, In x done -> In x (done ++ [info])) as Hdone
    by (intros x Hx; apply in_or_app; left; exact Hx).
  destruct (allocate_cases st info)
    as [(E1 & E2 & E3)|[(Hg & Hm & E1 & E2 & fn & E3 & Ht & Hs & Hk)
       |(Hown & bn & fn & Hbn & Hroom & E1 & E3 & Ht & Hs & Hk & E2)]];
    unfold alloc_inv; rewrite E1, E2, E3.
  - (* nothing allocated *)
    repeat split; try assumption; try lia.
    intros f Hf. destruct (Hfrom f Hf) as (x & Hx & Hrest). exists x. auto.
  - (* the global bit *)
    split; [exact Hnb|]. split; [exact Hgm|]. split; [|split].
    + intros f Hf. apply in_app_or in Hf as [Hf|[<-|[]]]; [apply Hfield, Hf|].
      left. split; assumption.
    + intros f Hf. apply in_app_or in Hf as [Hf|[<-|[]]].
      * destruct (Hfrom f Hf) as (x & Hx & Hrest). exists x. auto.
      * exists info. split; [apply in_or_app; right; left; reflexivity|].
        split; [symmetry; exact Ht|]. split.
        -- rewrite (global_field_uses_global_bit fn Hk). tauto.
        -- unfold contribution. rewrite Hk. apply included_global_bit, Hgm.
    + intros i j f g Hij Hi Hj Hu.
      apply lookup_snoc_Some in Hi as [[Hil Hi]|[-> <-]];
        [|rewrite (global_field_uses_global_bit fn Hk) in Hu; discriminate].
      apply lookup_snoc_Some in Hj as [[Hjl Hj]|[-> <-]];
        [apply (Hdisj i j); assumption|].
      destruct (Hown_old f) as (w & Hw & Hs4 & Hle & Hmask);
        [apply list_elem_of_In, list_elem_of_lookup; eauto|exact Hu|].
      rewrite Hk. apply (own_field_misses_global_bit f w (nextBit st)); lia.
  - (* a field of its own *)
    assert (fm_mask fn = Z.shiftl (Z.ones bn) (fm_shift fn)) as Hrange
      by (rewrite Hk, Hs; apply range_mask_source; lia).
    split; [lia|]. split; [rewrite Z.lor_spec, Hgm; reflexivity|]. split; [|split].
    + intros f Hf. apply in_app_or in Hf as [Hf|[<-|[]]].
      * destruct (Hfield f Hf) as [Hglob|(w & Hw & Hs4 & Hle & Hmask)]; [left; exact Hglob|].
        right. exists w. repeat split; try assumption; lia.
      * right. exists bn. repeat split; try assumption; lia.
    + intros f Hf. apply in_app_or in Hf as [Hf|[<-|[]]].
      * destruct (Hfrom f Hf) as (x & Hx & Htag & Hiff & Hinc). exists x.
        split; [apply Hdone, Hx|]. split; [exact Htag|]. split; [exact Hiff|].
        apply included_lor_l, Hinc.
      * exists info. split; [apply in_or_app; right; left; reflexivity|].
        split; [symmetry; exact Ht|]. split.
        -- rewrite (own_field_below_global_bit fn bn (nextBit st + bn)) by lia.
           split; [discriminate|]. intros Hgl. exfalso. apply Hown, Hgl.
        -- apply included_lor_r.
    + intros i j f g Hij Hi Hj Hu.
      apply lookup_snoc_Some in Hi as [[Hil Hi]|[-> <-]];
        apply lookup_snoc_Some in Hj as [[Hjl Hj]|[-> <-]].
      * apply (Hdisj i j); assumption.
      * destruct (Hown_old f) as (w & Hw & Hs4 & Hle & Hmask);
          [apply list_elem_of_In, list_elem_of_lookup; eauto|exact Hu|].
        rewrite Hmask, Hrange. apply range_masks_disjoint; lia.
      * assert (In g (features st)) as Hg
          by (apply list_elem_of_In, list_elem_of_lookup; eauto).
        destruct (Hfield g Hg) as [[_ Hgm']|(w & Hw & Hs4 & Hle & Hmask)].
        -- rewrite Hgm'. apply (own_field_misses_global_bit fn bn (nextBit st + bn)); lia.
        -- rewrite Z.land_comm, Hmask, Hrange. apply range_masks_disjoint; lia.
      * contradiction.
Qed.

Lemma alloc_inv_fold infos : forall done st,
  alloc_inv done st ->
  alloc_inv (done ++ infos)
    (fold_left (allocate requiredFeatureTag findFeatureForLang findFeature) infos st).
Proof.
  induction infos as [|info infos IH]; intros done st Hinv; simpl.
  - rewrite app_nil_r. exact Hinv.
  - replace (done ++ info :: infos) with ((done ++ [info]) ++ infos)
      by (rewrite <- app_assoc; reflexivity).
    apply IH, alloc_inv_step, Hinv.
Qed.

Lemma alloc_inv_start :
  alloc_inv [] (mkAllocation (OnesCount32 glyphFlagDefined + 1) globalBitMask [] (0, 0)).
Proof.
  unfold alloc_inv. simpl.
  split; [vm_compute; split; [discriminate|reflexivity]|].
  split; [reflexivity|].
  split; [intros f []|]. split; [intros f []|].
  intros i j f g _ Hi. rewrite lookup_nil in Hi. discriminate.
Qed.

(** C5. After the bit allocation of [compile]: every feature's mask is a
    field of at most 8 bits at its shift; the global bit, bit 31, is in
    [globalMask] and is the mask of exactly the features whose merged
    record is global with maxValue 1; a feature with bits of its own
    shares no mask bit with any other feature; and every feature's
    default-value contribution lies in [globalMask]. *)
Theorem C5_mask_bits_do_not_overlap (featureInfos : list featureInfo) :
  let m := compile requiredFeatureTag findFeatureForLang findFeature featureInfos in
  (forall f, In f (features m) -> exists w, field_of f w) /\
  Z.testbit (globalMask m) globalBitShift = true /\
  (forall f, In f (features m) ->
     exists info, In info (mergeFeatureInfos featureInfos) /\ Tag info = fm_tag f /\
       (uses_global_bit f = true <-> is_global info = true /\ maxValue info = 1) /\
       (uses_global_bit f = true ->
          fm_mask f = globalBitMask /\ fm_shift f = globalBitShift) /\
       included (contribution info f) (globalMask m)) /\
  (forall i j f g, i <> j ->
     features m !! i = Some f -> features m !! j = Some g ->
     uses_global_bit f = false -> Z.land (fm_mask f) (fm_mask g) = 0).
Proof.
  intros m.
  pose proof (alloc_inv_fold (mergeFeatureInfos featureInfos) [] _ alloc_inv_start)
    as (Hnb & Hgm & Hfield & Hfrom & Hdisj).
  fold (compile requiredFeatureTag findFeatureForLang findFeature featureInfos) in *.
  fold m in Hnb, Hgm, Hfield, Hfrom, Hdisj. simpl in Hfrom.
  split; [|split; [exact Hgm|split; [|exact Hdisj]]].
  - intros f Hf. destruct (Hfield f Hf) as [[Hs Hm]|(w & Hw & Hs4 & Hle & Hmask)].
    + exists 1. unfold field_of. rewrite Hs, Hm.
      unfold otMapMaxBits, globalBitShift. repeat split; lia.
    + exists w. unfold field_of. repeat split; try assumption; lia.
  - intros f Hf. destruct (Hfrom f Hf) as (info & Hin & Htag & Hiff & Hinc).
    exists info. split; [exact Hin|]. split; [exact Htag|]. split; [exact Hiff|].
    split; [|exact Hinc].
    intros Hu. destruct (Hfield f Hf) as [[Hs Hm]|(w & Hw & Hs4 & Hle & Hmask)];
      [split; assumption|].
    rewrite (own_field_below_global_bit f w (nextBit m)) in Hu by lia. discriminate.
Qed.

End AllocationFacts.

(** ** Mark attachment *)





Lemma glyph_core_Glyph g : Glyph (glyph_core g) = Glyph g.
Proof. reflexivity. Qed.


Section GposFacts.
Context `{PackageConstants} `{BufferOps} `{Float32}.


(** Without an anchor of the mark's class the subtable does not apply and
    the buffer is left alone. *)
Lemma applyGPOSMarks_no_anchor font buffer marks markIndex glyphIndex anchors glyphPos
    markClass markAnchor :
  at_index (MarkRecords marks) markIndex = Some markClass ->
  at_index (MarkAnchors marks) markIndex = Some markAnchor ->
  matrixAnchor anchors glyphIndex markClass = None ->
  applyGPOSMarks font buffer marks markIndex glyphIndex anchors glyphPos
    = Some (false, buffer).
Proof.
  intros Hclass Hmark Hanchor. unfold applyGPOSMarks.
  rewrite Hclass, Hmark. simpl. rewrite Hanchor. reflexivity.
Qed.

End GposFacts.

(** *** Mark attachment on sample buffers *)

(** Anchors at integral coordinates, where the float operations are
    exact: the floats are the integers themselves. *)
#[export] Instance integralFloats : Float32 := {|
  float32 := Z;
  float_sub := Z.sub;
  float_add := Z.add;
  float_of_position := fun z => z;
  roundf := fun z => z
|}.

(** A font at scale one with no ppem and no variations. *)
Definition unitFont : GposFont :=
  mkGposFont (fun v => v) (fun v => v) (0, 0) (fun _ _ => (0, 0, false)) 0
    (fun _ => 0) (fun _ => 0).

(** THAI CHARACTER KO KAI and SARA II above it: the base has advance 600,
    the cursor is on the mark. *)
Definition thaiBuffer : Buffer :=
  mkBuffer [mkGlyphInfo 0 0x0E01 10 0 0 0 0 0 0 0;
            mkGlyphInfo 0 0x0E35 20 0 0 0 0 0 0 0]
           [mkGlyphPosition 600 0 0 0 0 0; mkGlyphPosition 0 0 0 0 0 0]
           1 0 0 0 0 0.

Definition thaiMarks : MarkArray :=
  mkMarkArray [0] [Some (AnchorFormat1 (-100) 500)].

Definition thaiBaseAnchors : AnchorMatrix :=
  mkAnchorMatrix (fun base class =>
    if (base =? 0) && (class =? 0) then Some (AnchorFormat1 300 520) else None).




(** The Thai mark: offset (300 - -100, 520 - 500), attached one glyph
    back. *)
Example thai_mark_position :
  match applyGPOSMarks unitFont thaiBuffer thaiMarks 0 0 thaiBaseAnchors 0 with
  | Some (true, b) =>
      Pos b = [mkGlyphPosition 600 0 0 0 0 0;
               mkGlyphPosition 0 400 0 20 (-1) attachTypeMark] /\
      idx b = 2
  | _ => False
  end.
Proof. vm_compute. split; reflexivity. Qed.

(** ** The Khmer reordering *)

Ltac nat_bools :=
  repeat match goal with
  | |- context [(?a <? ?b)%nat] => destruct (Nat.ltb_spec a b)
  | |- context [(?a <=? ?b)%nat] => destruct (Nat.leb_spec a b)
  end; simpl.

Lemma lookup_map {A B : Type} (f : A -> B) (l : list A) (k : nat) :
  map f l !! k = f <$> l !! k.
Proof. revert k. induction l as [|x l IH]; intros [|k]; simpl; auto. Qed.







Section KhmerFacts.
Context `{PackageConstants} `{BufferOps}.


Lemma mergeClusters_lookup_core (b : Buffer) (s e k : nat) :
  glyph_core <$> Info (mergeClusters b s e) !! k = glyph_core <$> Info b !! k.
Proof. rewrite <- !lookup_map, mergeClusters_core. reflexivity. Qed.






End KhmerFacts.

(** *** Khmer syllables *)

(** A plan with one mask bit for each of the five basic features. *)
Definition khmerMasks : khmerShapePlan :=
  mkKhmerShapePlan (fun feature =>
    match feature with
    | 0%nat => 0x10 (* pref *)
    | 1%nat => 0x20 (* blwf *)
    | 2%nat => 0x40 (* abvf *)
    | 3%nat => 0x80 (* pstf *)
    | 4%nat => 0x100 (* cfar *)
    | _ => 0
    end).

(** A glyph of a Khmer syllable: cluster, code point, mask, category. *)
Definition khmerGlyph (cluster codepoint mask category : Z) : GlyphInfo :=
  mkGlyphInfo cluster codepoint 0 mask 0 0 0 0 category 0.

(** U+1780 KA, U+17D2 COENG, U+179A RO. *)
Definition kroBuffer : Buffer :=
  mkBuffer [khmerGlyph 0 0x1780 0 1; khmerGlyph 1 0x17D2 0 4; khmerGlyph 2 0x179A 0 15]
           [] 0 0 0 0 0 0.


(** U+1780 KA, U+17C1 VOWEL SIGN E, once the post-base masks are set. *)
Definition keMasked : Buffer :=
  mkBuffer [khmerGlyph 0 0x1780 0 1; khmerGlyph 1 0x17C1 0xE0 22] [] 0 0 0 0 0 0.

(** U+1784 NGO, COENG, RO, COENG, U+1782 KO. *)
Definition ngroBuffer : Buffer :=
  mkBuffer [khmerGlyph 0 0x1784 0 1; khmerGlyph 1 0x17D2 0 4; khmerGlyph 2 0x179A 0 15;
            khmerGlyph 3 0x17D2 0 4; khmerGlyph 4 0x1782 0 1]
           [] 0 0 0 0 0 0.

(** KA and three COENG, RO pairs. *)
Definition threePairs : Buffer :=
  mkBuffer [khmerGlyph 0 0x1780 0 1;
            khmerGlyph 1 0x17D2 0 4; khmerGlyph 2 0x179A 0 15;
            khmerGlyph 3 0x17D2 0 4; khmerGlyph 4 0x179A 0 15;
            khmerGlyph 5 0x17D2 0 4; khmerGlyph 6 0x179A 0 15]
           [] 0 0 0 0 0 0.


(** Khmer KA, COENG, RO: the pair moves to the start of the syllable and
    carries 'pref'; the three glyphs are one cluster. *)
Example kro_reordered :
  Info <$> reorderConsonantSyllable khmerMasks kroBuffer 0 3 =
  Some [khmerGlyph 0 0x17D2 0xF0 4; khmerGlyph 0 0x179A 0xF0 15; khmerGlyph 0 0x1780 0 1].
Proof. vm_compute. reflexivity. Qed.

(** NGO, COENG, RO, COENG, KO: what follows the moved pair carries
    'cfar'. *)
Example ngro_reordered :
  Info <$> reorderConsonantSyllable khmerMasks ngroBuffer 0 5 =
  Some [khmerGlyph 0 0x17D2 0xF0 4; khmerGlyph 0 0x179A 0xF0 15; khmerGlyph 0 0x1784 0 1;
        khmerGlyph 3 0x17D2 0x1E0 4; khmerGlyph 4 0x1782 0x1E0 1].
Proof. vm_compute. reflexivity. Qed.

(** KA, E: the left matra moves before the consonant. *)
Example ke_reordered :
  (fun st => Info (fst st)) <$> reorderStep khmerMasks 0 2 1 (keMasked, 0) =
  Some [khmerGlyph 0 0x17C1 0xE0 22; khmerGlyph 0 0x1780 0 1].
Proof. vm_compute. reflexivity. Qed.

(** KA and three COENG, RO pairs: the counter is set back to 2 after
    each move, so every pair is moved in its turn; the last one met
    stands first. *)
Example three_pairs_reordered :
  Info <$> reorderConsonantSyllable khmerMasks threePairs 0 7 =
  Some [khmerGlyph 0 0x17D2 0x1F0 4; khmerGlyph 0 0x179A 0x1F0 15;
        khmerGlyph 0 0x17D2 0x1F0 4; khmerGlyph 0 0x179A 0x1F0 15;
        khmerGlyph 0 0x17D2 0xF0 4; khmerGlyph 0 0x179A 0xF0 15;
        khmerGlyph 0 0x1780 0 1].
Proof. vm_compute. reflexivity. Qed.

(** * Part II, continued: further properties *)

(** ** Coverage digests *)

Section CoverageFacts.
Import SetDigest.

Lemma digest_mayHave_words sd g : digest_mayHave sd g = true <-> all_words_have sd g.
Proof.
  unfold digest_mayHave, all_words_have. rewrite !andb_true_iff. tauto.
Qed.

Lemma word_intersects sd o g shift :
  mayHave sd g shift = true -> mayHave o g shift = true -> mayHaveSet sd o = true.
Proof.
  rewrite !mayHave_testbit. intros Hsd Ho. unfold mayHaveSet, has_bits.
  apply negb_true_iff, Z.eqb_neq. intros Hz.
  apply (f_equal (fun z => Z.testbit z (slot g shift))) in Hz.
  rewrite Z.land_spec, Hsd, Ho, Z.bits_0 in Hz. discriminate.
Qed.

(** X1. [mayHaveDigest] has no false negative: two digests that may both
    hold some glyph [g] (in particular two digests [g] was inserted into)
    are reported as overlapping. *)
Theorem digests_of_a_common_glyph_overlap (sd o : setDigest) (g : Z) :
  digest_mayHave sd g = true -> digest_mayHave o g = true ->
  mayHaveDigest sd o = true.
Proof.
  rewrite !digest_mayHave_words. intros (Hs0 & Hs1 & Hs2) (Ho0 & Ho1 & Ho2).
  unfold mayHaveDigest.
  rewrite (word_intersects _ _ g shift0 Hs0 Ho0).
  rewrite (word_intersects _ _ g shift1 Hs1 Ho1).
  rewrite (word_intersects _ _ g shift2 Hs2 Ho2).
  reflexivity.
Qed.

Lemma digest_addRange_keeps sd a b g :
  all_words_have sd g -> all_words_have (digest_addRange sd a b) g.
Proof. intros Hall. apply (perform_keeps sd (AddRange a b) g Hall). Qed.

Lemma fold_addRange_keeps ranges : forall sd g,
  all_words_have sd g ->
  all_words_have
    (fold_left (fun sd r => digest_addRange sd (StartGlyphID r) (EndGlyphID r)) ranges sd) g.
Proof.
  induction ranges as [|r ranges IH]; intros sd g Hall; simpl; [exact Hall|].
  apply IH, digest_addRange_keeps, Hall.
Qed.

Lemma collectCoverage_keeps sd cov g :
  all_words_have sd g -> all_words_have (collectCoverage sd cov) g.
Proof.
  intros Hall. destruct cov as [glyphs|ranges|]; simpl.
  - apply (perform_keeps sd (AddArray glyphs) g Hall).
  - apply fold_addRange_keeps, Hall.
  - exact Hall.
Qed.

Lemma fold_addRange_lists ranges : forall sd g,
  Forall (fun r => setType (StartGlyphID r) /\ setType (EndGlyphID r)) ranges ->
  (exists r, In r ranges /\ StartGlyphID r <= g <= EndGlyphID r) ->
  all_words_have
    (fold_left (fun sd r => digest_addRange sd (StartGlyphID r) (EndGlyphID r)) ranges sd) g.
Proof.
  induction ranges as [|r ranges IH]; intros sd g Hty (r0 & Hin & Hr0); simpl in *;
    [contradiction|].
  apply List.Forall_cons_iff in Hty as [Hr Hty].
  destruct Hin as [->|Hin].
  - apply fold_addRange_keeps.
    apply (perform_inserts sd (AddRange (StartGlyphID r0) (EndGlyphID r0)) g Hr Hr0).
  - apply IH; [exact Hty|]. exists r0. split; assumption.
Qed.

Lemma collectCoverage_lists sd cov g :
  coverage_typed cov -> lists cov g -> all_words_have (collectCoverage sd cov) g.
Proof.
  destruct cov as [glyphs|ranges|]; simpl; intros Hty Hg.
  - apply (perform_inserts sd (AddArray glyphs) g Hty Hg).
  - apply fold_addRange_lists; assumption.
  - contradiction.
Qed.

(** X2. [collectCoverage] has no false negative and forgets nothing: after
    it, every glyph the coverage table lists (in its glyph array, or
    inside one of its ranges) may be in the digest, and so may every
    glyph that might be in it before. *)
Theorem collectCoverage_covers (sd : setDigest) (cov : Coverage) (g : Z) :
  coverage_typed cov ->
  lists cov g \/ digest_mayHave sd g = true ->
  digest_mayHave (collectCoverage sd cov) g = true.
Proof.
  intros Hty [Hg|Hg]; apply digest_mayHave_words.
  - apply collectCoverage_lists; assumption.
  - apply collectCoverage_keeps, digest_mayHave_words, Hg.
Qed.

Lemma lookup_collectCoverage_keeps l : forall dst g,
  all_words_have dst g -> all_words_have (lookup_collectCoverage l dst) g.
Proof.
  induction l as [|t l IH]; intros dst g Hall; simpl; [exact Hall|].
  apply IH, collectCoverage_keeps, Hall.
Qed.

Lemma lookup_collectCoverage_lists l : forall dst g table,
  Forall (fun t => coverage_typed (Cov t)) l ->
  In table l -> lists (Cov table) g ->
  all_words_have (lookup_collectCoverage l dst) g.
Proof.
  induction l as [|t l IH]; intros dst g table Hty Hin Hg; simpl in *; [contradiction|].
  apply List.Forall_cons_iff in Hty as [Ht Hty].
  destruct Hin as [->|Hin].
  - apply lookup_collectCoverage_keeps, collectCoverage_lists; assumption.
  - apply (IH _ g table); assumption.
Qed.

End CoverageFacts.

(** ** Accelerated subtables *)

Section AcceleratorFacts.
Import SetDigest.


Lemma applicable_apply_listed table c cur :
  coverage_typed (Cov table) ->
  at_index (Info (buffer c)) (idx (buffer c)) = Some cur ->
  lists (Cov table) (u16 (Glyph cur)) ->
  applicable_apply (newApplicable table) c = applyTable table c.
Proof.
  intros Hty Hcur Hg. unfold applicable_apply. rewrite Hcur. cbn [mbind option_bind].
  unfold newApplicable at 1. cbn [ap_digest].
  rewrite (proj2 (digest_mayHave_words _ _) (collectCoverage_lists empty _ _ Hty Hg)).
  reflexivity.
Qed.

(** The digest of an accelerator may have every glyph that a subtable of
    its lookup lists. *)
Lemma accelerator_init_digest lookup table g :
  Forall (fun t => coverage_typed (Cov t)) lookup ->
  In table lookup -> lists (Cov table) g ->
  digest_mayHave (acc_digest (accelerator_init lookup)) g = true.
Proof.
  intros Hty Hin Hg. apply digest_mayHave_words.
  apply (lookup_collectCoverage_lists lookup empty g table); assumption.
Qed.


End AcceleratorFacts.

Section ApplySkipFacts.
Context `{PackageConstants} `{BufferOps}.
Variable applyString : otApplyContext -> SetDigest.setDigest -> otApplyContext.

(** X4. [otMap.apply] skips a lookup only when it may: a lookup with a
    subtable that lists a glyph the context digest may have is set up and
    applied (or meets the length limit), never passed over. *)
Theorem apply_runs_covering_lookup (lookups : list lookupMap)
    (accels : list SetDigest.setDigest) (c : otApplyContext) (i : Z)
    (lookup : lookupMap) (l : list subtable) (table : subtable) (g : Z) :
  at_index lookups i = Some lookup ->
  at_index accels (lm_index lookup) = Some (acc_digest (accelerator_init l)) ->
  Forall (fun t => coverage_typed (Cov t)) l ->
  In table l -> lists (Cov table) g ->
  SetDigest.digest_mayHave (ctxDigest c) g = true ->
  applyOne applyString lookups accels c i =
    if Z.of_nat (length (Info (buffer c))) >? maxLen (buffer c)
    then Returned (configure c lookup)
    else Finished (applyString (configure c lookup) (acc_digest (accelerator_init l))).
Proof.
  intros Hlookup Haccel Hty Hin Hg Hc. unfold applyOne. rewrite Hlookup, Haccel.
  pose proof (accelerator_init_digest l table g Hty Hin Hg) as Ha.
  apply digest_mayHave_words in Ha as (Ha0 & Ha1 & Ha2).
  apply digest_mayHave_words in Hc as (Hc0 & Hc1 & Hc2).
  unfold SetDigest.mayHaveDigest.
  rewrite (word_intersects _ _ g _ Ha0 Hc0), (word_intersects _ _ g _ Ha1 Hc1),
    (word_intersects _ _ g _ Ha2 Hc2).
  reflexivity.
Qed.

End ApplySkipFacts.

(** *** Digests on sample tables *)

(** A subtable for the Thai mark of [thaiBuffer] (glyph 20): it checks
    its coverage first and applies to nothing else. *)
Definition markTable : subtable :=
  mkSubtable (Coverage1 [20])
    (fun c =>
       match at_index (Info (buffer c)) (idx (buffer c)) with
       | Some cur => Some (u16 (Glyph cur) =? 20, c)
       | None => None
       end).

(** A subtable over the glyph range 5..12. *)
Definition rangeTable : subtable :=
  mkSubtable (Coverage2 [mkRangeRecord 5 12])
    (fun c =>
       match at_index (Info (buffer c)) (idx (buffer c)) with
       | Some cur => Some ((5 <=? u16 (Glyph cur)) && (u16 (Glyph cur) <=? 12), c)
       | None => None
       end).

Definition thaiContext : otApplyContext := reset blankContext 1 thaiBuffer.

Lemma digests_of_a_common_glyph_overlap_witness :
  (SetDigest.digest_mayHave (SetDigest.digest_add SetDigest.empty 300) 300 = true /\
   SetDigest.digest_mayHave (SetDigest.digest_addRange SetDigest.empty 290 310) 300 = true) /\
  SetDigest.mayHaveDigest (SetDigest.digest_add SetDigest.empty 300)
    (SetDigest.digest_addRange SetDigest.empty 290 310) = true.
Proof.
  split; [split; reflexivity|].
  exact (digests_of_a_common_glyph_overlap (SetDigest.digest_add SetDigest.empty 300)
           (SetDigest.digest_addRange SetDigest.empty 290 310) 300 eq_refl eq_refl).
Defined.

Lemma sample_tables_typed :
  Forall (fun t => coverage_typed (Cov t)) [rangeTable; markTable].
Proof.
  repeat constructor; unfold SetDigest.setType; simpl; lia.
Qed.

Lemma collectCoverage_covers_witness :
  (coverage_typed (Cov rangeTable) /\
   (lists (Cov rangeTable) 7 \/
    SetDigest.digest_mayHave (SetDigest.digest_add SetDigest.empty 300) 7 = true)) /\
  SetDigest.digest_mayHave
    (collectCoverage (SetDigest.digest_add SetDigest.empty 300) (Cov rangeTable)) 7 = true.
Proof.
  assert (coverage_typed (Cov rangeTable)) as Hty
    by (repeat constructor; unfold SetDigest.setType; simpl; lia).
  assert (lists (Cov rangeTable) 7) as Hg
    by (exists (mkRangeRecord 5 12); split; [left; reflexivity|simpl; lia]).
  split; [split; [exact Hty|left; exact Hg]|].
  exact (collectCoverage_covers _ _ 7 Hty (or_introl Hg)).
Defined.




Lemma apply_runs_covering_lookup_witness :
  (at_index [mkLookupMap 0 true true false false 0x6D61726B 0x10] 0
     = Some (mkLookupMap 0 true true false false 0x6D61726B 0x10) /\
   at_index [acc_digest (accelerator_init [rangeTable; markTable])] 0
     = Some (acc_digest (accelerator_init [rangeTable; markTable])) /\
   In markTable [rangeTable; markTable] /\ lists (Cov markTable) 20 /\
   SetDigest.digest_mayHave (ctxDigest thaiContext) 20 = true) /\
  applyOne (fun c _ => c) [mkLookupMap 0 true true false false 0x6D61726B 0x10]
    [acc_digest (accelerator_init [rangeTable; markTable])] thaiContext 0
  = Returned (configure thaiContext (mkLookupMap 0 true true false false 0x6D61726B 0x10)).
Proof.
  assert (In markTable [rangeTable; markTable]) as Hin by (right; left; reflexivity).
  assert (lists (Cov markTable) 20) as Hg by (left; reflexivity).
  split; [repeat split; try reflexivity; assumption|].
  exact (apply_runs_covering_lookup (fun c _ => c)
           [mkLookupMap 0 true true false false 0x6D61726B 0x10]
           [acc_digest (accelerator_init [rangeTable; markTable])] thaiContext 0
           _ [rangeTable; markTable] markTable 20
           eq_refl eq_refl sample_tables_typed Hin Hg eq_refl).
Defined.

(** ** Ligature ids and components (glyph.go) *)

Lemma forallb_below (p : Z -> bool) (n x : Z) :
  forallb p (seqZ 0 n) = true -> 0 <= x < n -> p x = true.
Proof.
  intros Hall Hx. rewrite forallb_forall in Hall. apply Hall.
  rewrite <- list_elem_of_In, elem_of_seqZ. lia.
Qed.

Lemma lig_table : lig_table_ok = true.
Proof. vm_compute. reflexivity. Qed.

Lemma lig_byte ligID n :
  0 <= ligID < 2 ^ 8 -> 0 <= n < 2 ^ 8 -> lig_byte_ok ligID n = true.
Proof.
  intros Hid Hn. pose proof lig_table as T. unfold lig_table_ok in T.
  apply (forallb_below _ 256 ligID) in T; [|lia].
  apply (forallb_below _ 256 n) in T; [exact T|lia].
Qed.

Section LigFacts.
Context `{PackageConstants} `{GlyphConstants}.

(** X5. What [setLigPropsForMark] stores reads back: the ligature id
    modulo 8 (three bits hold it), the component modulo 16, and the glyph
    is not a ligature base, so it counts one component.  For an id below
    8 and a component below 16 the round trip is exact. *)
Theorem lig_props_for_mark_read_back (info : GlyphInfo) (ligID ligComp : Z) :
  0 <= ligID < 2 ^ 8 -> 0 <= ligComp < 2 ^ 8 ->
  let info' := setLigPropsForMark info ligID ligComp in
  getLigID info' = ligID mod 8 /\
  getLigComp info' = ligComp mod 16 /\
  ligatedInternal info' = false /\
  getLigNumComps info' = 1 /\
  (ligID < 8 -> ligComp < 16 -> getLigID info' = ligID /\ getLigComp info' = ligComp).
Proof.
  intros Hid Hcomp info'.
  pose proof (lig_byte ligID ligComp Hid Hcomp) as T. unfold lig_byte_ok in T.
  repeat (apply andb_prop in T as [T ?]).
  repeat match goal with
  | E : (_ =? _) = true |- _ => apply Z.eqb_eq in E
  | E : negb _ = true |- _ => apply negb_true_iff in E
  end.
  assert (ligatedInternal info' = false) as Hbase by assumption.
  assert (getLigID info' = ligID mod 8) as Hgetid by assumption.
  assert (getLigComp info' = ligComp mod 16) as Hgetcomp
    by (unfold getLigComp; rewrite Hbase; assumption).
  split; [exact Hgetid|]. split; [exact Hgetcomp|]. split; [exact Hbase|].
  split.
  - unfold getLigNumComps. rewrite Hbase, andb_false_r. reflexivity.
  - intros Hid8 Hcomp16. rewrite Hgetid, Hgetcomp.
    rewrite !Z.mod_small by lia. split; reflexivity.
Qed.

(** X6. What [setLigPropsForLigature] stores reads back: the ligature
    id modulo 8, the glyph is a ligature base and so has component 0, and
    if its GDEF class is ligature it counts the stored number of
    components modulo 16, otherwise one. *)
Theorem lig_props_for_ligature_read_back (info : GlyphInfo) (ligID ligNumComps : Z) :
  0 <= ligID < 2 ^ 8 -> 0 <= ligNumComps < 2 ^ 8 ->
  let info' := setLigPropsForLigature info ligID ligNumComps in
  getLigID info' = ligID mod 8 /\
  ligatedInternal info' = true /\
  getLigComp info' = 0 /\
  getLigNumComps info' = (if isLigature info then ligNumComps mod 16 else 1) /\
  isLigature info' = isLigature info.
Proof.
  intros Hid Hn info'.
  pose proof (lig_byte ligID ligNumComps Hid Hn) as T. unfold lig_byte_ok in T.
  repeat (apply andb_prop in T as [T ?]).
  repeat match goal with
  | E : (_ =? _) = true |- _ => apply Z.eqb_eq in E
  | E : negb _ = true |- _ => apply negb_true_iff in E
  end.
  assert (ligatedInternal info' = true) as Hbase by assumption.
  split; [assumption|]. split; [exact Hbase|].
  split; [unfold getLigComp; rewrite Hbase; reflexivity|].
  split; [|reflexivity].
  unfold getLigNumComps. rewrite Hbase, andb_true_r.
  change (glyphProps info') with (glyphProps info). unfold isLigature.
  destruct (has_bits (glyphProps info) GPLigature); [assumption|reflexivity].
Qed.

End LigFacts.

(** ** Unicode properties of a glyph (glyph.go) *)

Lemma land_disjoint (a m k : Z) : Z.land m k = 0 -> Z.land (Z.land a m) k = 0.
Proof. intros Hd. rewrite <- Z.land_assoc, Hd. apply Z.land_0_r. Qed.

Lemma land_within (a m k : Z) : Z.land m k = k -> Z.land (Z.land a m) k = Z.land a k.
Proof. intros Hin. rewrite <- Z.land_assoc, Hin. reflexivity. Qed.

Lemma small_land (x n : Z) : 0 <= n -> 0 <= x < 2 ^ n -> Z.land x (Z.ones n) = x.
Proof. intros Hn Hx. rewrite Z.land_ones by exact Hn. apply Z.mod_small, Hx. Qed.

Lemma land_bit_cases (x k : Z) :
  0 <= k -> Z.land x (Z.shiftl 1 k) = (if Z.testbit x k then Z.shiftl 1 k else 0).
Proof.
  intros Hk. rewrite Z.shiftl_1_l. apply Z.bits_inj'. intros n Hn.
  rewrite Z.land_spec.
  destruct (Z.eq_dec k n) as [->|Hne].
  - rewrite Z.pow2_bits_true by lia.
    destruct (Z.testbit x n) eqn:Hx; [rewrite Z.pow2_bits_true by lia; reflexivity|].
    rewrite Z.bits_0. reflexivity.
  - rewrite Z.pow2_bits_false, andb_false_r by lia.
    destruct (Z.testbit x k); [rewrite Z.pow2_bits_false by lia|rewrite Z.bits_0];
      reflexivity.
Qed.

(** The high byte of the Unicode properties replaced by [m]. *)
Lemma top_byte_set (m u : Z) :
  0 <= m < 2 ^ 8 ->
  let u' := Z.lor (u16 (Z.shiftl m 8)) (Z.land u 0xFF) in
  u8 (Z.shiftr u' 8) = m /\
  forall k, Z.land 0xFF k = k -> Z.land u' k = Z.land u k.
Proof.
  intros Hm u'.
  assert (u16 (Z.shiftl m 8) = Z.shiftl m 8) as Hs.
  { unfold u16. rewrite Z.shiftl_mul_pow2 by lia. apply Z.mod_small. lia. }
  unfold u'. rewrite Hs. split.
  - rewrite Z.shiftr_lor, Z.shiftr_shiftl_l by lia.
    rewrite Z.shiftr_land. change (Z.shiftr 255 8) with 0.
    rewrite Z.land_0_r, Z.lor_0_r. change (8 - 8) with 0. rewrite Z.shiftl_0_r.
    unfold u8. apply Z.mod_small, Hm.
  - intros k Hk. rewrite Z.land_lor_distr_l.
    rewrite (land_within u 255 k Hk).
    assert (Z.land (Z.shiftl m 8) k = 0) as ->; [|apply Z.lor_0_l].
    rewrite <- Hk, Z.land_assoc.
    assert (Z.land (Z.shiftl m 8) 255 = 0) as ->; [|apply Z.land_0_l].
    apply Z.bits_inj'. intros n Hn. rewrite Z.land_spec, Z.bits_0.
    change 255 with (Z.ones 8). rewrite Z.testbit_ones_nonneg by lia.
    destruct (Z.ltb_spec n 8); [|apply andb_false_r].
    rewrite Z.shiftl_spec_low by lia. reflexivity.
Qed.

Section UnicodePropFacts.
Context `{PackageConstants} `{GlyphConstants}.

(** X7. The high byte of the Unicode properties belongs to the general
    category: for a mark, the modified combining class that is set reads
    back; for a space, the space fallback type that is set reads back;
    for any other glyph the setter changes nothing and the getter gives
    the default.  Neither setter touches the low byte, so the general
    category and the default-ignorable status stay. *)
Theorem unicode_high_byte_round_trip (info : GlyphInfo) (v : Z) :
  0 <= v < 2 ^ 8 ->
  (if isUnicodeMark info
   then getModifiedCombiningClass (setModifiedCombiningClass info v) = v
   else setModifiedCombiningClass info v = info /\ getModifiedCombiningClass info = 0) /\
  (if isUnicodeSpace info
   then getUnicodeSpaceFallbackType (setUnicodeSpaceFallbackType info v) = v
   else setUnicodeSpaceFallbackType info v = info /\
        getUnicodeSpaceFallbackType info = notSpace) /\
  generalCategory (unicode (setModifiedCombiningClass info v))
    = generalCategory (unicode info) /\
  generalCategory (unicode (setUnicodeSpaceFallbackType info v))
    = generalCategory (unicode info) /\
  isDefaultIgnorable (setModifiedCombiningClass info v) = isDefaultIgnorable info /\
  isDefaultIgnorable (setUnicodeSpaceFallbackType info v) = isDefaultIgnorable info.
Proof.
  intros Hv.
  destruct (top_byte_set v (unicode info) Hv) as [Hhigh Hlow].
  pose proof (Hlow upropsMaskGenCat eq_refl) as Hcat.
  pose proof (Hlow upropsMaskIgnorable eq_refl) as Hign.
  assert (forall info', glyphProps info' = glyphProps info ->
            Z.land (unicode info') upropsMaskIgnorable
              = Z.land (unicode info) upropsMaskIgnorable ->
            isDefaultIgnorable info' = isDefaultIgnorable info) as Hdi.
  { intros info' Hp Hu. unfold isDefaultIgnorable, glyph_substituted, has_bits.
    rewrite Hp, Hu. reflexivity. }
  split; [|split; [|split; [|split; [|split]]]].
  - unfold setModifiedCombiningClass, getModifiedCombiningClass.
    destruct (isUnicodeMark info) eqn:Hmark; cbn [negb]; [|split; reflexivity].
    assert (isUnicodeMark (set_unicode info
              (Z.lor (u16 (Z.shiftl v 8)) (Z.land (unicode info) 255))) = true) as ->.
    { unfold isUnicodeMark, generalCategory in *. cbn [unicode set_unicode]. rewrite Hcat. exact Hmark. }
    cbn [unicode set_unicode]. exact Hhigh.
  - unfold setUnicodeSpaceFallbackType, getUnicodeSpaceFallbackType.
    destruct (isUnicodeSpace info) eqn:Hspace; cbn [negb]; [|split; reflexivity].
    assert (isUnicodeSpace (set_unicode info
              (Z.lor (u16 (Z.shiftl v 8)) (Z.land (unicode info) 255))) = true) as ->.
    { unfold isUnicodeSpace, generalCategory in *. cbn [unicode set_unicode]. rewrite Hcat. exact Hspace. }
    cbn [unicode set_unicode]. exact Hhigh.
  - unfold setModifiedCombiningClass. destruct (negb (isUnicodeMark info)); [reflexivity|].
    unfold generalCategory. cbn [unicode set_unicode]. exact Hcat.
  - unfold setUnicodeSpaceFallbackType. destruct (negb (isUnicodeSpace info)); [reflexivity|].
    unfold generalCategory. cbn [unicode set_unicode]. exact Hcat.
  - unfold setModifiedCombiningClass. destruct (negb (isUnicodeMark info)); [reflexivity|].
    apply Hdi; [reflexivity|exact Hign].
  - unfold setUnicodeSpaceFallbackType. destruct (negb (isUnicodeSpace info)); [reflexivity|].
    apply Hdi; [reflexivity|exact Hign].
Qed.

(** X8. [setGeneralCategory] sets the category and clears the high
    byte: the new category reads back, the ignorable, hidden and
    continuation flags stay, and whatever the high byte held is gone, so
    the glyph has combining class 0 and is neither ZWJ nor ZWNJ. *)
Theorem setGeneralCategory_clears_high_byte (info : GlyphInfo) (genCat : Z) :
  0 <= genCat < 2 ^ 5 ->
  let info' := setGeneralCategory info genCat in
  generalCategory (unicode info') = genCat /\
  Z.shiftr (unicode info') 8 = 0 /\
  isDefaultIgnorable info' = isDefaultIgnorable info /\
  has_bits (unicode info') upropsMaskHidden = has_bits (unicode info) upropsMaskHidden /\
  isContinuation info' = isContinuation info /\
  getModifiedCombiningClass info' = 0 /\
  isZwj info' = false /\ isZwnj info' = false.
Proof.
  intros Hg info'.
  assert (unicode info' = Z.lor (Z.land genCat 31) (Z.land (unicode info) 224)) as Hu.
  { unfold info', setGeneralCategory. cbn [unicode set_unicode].
    change (Z.land 255 (not16 upropsMaskGenCat)) with 224.
    change 31 with (Z.ones 5). rewrite (small_land genCat 5) by lia. reflexivity. }
  assert (forall k, Z.land 31 k = 0 -> Z.land 224 k = k ->
            Z.land (unicode info') k = Z.land (unicode info) k) as Hflag.
  { intros k Hk0 Hk1. rewrite Hu, Z.land_lor_distr_l.
    rewrite (land_disjoint genCat 31 k Hk0), (land_within _ 224 k Hk1).
    apply Z.lor_0_l. }
  assert (Z.shiftr (unicode info') 8 = 0) as Hhigh.
  { rewrite Hu, Z.shiftr_lor, !Z.shiftr_land.
    change (Z.shiftr 31 8) with 0. change (Z.shiftr 224 8) with 0.
    rewrite !Z.land_0_r. reflexivity. }
  assert (forall k, Z.land 255 k = 0 -> has_bits (unicode info') k = false) as Htop.
  { intros k Hk. unfold has_bits. apply negb_false_iff, Z.eqb_eq.
    rewrite Hu, Z.land_lor_distr_l.
    rewrite (land_disjoint genCat 31 k), (land_disjoint _ 224 k); [reflexivity| |].
    - rewrite <- (Z.land_0_l k), <- Hk.
      change 224 with (Z.land 224 255). rewrite <- Z.land_assoc, Hk. reflexivity.
    - change 31 with (Z.land 31 255). rewrite <- Z.land_assoc, Hk. reflexivity. }
  split; [|split; [exact Hhigh|split; [|split; [|split; [|split; [|split]]]]]].
  - unfold generalCategory. rewrite Hu, Z.land_lor_distr_l.
    rewrite (land_within genCat 31 upropsMaskGenCat eq_refl).
    rewrite (land_disjoint _ 224 upropsMaskGenCat eq_refl), Z.lor_0_r.
    change upropsMaskGenCat with (Z.ones 5). apply small_land; lia.
  - unfold isDefaultIgnorable, glyph_substituted, has_bits.
    rewrite (Hflag upropsMaskIgnorable eq_refl eq_refl). reflexivity.
  - unfold has_bits. rewrite (Hflag upropsMaskHidden eq_refl eq_refl). reflexivity.
  - unfold isContinuation, has_bits.
    rewrite (Hflag upropsMaskContinuation eq_refl eq_refl). reflexivity.
  - unfold getModifiedCombiningClass. rewrite Hhigh.
    destruct (isUnicodeMark info'); reflexivity.
  - unfold isZwj. rewrite (Htop upropsMaskCfZwj eq_refl). apply andb_false_r.
  - unfold isZwnj. rewrite (Htop upropsMaskCfZwnj eq_refl). apply andb_false_r.
Qed.

(** X9. A default ignorable that is not hidden is a default ignorable
    whose hidden flag is clear, and [unhide] clears that flag and nothing
    else that the two tests read: after [unhide], every default
    ignorable is one that is not hidden. *)
Theorem unhide_shows_default_ignorables (info : GlyphInfo) :
  isDefaultIgnorableAndNotHidden info
    = isDefaultIgnorable info && negb (has_bits (unicode info) upropsMaskHidden) /\
  isDefaultIgnorable (unhide info) = isDefaultIgnorable info /\
  isDefaultIgnorableAndNotHidden (unhide info) = isDefaultIgnorable info /\
  generalCategory (unicode (unhide info)) = generalCategory (unicode info).
Proof.
  assert (forall u,
            (Z.land u (Z.lor upropsMaskIgnorable upropsMaskHidden) =? upropsMaskIgnorable)
            = has_bits u upropsMaskIgnorable && negb (has_bits u upropsMaskHidden)) as Hboth.
  { intros u.
    assert (Z.land u (Z.lor upropsMaskIgnorable upropsMaskHidden)
            = Z.lor (Z.land u upropsMaskIgnorable) (Z.land u upropsMaskHidden)) as ->
      by apply Z.land_lor_distr_r.
    unfold has_bits, upropsMaskIgnorable, upropsMaskHidden.
    rewrite !land_bit_cases by lia.
    destruct (Z.testbit u 5), (Z.testbit u 6); reflexivity. }
  assert (forall k, Z.land (not16 upropsMaskHidden) k = k ->
            Z.land (unicode (unhide info)) k = Z.land (unicode info) k) as Hkeep.
  { intros k Hk. unfold unhide. cbn [unicode set_unicode]. apply land_within, Hk. }
  assert (has_bits (unicode (unhide info)) upropsMaskHidden = false) as Hhid.
  { unfold has_bits, unhide. cbn [unicode set_unicode].
    rewrite (land_disjoint _ (not16 upropsMaskHidden) upropsMaskHidden eq_refl).
    reflexivity. }
  assert (isDefaultIgnorable (unhide info) = isDefaultIgnorable info) as Hdi.
  { unfold isDefaultIgnorable, glyph_substituted, has_bits.
    rewrite (Hkeep upropsMaskIgnorable eq_refl). reflexivity. }
  split; [|split; [exact Hdi|split]].
  - unfold isDefaultIgnorableAndNotHidden, isDefaultIgnorable. rewrite Hboth.
    destruct (has_bits (unicode info) upropsMaskIgnorable),
      (has_bits (unicode info) upropsMaskHidden), (glyph_substituted info); reflexivity.
  - unfold isDefaultIgnorableAndNotHidden. rewrite Hboth, Hhid.
    change (glyph_substituted (unhide info)) with (glyph_substituted info).
    unfold isDefaultIgnorable, has_bits.
    rewrite (Hkeep upropsMaskIgnorable eq_refl).
    destruct (negb (Z.land (unicode info) upropsMaskIgnorable =? 0)),
      (glyph_substituted info); reflexivity.
  - unfold generalCategory. apply (Hkeep upropsMaskGenCat eq_refl).
Qed.

End UnicodePropFacts.

(** *** Glyph properties on sample glyphs *)

(** U+0301 COMBINING ACUTE ACCENT: a non-spacing mark of combining class
    230, GDEF class mark. *)
Definition acuteGlyph : GlyphInfo :=
  mkGlyphInfo 0 0x0301 0 0 0x08 0 0 (Z.lor (Z.shiftl 230 8) 12) 0 0.

(** An "ffi" ligature glyph of GDEF class ligature. *)
Definition ffiGlyph : GlyphInfo := mkGlyphInfo 0 0x66 300 0 0x04 0 0 5 0 0.

Lemma lig_props_for_mark_read_back_witness :
  (0 <= 3 < 2 ^ 8 /\ 0 <= 2 < 2 ^ 8) /\
  getLigID (setLigPropsForMark acuteGlyph 3 2) = 3 /\
  getLigComp (setLigPropsForMark acuteGlyph 3 2) = 2.
Proof.
  assert (0 <= 3 < 2 ^ 8) as Hid by lia.
  assert (0 <= 2 < 2 ^ 8) as Hcomp by lia.
  split; [split; assumption|].
  apply (proj2 (proj2 (proj2 (proj2
           (lig_props_for_mark_read_back acuteGlyph 3 2 Hid Hcomp))))); lia.
Defined.

Lemma lig_props_for_ligature_read_back_witness :
  (0 <= 11 < 2 ^ 8 /\ 0 <= 3 < 2 ^ 8) /\
  getLigID (setLigPropsForLigature ffiGlyph 11 3) = 11 mod 8 /\
  getLigNumComps (setLigPropsForLigature ffiGlyph 11 3) = 3.
Proof.
  assert (0 <= 11 < 2 ^ 8) as Hid by lia.
  assert (0 <= 3 < 2 ^ 8) as Hn by lia.
  split; [split; assumption|].
  destruct (lig_props_for_ligature_read_back ffiGlyph 11 3 Hid Hn)
    as (Hgetid & _ & _ & Hnum & _).
  split; [exact Hgetid|exact Hnum].
Defined.

Lemma unicode_high_byte_round_trip_witness :
  0 <= 220 < 2 ^ 8 /\
  getModifiedCombiningClass acuteGlyph = 230 /\
  getModifiedCombiningClass (setModifiedCombiningClass acuteGlyph 220) = 220 /\
  setUnicodeSpaceFallbackType acuteGlyph 220 = acuteGlyph.
Proof.
  assert (0 <= 220 < 2 ^ 8) as Hv by lia.
  split; [exact Hv|]. split; [reflexivity|].
  destruct (unicode_high_byte_round_trip acuteGlyph 220 Hv) as (Hmark & Hspace & _).
  split; [exact Hmark|exact (proj1 Hspace)].
Defined.

Lemma setGeneralCategory_clears_high_byte_witness :
  0 <= 7 < 2 ^ 5 /\
  generalCategory (unicode (setGeneralCategory acuteGlyph 7)) = 7 /\
  getModifiedCombiningClass (setGeneralCategory acuteGlyph 7) = 0.
Proof.
  assert (0 <= 7 < 2 ^ 5) as Hg by lia.
  split; [exact Hg|].
  destruct (setGeneralCategory_clears_high_byte acuteGlyph 7 Hg)
    as (Hcat & _ & _ & _ & _ & Hccc & _).
  split; [exact Hcat|exact Hccc].
Defined.

(** ** Reading the compiled feature map *)

Lemma at_index_lt {A : Type} (l : list A) (i : Z) (x : A) :
  at_index l i = Some x -> 0 <= i < Z.of_nat (length l).
Proof.
  unfold at_index. destruct (Z.ltb_spec i 0); [discriminate|].
  intros Hx. apply lookup_lt_Some in Hx. lia.
Qed.

Lemma at_index_is_Some {A : Type} (l : list A) (i : Z) :
  0 <= i < Z.of_nat (length l) -> exists x, at_index l i = Some x.
Proof.
  intros Hi. unfold at_index. destruct (Z.ltb_spec i 0); [lia|].
  apply lookup_lt_is_Some_2. lia.
Qed.

Lemma at_index_In {A : Type} (l : list A) (i : Z) (x : A) :
  at_index l i = Some x -> In x l.
Proof.
  unfold at_index. destruct (i <? 0); [discriminate|].
  intros Hx. apply list_elem_of_In, list_elem_of_lookup. eexists. exact Hx.
Qed.

Lemma In_at_index {A : Type} (l : list A) (x : A) :
  In x l -> exists i, at_index l i = Some x.
Proof.
  intros Hx. apply list_elem_of_In, list_elem_of_lookup in Hx as [k Hk].
  exists (Z.of_nat k). unfold at_index.
  destruct (Z.ltb_spec (Z.of_nat k) 0); [lia|]. rewrite Nat2Z.id. exact Hk.
Qed.

Lemma sorted_at_index {A : Type} (R : A -> A -> Prop) (l : list A) :
  StronglySorted R l ->
  forall i j x y, i < j -> at_index l i = Some x -> at_index l j = Some y -> R x y.
Proof.
  induction 1 as [|a l Hs IH Ha]; intros i j x y Hij Hx Hy.
  - apply at_index_lt in Hx. simpl in Hx. lia.
  - pose proof (at_index_lt _ _ _ Hx) as Hi. pose proof (at_index_lt _ _ _ Hy) as Hj.
    unfold at_index in Hx, Hy.
    destruct (Z.ltb_spec i 0); [lia|]. destruct (Z.ltb_spec j 0); [lia|].
    destruct (Z.to_nat j) as [|j'] eqn:Ej; [lia|].
    assert (at_index l (j - 1) = Some y) as Hy'.
    { unfold at_index. destruct (Z.ltb_spec (j - 1) 0); [lia|].
      replace (Z.to_nat (j - 1)) with j' by lia. exact Hy. }
    destruct (Z.to_nat i) as [|i'] eqn:Ei.
    + injection Hx as <-. rewrite List.Forall_forall in Ha. apply Ha.
      apply (at_index_In _ _ _ Hy').
    + apply (IH (i - 1) (j - 1)); [lia| |exact Hy'].
      unfold at_index. destruct (Z.ltb_spec (i - 1) 0); [lia|].
      replace (Z.to_nat (i - 1)) with i' by lia. exact Hx.
Qed.

Lemma bsearchFrom_spec (n : nat) : forall features tag low high,
  0 <= low -> low <= high -> high <= Z.of_nat (length features) ->
  high - low <= Z.of_nat n ->
  exists r,
    bsearchFrom n features tag low high = Some r /\
    match r with
    | Some p => exists i, low <= i < high /\ at_index features i = Some p /\ fm_tag p = tag
    | None =>
        features_sorted features ->
        forall i p, low <= i < high -> at_index features i = Some p -> fm_tag p <> tag
    end.
Proof.
  induction n as [|n IH]; intros features tag low high Hlow Hle Hhigh Hn.
  - exists None. assert (low = high) as -> by lia.
    split; [simpl; rewrite Z.ltb_irrefl; reflexivity|]. intros _ i p Hi. lia.
  - cbn [bsearchFrom]. destruct (Z.ltb_spec low high) as [Hlt|Hge].
    + assert (low <= low + (high - low) / 2 < high) as Hmid.
      { assert (0 <= (high - low) / 2) by (apply Z.div_pos; lia).
        assert ((high - low) / 2 < high - low) by (apply Z.div_lt; lia). lia. }
      set (mid := low + (high - low) / 2) in *.
      destruct (at_index_is_Some features mid) as [p Hp]; [lia|].
      rewrite Hp. cbn [mbind option_bind].
      destruct (Z.ltb_spec tag (fm_tag p)) as [Hlt'|Hge'].
      * destruct (IH features tag low mid) as (r & Hr & Hspec); try lia.
        exists r. split; [exact Hr|]. destruct r as [q|].
        -- destruct Hspec as (i & Hi & Hq & Ht). exists i. split; [lia|]. split; assumption.
        -- intros Hs i q Hi Hq.
           destruct (Z.lt_ge_cases i mid) as [Him|Him]; [apply (Hspec Hs i q); [lia|exact Hq]|].
           destruct (Z.eq_dec i mid) as [->|Hne].
           ++ rewrite Hp in Hq. injection Hq as <-. lia.
           ++ pose proof (sorted_at_index _ _ Hs mid i p q ltac:(lia) Hp Hq). simpl in *. lia.
      * destruct (Z.gtb_spec tag (fm_tag p)) as [Hgt|Hngt].
        -- destruct (IH features tag (mid + 1) high) as (r & Hr & Hspec); try lia.
           exists r. split; [exact Hr|]. destruct r as [q|].
           ++ destruct Hspec as (i & Hi & Hq & Ht). exists i. split; [lia|]. split; assumption.
           ++ intros Hs i q Hi Hq.
              destruct (Z.lt_ge_cases mid i) as [Him|Him];
                [apply (Hspec Hs i q); [lia|exact Hq]|].
              destruct (Z.eq_dec i mid) as [->|Hne].
              ** rewrite Hp in Hq. injection Hq as <-. lia.
              ** pose proof (sorted_at_index _ _ Hs i mid q p ltac:(lia) Hq Hp).
                 simpl in *. lia.
        -- exists (Some p). split; [reflexivity|]. exists mid.
           split; [lia|]. split; [exact Hp|lia].
    + exists None. split; [reflexivity|]. intros _ i p Hi. lia.
Qed.

Lemma bsearchFeature_spec features tag :
  exists r,
    bsearchFeature features tag = Some r /\
    match r with
    | Some p => In p features /\ fm_tag p = tag
    | None => features_sorted features -> forall p, In p features -> fm_tag p <> tag
    end.
Proof.
  destruct (bsearchFrom_spec (length features) features tag 0 (Z.of_nat (length features)))
    as (r & Hr & Hspec); try lia.
  exists r. split; [exact Hr|]. destruct r as [p|].
  - destruct Hspec as (i & _ & Hp & Ht). split; [apply (at_index_In _ _ _ Hp)|exact Ht].
  - intros Hs p Hin. destruct (In_at_index _ _ Hin) as [i Hi].
    apply (Hspec Hs i p); [apply (at_index_lt _ _ _ Hi)|exact Hi].
Qed.

Lemma sorted_tag_unique features p q :
  features_sorted features -> In p features -> In q features ->
  fm_tag p = fm_tag q -> p = q.
Proof.
  intros Hs Hp Hq Ht.
  destruct (In_at_index _ _ Hp) as [i Hi]. destruct (In_at_index _ _ Hq) as [j Hj].
  destruct (Z.lt_trichotomy i j) as [Hlt|[->|Hgt]].
  - pose proof (sorted_at_index _ _ Hs i j p q Hlt Hi Hj). simpl in *. lia.
  - congruence.
  - pose proof (sorted_at_index _ _ Hs j i q p ltac:(lia) Hj Hi). simpl in *. lia.
Qed.

Lemma bsearchFeature_found features p :
  features_sorted features -> In p features ->
  bsearchFeature features (fm_tag p) = Some (Some p).
Proof.
  intros Hs Hp. destruct (bsearchFeature_spec features (fm_tag p)) as (r & Hr & Hspec).
  rewrite Hr. destruct r as [q|].
  - destruct Hspec as [Hq Ht]. rewrite (sorted_tag_unique features q p Hs Hq Hp Ht).
    reflexivity.
  - exfalso. apply (Hspec Hs p Hp). reflexivity.
Qed.

Lemma bsearchFeature_absent features tag :
  features_sorted features -> (forall p, In p features -> fm_tag p <> tag) ->
  bsearchFeature features tag = Some None.
Proof.
  intros Hs Hno. destruct (bsearchFeature_spec features tag) as (r & Hr & Hspec).
  rewrite Hr. destruct r as [q|]; [|reflexivity].
  destruct Hspec as [Hq Ht]. exfalso. apply (Hno q Hq Ht).
Qed.

(** X10. [bsearchFeature] always returns, and what it returns is a
    feature of the slice with the tag asked for.  On features in
    increasing order of tag it is complete: every feature of the slice is
    found by its tag, and nil is returned exactly for the tags that no
    feature has. *)
Theorem bsearchFeature_correct (features : list featureMap) (tag : Z) :
  (exists r,
     bsearchFeature features tag = Some r /\
     forall p, r = Some p -> In p features /\ fm_tag p = tag) /\
  (features_sorted features ->
   (forall p, In p features -> bsearchFeature features (fm_tag p) = Some (Some p)) /\
   (bsearchFeature features tag = Some None <->
    forall p, In p features -> fm_tag p <> tag)).
Proof.
  split.
  - destruct (bsearchFeature_spec features tag) as (r & Hr & Hspec).
    exists r. split; [exact Hr|]. intros p ->. exact Hspec.
  - intros Hs. split; [intros p Hp; apply bsearchFeature_found; assumption|]. split.
    + intros Hnone p Hp Ht.
      rewrite <- Ht, (bsearchFeature_found features p Hs Hp) in Hnone. discriminate.
    + apply bsearchFeature_absent, Hs.
Qed.

(** ** From the builder's requests to the compiled map *)

Lemma merged_sorted (infos : list featureInfo) :
  StronglySorted (fun a b => Tag a < Tag b) (mergeFeatureInfos infos).
Proof.
  unfold mergeFeatureInfos. pose proof (sortStableByTag_sorted infos) as Hs.
  destruct (sortStableByTag infos) as [|first rest]; [constructor|].
  apply mergeDuplicates_increasing, Hs.
Qed.

Lemma merged_from_filter (infos : list featureInfo) (r : featureInfo) :
  In r (mergeFeatureInfos infos) ->
  merged_from r (List.filter (same_tag (Tag r)) infos).
Proof.
  unfold mergeFeatureInfos. pose proof (sortStableByTag_sorted infos) as Hs.
  pose proof (fun t => sortStableByTag_filter t infos) as Hf.
  destruct (sortStableByTag infos) as [|first rest]; [intros []|].
  intros Hr. rewrite <- Hf.
  destruct (mergeDuplicates_spec rest first r Hs Hr) as [[Ht Hfold]|[Ht Hfold]].
  - simpl. unfold same_tag at 1. rewrite Ht, Z.eqb_refl.
    rewrite Ht in Hfold. rewrite Hfold at 1. apply fold_merged_from.
  - simpl. unfold same_tag at 1.
    destruct (Tag first =? Tag r) eqn:E'; [apply Z.eqb_eq in E'; lia|].
    destruct (List.filter (same_tag (Tag r)) rest) as [|f0 more]; [discriminate|].
    simpl in Hfold. injection Hfold as <-. apply fold_merged_from.
Qed.

Lemma merged_has_tag (infos : list featureInfo) (x : featureInfo) :
  In x infos -> exists r, In r (mergeFeatureInfos infos) /\ Tag r = Tag x.
Proof.
  intros Hx. unfold mergeFeatureInfos. pose proof (sortStableByTag_perm infos) as Hp.
  destruct (sortStableByTag infos) as [|first rest].
  - apply (Permutation_in _ (Permutation_sym Hp)) in Hx. destruct Hx.
  - apply mergeDuplicates_complete. apply (Permutation_in _ (Permutation_sym Hp)), Hx.
Qed.

Lemma merged_tag_from (infos : list featureInfo) (r : featureInfo) :
  In r (mergeFeatureInfos infos) -> exists x, In x infos /\ Tag x = Tag r.
Proof.
  intros Hr. destruct (merged_from_filter infos r Hr) as (first & rest & Hd & _).
  exists first. assert (In first (List.filter (same_tag (Tag r)) infos)) as Hin
    by (rewrite Hd; left; reflexivity).
  apply filter_In in Hin as [Hin Ht]. split; [exact Hin|]. apply Z.eqb_eq, Ht.
Qed.

(** The last request for a tag decides, when it is global: the merged
    record is global and has its value. *)
Lemma merged_last_global (infos : list featureInfo) (d r : featureInfo) :
  is_global d = true ->
  In r (mergeFeatureInfos (infos ++ [d])) -> Tag r = Tag d ->
  is_global r = true /\ maxValue r = maxValue d.
Proof.
  intros Hd Hr Ht.
  destruct (merged_from_filter _ r Hr)
    as (first & rest & Hdups & _ & _ & _ & _ & _ & Hglobal & _ & _ & Hvalue).
  rewrite List.filter_app in Hdups. simpl in Hdups.
  unfold same_tag at 2 in Hdups. rewrite Ht, Z.eqb_refl in Hdups.
  assert (List.last rest first = d) as Hlast.
  { destruct (List.filter (same_tag (Tag d)) infos) as [|x l].
    - injection Hdups as <- <-. reflexivity.
    - injection Hdups as <- <-. rewrite <- (last_cons x (l ++ [d]) x).
      change (x :: l ++ [d]) with ((x :: l) ++ [d]). apply List.last_last. }
  rewrite Hlast in Hglobal, Hvalue. split; [rewrite Hglobal; exact Hd|].
  apply (Hvalue Hd).
Qed.

Section MapLookupFacts.
Variable requiredFeatureTag : Z * Z.
Variable findFeatureForLang : Z -> Z -> Z.
Variable findFeature : Z -> Z -> Z.

(** A feature enters the map for a record with a value only. *)
Lemma allocate_appends st info f :
  In f (features (allocate requiredFeatureTag findFeatureForLang findFeature st info)) ->
  In f (features st) \/ (fm_tag f = Tag info /\ maxValue info <> 0).
Proof.
  unfold allocate.
  destruct (maxValue info =? 0) eqn:E0; [left; assumption|]. apply Z.eqb_neq in E0.
  cbn [orb].
  destruct (_ >=? globalBitShift); [left; assumption|].
  match goal with
  | |- context [let '(_, _) := ?p in _] => destruct p as [featureIndex found]
  end.
  destruct (negb found && negb (has_bits (flags info) ffHasFallback));
    [left; assumption|].
  cbn [features]. intros Hin. apply in_app_or in Hin as [Hin|[<-|[]]];
    [left; exact Hin|right]. split; [reflexivity|exact E0].
Qed.

Lemma allocate_keeps st info f :
  In f (features st) ->
  In f (features (allocate requiredFeatureTag findFeatureForLang findFeature st info)).
Proof.
  intros Hf.
  destruct (allocate_cases requiredFeatureTag findFeatureForLang findFeature st info)
    as [(_ & _ & ->)|[(_ & _ & _ & _ & f' & -> & _)|(_ & bn & f' & _ & _ & _ & -> & _)]];
    [exact Hf|apply in_or_app; left; exact Hf|apply in_or_app; left; exact Hf].
Qed.

Lemma fold_allocate_keeps infos : forall st f,
  In f (features st) ->
  In f (features (fold_left (allocate requiredFeatureTag findFeatureForLang findFeature)
                    infos st)).
Proof.
  induction infos as [|info infos IH]; intros st f Hf; simpl; [exact Hf|].
  apply IH, allocate_keeps, Hf.
Qed.

Lemma fold_allocate_from infos : forall st f,
  In f (features (fold_left (allocate requiredFeatureTag findFeatureForLang findFeature)
                    infos st)) ->
  In f (features st) \/
  exists info, In info infos /\ fm_tag f = Tag info /\ maxValue info <> 0.
Proof.
  induction infos as [|info infos IH]; intros st f Hf; simpl in Hf; [left; exact Hf|].
  destruct (IH _ f Hf) as [Hst|(info' & Hin & Ht & Hv)].
  - destruct (allocate_appends st info f Hst) as [Hold|[Ht Hv]]; [left; exact Hold|].
    right. exists info. split; [left; reflexivity|]. split; assumption.
  - right. exists info'. split; [right; exact Hin|]. split; assumption.
Qed.

Lemma sorted_snoc features f :
  features_sorted features -> (forall g, In g features -> fm_tag g < fm_tag f) ->
  features_sorted (features ++ [f]).
Proof.
  unfold features_sorted. induction 1 as [|a l Hs IH Ha]; intros Hlt; simpl.
  - repeat constructor.
  - constructor.
    + apply IH. intros g Hg. apply Hlt. right. exact Hg.
    + apply Forall_app. split; [exact Ha|]. repeat constructor. apply Hlt. left. reflexivity.
Qed.

Lemma fold_allocate_sorted infos : forall st,
  StronglySorted (fun a b => Tag a < Tag b) infos ->
  features_sorted (features st) ->
  (forall f info, In f (features st) -> In info infos -> fm_tag f < Tag info) ->
  features_sorted
    (features (fold_left (allocate requiredFeatureTag findFeatureForLang findFeature)
                 infos st)).
Proof.
  induction infos as [|info infos IH]; intros st Hs Hf Hlt; simpl; [exact Hf|].
  apply StronglySorted_inv in Hs as [Hs Hinfo]. rewrite List.Forall_forall in Hinfo.
  assert (forall f, In f (features (allocate requiredFeatureTag findFeatureForLang
                                      findFeature st info)) ->
            fm_tag f <= Tag info) as Hle.
  { intros f Hin. destruct (allocate_appends st info f Hin) as [Hold|[Ht _]]; [|lia].
    pose proof (Hlt f info Hold (or_introl eq_refl)). lia. }
  apply IH; [exact Hs| |].
  - destruct (allocate_cases requiredFeatureTag findFeatureForLang findFeature st info)
      as [(_ & _ & ->)|[(_ & _ & _ & _ & f' & -> & Ht & _)
                       |(_ & bn & f' & _ & _ & _ & -> & Ht & _)]];
      [exact Hf| |];
      (apply sorted_snoc; [exact Hf|]; intros g Hg; rewrite Ht;
       apply (Hlt g info Hg); left; reflexivity).
  - intros f info' Hin Hin'. pose proof (Hle f Hin). pose proof (Hinfo info' Hin'). lia.
Qed.

Lemma compile_sorted infos :
  features_sorted
    (features (compile requiredFeatureTag findFeatureForLang findFeature infos)).
Proof.
  unfold compile. apply fold_allocate_sorted.
  - apply merged_sorted.
  - constructor.
  - intros f info [].
Qed.

Lemma compile_feature_from infos f :
  In f (features (compile requiredFeatureTag findFeatureForLang findFeature infos)) ->
  exists r, In r (mergeFeatureInfos infos) /\ fm_tag f = Tag r /\ maxValue r <> 0.
Proof.
  unfold compile. intros Hf. apply fold_allocate_from in Hf as [[]|Hf]. exact Hf.
Qed.

Lemma merged_tag_unique infos r r' :
  In r (mergeFeatureInfos infos) -> In r' (mergeFeatureInfos infos) ->
  Tag r = Tag r' -> r = r'.
Proof.
  intros Hr Hr' Ht. pose proof (merged_sorted infos) as Hs.
  destruct (In_at_index _ _ Hr) as [i Hi]. destruct (In_at_index _ _ Hr') as [j Hj].
  destruct (Z.lt_trichotomy i j) as [Hlt|[->|Hgt]].
  - pose proof (sorted_at_index _ _ Hs i j r r' Hlt Hi Hj). simpl in *. lia.
  - congruence.
  - pose proof (sorted_at_index _ _ Hs j i r' r ltac:(lia) Hj Hi). simpl in *. lia.
Qed.

(** X11. What [compile] puts into the map is found again: the features
    come out in increasing order of tag, so the binary search of
    [getMask], [getMask1] and [needsFallback] returns the mask, shift,
    value-one mask and fallback flag of every compiled feature, and the
    defaults for a tag that was never requested. *)
Theorem compiled_features_are_found (infos : list featureInfo) :
  let m := features (compile requiredFeatureTag findFeatureForLang findFeature infos) in
  features_sorted m /\
  (forall f, In f m ->
     getMask m (fm_tag f) = Some (fm_mask f, fm_shift f) /\
     getMask1 m (fm_tag f) = Some (fm_mask1 f) /\
     needsFallback m (fm_tag f) = Some (fm_needsFallback f) /\
     getFeatureIndex m 0 (fm_tag f) = Some (fst (fm_index f)) /\
     getFeatureIndex m 1 (fm_tag f) = Some (snd (fm_index f)) /\
     getFeatureStage m 0 (fm_tag f) = Some (fst (fm_stage f)) /\
     getFeatureStage m 1 (fm_tag f) = Some (snd (fm_stage f))) /\
  (forall tag, (forall info, In info infos -> Tag info <> tag) ->
     getMask m tag = Some (0, 0) /\ getMask1 m tag = Some 0 /\
     needsFallback m tag = Some false /\
     getFeatureIndex m 0 tag = Some NoFeatureIndex /\
     getFeatureStage m 1 tag = Some MaxInt32).
Proof.
  intros m. pose proof (compile_sorted infos) as Hs. fold m in Hs.
  split; [exact Hs|]. split.
  - intros f Hf.
    unfold getMask, getMask1, needsFallback, getFeatureIndex, getFeatureStage.
    rewrite (bsearchFeature_found m f Hs Hf). repeat split; reflexivity.
  - intros tag Hno.
    assert (bsearchFeature m tag = Some None) as Hnone.
    { apply bsearchFeature_absent; [exact Hs|]. intros p Hp Ht.
      destruct (compile_feature_from infos p Hp) as (r & Hr & Htag & _).
      destruct (merged_tag_from infos r Hr) as (x & Hx & Hxt).
      apply (Hno x Hx). lia. }
    unfold getMask, getMask1, needsFallback, getFeatureIndex, getFeatureStage.
    rewrite Hnone. repeat split; reflexivity.
Qed.

(** X12. A feature that is disabled last is not in the compiled map:
    whatever was requested for the tag before, after [disableFeature]
    no feature of the map has the tag, and the map answers mask 0, no
    fallback and no feature index for it. *)
Theorem disabled_feature_is_absent (mb : otMapBuilder) (tag : Z) :
  let m :=
    features (compile requiredFeatureTag findFeatureForLang findFeature
                (featureInfos (disableFeature mb tag))) in
  (forall f, In f m -> fm_tag f <> tag) /\
  getMask m tag = Some (0, 0) /\
  getMask1 m tag = Some 0 /\
  needsFallback m tag = Some false /\
  getFeatureIndex m 0 tag = Some NoFeatureIndex /\
  getFeatureIndex m 1 tag = Some NoFeatureIndex.
Proof.
  intros m.
  assert (forall f, In f m -> fm_tag f <> tag) as Habsent.
  { intros f Hf Ht. unfold m in Hf.
    destruct (compile_feature_from _ f Hf) as (r & Hr & Htag & Hv).
    cbn [disableFeature addFeatureExt featureInfos] in Hr.
    match type of Hr with
    | In r (mergeFeatureInfos (_ ++ [?d])) =>
        assert (is_global d = true) as Hd by reflexivity;
        destruct (merged_last_global (featureInfos mb) d r Hd Hr) as [_ Hmax];
          [cbn [Tag]; lia|]
    end.
    apply Hv. exact Hmax. }
  split; [exact Habsent|].
  assert (bsearchFeature m tag = Some None) as Hnone
    by (apply bsearchFeature_absent; [apply compile_sorted|exact Habsent]).
  unfold getMask, getMask1, needsFallback, getFeatureIndex. rewrite Hnone.
  repeat split; reflexivity.
Qed.

(** A global record with value 1 whose feature the language system has
    gets the global bit. *)
Lemma allocate_enabled st info :
  is_global info = true -> maxValue info = 1 -> nextBit st < globalBitShift ->
  findFeatureForLang 0 (Tag info) <> NoFeatureIndex \/
  findFeatureForLang 1 (Tag info) <> NoFeatureIndex ->
  exists f,
    features (allocate requiredFeatureTag findFeatureForLang findFeature st info)
      = features st ++ [f] /\
    fm_tag f = Tag info /\ fm_mask f = globalBitMask /\ fm_shift f = globalBitShift /\
    fm_mask1 f = globalBitMask /\ fm_needsFallback f = false /\
    fm_index f = (findFeatureForLang 0 (Tag info), findFeatureForLang 1 (Tag info)).
Proof.
  unfold is_global. intros Hg Hv Hnb Hfound. unfold allocate.
  rewrite Hg, Hv. change (1 =? 1) with true. change (1 =? 0) with false.
  cbv zeta. cbn [andb orb fst snd].
  rewrite Z.add_0_r.
  destruct (Z.geb_spec (nextBit st) globalBitShift) as [Hge|_]; [lia|].
  assert (negb (findFeatureForLang 0 (Tag info) =? NoFeatureIndex)
          || negb (findFeatureForLang 1 (Tag info) =? NoFeatureIndex) = true) as ->.
  { apply orb_true_iff. destruct Hfound as [Hf|Hf]; [left|right];
      apply negb_true_iff, Z.eqb_neq, Hf. }
  cbn [negb andb]. eexists. cbn [features]. repeat split.
Qed.

(** X13. A feature that is enabled last and that the language system
    of the font has is in the compiled map on the global bit, whatever
    was requested for the tag before: its mask and its value-one mask are
    bit 31, its shift is 31, and it needs no fallback. *)
Theorem enabled_feature_uses_global_bit (mb : otMapBuilder) (tag : Z) :
  findFeatureForLang 0 tag <> NoFeatureIndex \/
  findFeatureForLang 1 tag <> NoFeatureIndex ->
  let m :=
    features (compile requiredFeatureTag findFeatureForLang findFeature
                (featureInfos (enableFeature mb tag))) in
  getMask m tag = Some (globalBitMask, globalBitShift) /\
  getMask1 m tag = Some globalBitMask /\
  needsFallback m tag = Some false /\
  getFeatureIndex m 0 tag = Some (findFeatureForLang 0 tag) /\
  getFeatureIndex m 1 tag = Some (findFeatureForLang 1 tag).
Proof.
  intros Hfound m.
  set (infos := featureInfos (enableFeature mb tag)) in *.
  assert (exists d, infos = featureInfos mb ++ [d] /\ Tag d = tag /\
                    is_global d = true /\ maxValue d = 1)
    as (d & Hinfos & Htd & Hgd & Hvd)
    by (eexists; repeat split).
  destruct (merged_has_tag infos d) as (r & Hr & Htr);
    [rewrite Hinfos; apply in_or_app; right; left; reflexivity|].
  rewrite Hinfos in Hr.
  destruct (merged_last_global (featureInfos mb) d r Hgd Hr Htr) as [Hgr Hvr].
  rewrite <- Hinfos in Hr.
  apply in_split in Hr as (l1 & l2 & Hsplit).
  pose proof (alloc_inv_fold requiredFeatureTag findFeatureForLang findFeature
                l1 [] _ alloc_inv_start) as ((_ & Hnb) & _).
  destruct (allocate_enabled _ r Hgr ltac:(lia) Hnb) as (f & Hf & Htag & Hmask & Hshift
                                                         & Hmask1 & Hfb & Hidx).
  { rewrite Htr, Htd. exact Hfound. }
  assert (In f m) as Hin.
  { unfold m, compile. rewrite Hsplit, fold_left_app. cbn [fold_left].
    apply fold_allocate_keeps. rewrite Hf. apply in_or_app. right. left. reflexivity. }
  assert (fm_tag f = tag) as Hft by lia.
  pose proof (bsearchFeature_found m f (compile_sorted infos) Hin) as Hb.
  rewrite Hft in Hb.
  unfold getMask, getMask1, needsFallback, getFeatureIndex. rewrite Hb.
  cbn [mbind option_bind]. rewrite Hmask, Hshift, Hmask1, Hfb, Hidx, Htr, Htd.
  repeat split; reflexivity.
Qed.

End MapLookupFacts.

(** ** The lookups of a stage *)

Lemma take_take_drop {A : Type} (l : list A) (x y : nat) :
  take x l ++ take y (drop x l) = take (x + y) l.
Proof.
  revert x. induction l as [|a l IH]; intros [|x]; simpl;
    rewrite ?take_nil, ?drop_nil; try reflexivity.
  f_equal. apply IH.
Qed.

Lemma concat_slices {A : Type} (b : nat -> nat) (l : list A) (m : nat) :
  (forall k, (k < m)%nat -> (b k <= b (S k))%nat) ->
  concat (map (fun k => take (b (S k) - b k) (drop (b k) l)) (seq 0 m))
    = take (b m - b 0%nat) (drop (b 0%nat) l).
Proof.
  induction m as [|m IH]; intros Hmono.
  - simpl. rewrite Nat.sub_diag. reflexivity.
  - rewrite seq_S, map_app, concat_app, IH by (intros k Hk; apply Hmono; lia).
    simpl. rewrite app_nil_r.
    assert (b 0%nat <= b m)%nat as Hle.
    { clear IH. induction m as [|m IHm]; [lia|].
      pose proof (Hmono m ltac:(lia)).
      assert (b 0%nat <= b m)%nat by (apply IHm; intros k Hk; apply Hmono; lia). lia. }
    pose proof (Hmono m ltac:(lia)) as Hm.
    replace (drop (b m) l) with (drop (b m - b 0%nat) (drop (b 0%nat) l))
      by (rewrite drop_drop; f_equal; lia).
    rewrite take_take_drop. f_equal. lia.
Qed.

Lemma stageBound_mono lookups stages k :
  stages_wf lookups stages ->
  (stageBound lookups stages k <= stageBound lookups stages (S k))%nat /\
  (stageBound lookups stages k <= length lookups)%nat.
Proof.
  intros [Hs Hb]. rewrite List.Forall_forall in Hb.
  assert (forall i s, stages !! i = Some s -> 0 <= lastLookup s <= Z.of_nat (length lookups))
    as Hin.
  { intros i s Hi. apply Hb, list_elem_of_In, list_elem_of_lookup. eexists. exact Hi. }
  assert (stageBound lookups stages k <= length lookups)%nat as Hk.
  { destruct k as [|k]; simpl; [lia|].
    destruct (stages !! k) as [s|] eqn:Es; [|lia]. pose proof (Hin k s Es). lia. }
  split; [|exact Hk].
  cbn [stageBound] in *. destruct (stages !! k) as [s'|] eqn:Es'.
  - pose proof (Hin k s' Es') as Hs'. destruct k as [|k]; [simpl; lia|]. cbn [stageBound].
    destruct (stages !! k) as [s|] eqn:Es.
    + assert (lastLookup s <= lastLookup s').
      { apply (sorted_at_index _ _ Hs (Z.of_nat k) (Z.of_nat (S k))); [lia| |];
          unfold at_index;
          [destruct (Z.ltb_spec (Z.of_nat k) 0); [lia|]; rewrite Nat2Z.id; exact Es
          |destruct (Z.ltb_spec (Z.of_nat (S k)) 0); [lia|]; rewrite Nat2Z.id; exact Es']. }
      pose proof (Hin k s Es). lia.
    + apply lookup_ge_None in Es. apply lookup_lt_Some in Es'. lia.
  - exact Hk.
Qed.

Lemma getStageLookups_slice lookups stages (k : nat) :
  stages_wf lookups stages -> (k <= length stages)%nat ->
  getStageLookups lookups stages (Z.of_nat k) =
    Some (take (stageBound lookups stages (S k) - stageBound lookups stages k)
            (drop (stageBound lookups stages k) lookups)).
Proof.
  intros Hwf Hk. pose proof (stageBound_mono lookups stages k Hwf) as [Hmono Hlen].
  pose proof (stageBound_mono lookups stages (S k) Hwf) as [_ Hlen'].
  destruct Hwf as [_ Hb]. rewrite List.Forall_forall in Hb.
  assert (forall i s, stages !! i = Some s -> 0 <= lastLookup s <= Z.of_nat (length lookups))
    as Hin.
  { intros i s Hi. apply Hb, list_elem_of_In, list_elem_of_lookup. eexists. exact Hi. }
  unfold getStageLookups.
  destruct (Z.gtb_spec (Z.of_nat k) (Z.of_nat (length stages))) as [Hgt|_]; [lia|].
  assert ((if negb (Z.of_nat k =? 0) then lastLookup <$> at_index stages (Z.of_nat k - 1)
           else Some 0) = Some (Z.of_nat (stageBound lookups stages k))) as ->.
  { destruct k as [|k]; [reflexivity|].
    destruct (Z.eqb_spec (Z.of_nat (S k)) 0) as [Heq|_]; [lia|]. cbn [negb stageBound].
    unfold at_index. destruct (Z.ltb_spec (Z.of_nat (S k) - 1) 0); [lia|].
    replace (Z.to_nat (Z.of_nat (S k) - 1)) with k by lia.
    destruct (lookup_lt_is_Some_2 stages k ltac:(lia)) as [s Es]. rewrite Es.
    pose proof (Hin k s Es). simpl. f_equal. lia. }
  cbn [mbind option_bind].
  assert ((if Z.of_nat k <? Z.of_nat (length stages)
           then lastLookup <$> at_index stages (Z.of_nat k)
           else Some (Z.of_nat (length lookups)))
          = Some (Z.of_nat (stageBound lookups stages (S k)))) as ->.
  { cbn [stageBound]. destruct (Z.ltb_spec (Z.of_nat k) (Z.of_nat (length stages))) as [Hlt|Hge].
    - unfold at_index. destruct (Z.ltb_spec (Z.of_nat k) 0); [lia|]. rewrite Nat2Z.id.
      destruct (lookup_lt_is_Some_2 stages k ltac:(lia)) as [s Es]. rewrite Es.
      pose proof (Hin k s Es). simpl. f_equal. lia.
    - rewrite (lookup_ge_None_2 stages k) by lia. reflexivity. }
  cbn [mbind option_bind].
  destruct (Z.leb_spec 0 (Z.of_nat (stageBound lookups stages k))); [|lia].
  destruct (Z.leb_spec (Z.of_nat (stageBound lookups stages k))
              (Z.of_nat (stageBound lookups stages (S k)))); [|lia].
  destruct (Z.leb_spec (Z.of_nat (stageBound lookups stages (S k)))
              (Z.of_nat (length lookups))); [|lia].
  cbn [andb]. f_equal. f_equal; [lia|]. f_equal. lia.
Qed.

(** X14. On a map whose stage boundaries do not decrease and lie within
    the lookups, [getStageLookups] cuts the lookups into consecutive
    pieces, one for each stage and one for what follows the last stage:
    the pieces, in the order of the stages, make up the lookups again.
    Past that it answers nil, on any map. *)
Theorem getStageLookups_partition (lookups : list lookupMap) (stages : list stageMap) :
  (stages_wf lookups stages ->
   exists slices : list (list lookupMap),
     length slices = S (length stages) /\
     (forall (k : nat) l, slices !! k = Some l ->
        getStageLookups lookups stages (Z.of_nat k) = Some l) /\
     concat slices = lookups) /\
  (forall stage, Z.of_nat (length stages) < stage ->
     getStageLookups lookups stages stage = Some []).
Proof.
  split.
  - intros Hwf.
    exists (map (fun k => take (stageBound lookups stages (S k) - stageBound lookups stages k)
                            (drop (stageBound lookups stages k) lookups))
              (seq 0 (S (length stages)))).
    split; [rewrite length_map, length_seq; reflexivity|]. split.
    + intros k l Hl.
      change (map ?f ?x) with (f <$> x) in Hl. rewrite list_lookup_fmap in Hl.
      destruct (seq 0 (S (length stages)) !! k) as [k'|] eqn:Ek; [|discriminate].
      apply lookup_seq in Ek as [-> Hk]. simpl in Hl. injection Hl as <-.
      apply getStageLookups_slice; [exact Hwf|lia].
    + rewrite (concat_slices (stageBound lookups stages) lookups (S (length stages)))
        by (intros k _; apply stageBound_mono, Hwf).
      cbn [stageBound]. rewrite (lookup_ge_None_2 stages (length stages)) by lia.
      rewrite Nat.sub_0_r. simpl drop. apply take_ge. lia.
  - intros stage Hstage. unfold getStageLookups.
    destruct (Z.gtb_spec stage (Z.of_nat (length stages))); [reflexivity|lia].
Qed.

(** *** A sample font and a sample map *)

(** A font whose language system has 'liga' (feature 3 of GSUB) and
    'kern' (feature 1 of GPOS) and nothing else. *)
Definition sampleFindFeatureForLang (tableIndex tag : Z) : Z :=
  if (tableIndex =? 0) && (tag =? 0x6C696761) then 3
  else if (tableIndex =? 1) && (tag =? 0x6B65726E) then 1
  else NoFeatureIndex.

Definition sampleFindFeature (tableIndex tag : Z) : Z := NoFeatureIndex.

(** A builder that was asked for 'aalt' on a range and for 'liga'
    disabled. *)
Definition sampleBuilder : otMapBuilder :=
  disableFeature (mkMapBuilder ([], []) [aaltRange] (0, 0)) 0x6C696761.

(** Three features in the order of their tags. *)
Definition threeFeatures : list featureMap :=
  [mkFeatureMap 0x61616C74 (0, 0xFFFF) (0, 0) 4 0x70 0x10 false true true false false;
   mkFeatureMap 0x6B65726E (0xFFFF, 1) (0, 0) 31 globalBitMask globalBitMask
     false true true false false;
   mkFeatureMap 0x6C696761 (3, 0xFFFF) (0, 0) 31 globalBitMask globalBitMask
     false true true false false].

(** Three lookups in two stages, and one lookup after the last stage. *)
Definition fourLookups : list lookupMap :=
  [mkLookupMap 2 true true false false 0x6C696761 globalBitMask;
   mkLookupMap 5 true true false false 0x6C696761 globalBitMask;
   mkLookupMap 1 true true false false 0x6B65726E globalBitMask;
   mkLookupMap 7 true true false false 0x6B65726E globalBitMask].

Definition twoStages : list stageMap := [mkStageMap None 2; mkStageMap None 3].

Lemma bsearchFeature_correct_witness :
  features_sorted threeFeatures /\
  bsearchFeature threeFeatures 0x6B65726E
    = Some (Some (mkFeatureMap 0x6B65726E (0xFFFF, 1) (0, 0) 31 globalBitMask globalBitMask
                    false true true false false)) /\
  (bsearchFeature threeFeatures 0x63616C74 = Some None <->
   forall p, In p threeFeatures -> fm_tag p <> 0x63616C74).
Proof.
  assert (features_sorted threeFeatures) as Hs
    by (unfold features_sorted, threeFeatures; repeat constructor; simpl; lia).
  split; [exact Hs|].
  destruct (proj2 (bsearchFeature_correct threeFeatures 0x63616C74) Hs) as [Hfound Habsent].
  split; [|exact Habsent].
  apply (Hfound (mkFeatureMap 0x6B65726E (0xFFFF, 1) (0, 0) 31 globalBitMask globalBitMask
                   false true true false false)).
  right. left. reflexivity.
Defined.

Lemma enabled_feature_uses_global_bit_witness :
  (sampleFindFeatureForLang 0 0x6C696761 <> NoFeatureIndex \/
   sampleFindFeatureForLang 1 0x6C696761 <> NoFeatureIndex) /\
  getMask (features (compile (0, 0) sampleFindFeatureForLang sampleFindFeature
                       (featureInfos (enableFeature sampleBuilder 0x6C696761))))
    0x6C696761 = Some (globalBitMask, globalBitShift).
Proof.
  assert (sampleFindFeatureForLang 0 0x6C696761 <> NoFeatureIndex \/
          sampleFindFeatureForLang 1 0x6C696761 <> NoFeatureIndex) as Hfound
    by (left; discriminate).
  split; [exact Hfound|].
  exact (proj1 (enabled_feature_uses_global_bit (0, 0) sampleFindFeatureForLang
                  sampleFindFeature sampleBuilder 0x6C696761 Hfound)).
Defined.

Lemma getStageLookups_partition_witness :
  stages_wf fourLookups twoStages /\
  exists slices : list (list lookupMap),
    length slices = 3%nat /\
    (forall (k : nat) l, slices !! k = Some l ->
       getStageLookups fourLookups twoStages (Z.of_nat k) = Some l) /\
    concat slices = fourLookups.
Proof.
  assert (stages_wf fourLookups twoStages) as Hwf
    by (split; repeat constructor; simpl; lia).
  split; [exact Hwf|].
  exact (proj1 (getStageLookups_partition fourLookups twoStages) Hwf).
Defined.

(** The stages of the sample map, the stage after the last pause, a
    stage beyond it, and a negative stage. *)
Example sample_stage_lookups :
  getStageLookups fourLookups twoStages 0 = Some (take 2 fourLookups) /\
  getStageLookups fourLookups twoStages 1 = Some (take 1 (drop 2 fourLookups)) /\
  getStageLookups fourLookups twoStages 2 = Some (drop 3 fourLookups) /\
  getStageLookups fourLookups twoStages 3 = Some [] /\
  getStageLookups fourLookups twoStages (-1) = None.
Proof. repeat split; reflexivity. Qed.

(** ** Zero widths *)

Lemma for_range_positions (test : GlyphInfo -> bool) (f : GlyphPosition -> GlyphPosition)
    (info : list GlyphInfo) (n : nat) : forall (a : nat) (pos : list GlyphPosition),
  (a + n <= length info)%nat -> (length info <= length pos)%nat ->
  exists pos',
    for_range
      (fun i pos =>
         g ← info !! i;
         if test g then p ← pos !! i; Some (<[i := f p]> pos) else Some pos)
      a n pos = Some pos' /\
    length pos' = length pos /\
    forall i : nat,
      pos' !! i =
        if (a <=? i)%nat && (i <? a + n)%nat then
          match info !! i with
          | Some g => if test g then f <$> pos !! i else pos !! i
          | None => pos !! i
          end
        else pos !! i.
Proof.
  induction n as [|n IH]; intros a pos Ha Hlen.
  - exists pos. split; [reflexivity|]. split; [reflexivity|]. intros i.
    nat_bools; try reflexivity; lia.
  - destruct (lookup_lt_is_Some_2 info a) as [g Hg]; [lia|].
    destruct (lookup_lt_is_Some_2 pos a) as [p Hp]; [lia|].
    set (pos1 := if test g then <[a := f p]> pos else pos).
    assert (length pos1 = length pos) as Hlen1
      by (unfold pos1; destruct (test g); [apply length_insert|reflexivity]).
    destruct (IH (S a) pos1) as (pos' & Hrun & Hlen' & Hk); [lia|lia|].
    exists pos'. split.
    { cbn [for_range]. rewrite Hg. cbn [mbind option_bind]. unfold pos1 in Hrun.
      destruct (test g); [rewrite Hp; cbn [mbind option_bind]|]; exact Hrun. }
    split; [lia|].
    intros i. rewrite Hk.
    destruct (Nat.eq_dec i a) as [->|Hne].
    + rewrite Hg. unfold pos1.
      destruct (test g); [rewrite list_lookup_insert_eq by lia; rewrite Hp|];
        nat_bools; try reflexivity; lia.
    + assert (pos1 !! i = pos !! i) as ->
        by (unfold pos1; destruct (test g); [apply list_lookup_insert_ne; lia|reflexivity]).
      nat_bools; try reflexivity; lia.
Qed.

Lemma updatePositions_spec test f info pos :
  (length info <= length pos)%nat ->
  exists pos',
    updatePositions test f info pos = Some pos' /\
    length pos' = length pos /\
    forall i : nat,
      pos' !! i =
        match info !! i with
        | Some g => if test g then f <$> pos !! i else pos !! i
        | None => pos !! i
        end.
Proof.
  intros Hlen.
  destruct (for_range_positions test f info (length info) 0 pos) as (pos' & Hrun & Hl & Hk);
    [lia|exact Hlen|].
  exists pos'. split; [exact Hrun|]. split; [exact Hl|].
  intros i. rewrite Hk. cbn [Nat.add].
  destruct (Nat.ltb_spec i (length info)) as [Hlt|Hge]; cbn [Nat.leb andb]; [reflexivity|].
  rewrite (lookup_ge_None_2 info i) by lia. reflexivity.
Qed.

Section ZeroWidthFacts.
Context `{PackageConstants} `{BufferOps} `{GlyphConstants}.

Lemma zeroWidthDefaultIgnorables_active (buffer : Buffer) :
  has_bits (scratchFlags buffer) bsfHasDefaultIgnorables = true ->
  has_bits (Flags buffer) PreserveDefaultIgnorables = false ->
  has_bits (Flags buffer) RemoveDefaultIgnorables = false ->
  (length (Info buffer) <= length (Pos buffer))%nat ->
  exists pos',
    zeroWidthDefaultIgnorables buffer = Some (set_Pos buffer pos') /\
    length pos' = length (Pos buffer) /\
    forall i : nat,
      pos' !! i =
        match Info buffer !! i with
        | Some g =>
            if isDefaultIgnorable g then zeroPosition <$> Pos buffer !! i
            else Pos buffer !! i
        | None => Pos buffer !! i
        end.
Proof.
  intros Hscratch Hpres Hrem Hlen. unfold zeroWidthDefaultIgnorables.
  rewrite Hscratch, Hpres, Hrem. cbn [negb orb].
  destruct (updatePositions_spec isDefaultIgnorable zeroPosition _ _ Hlen)
    as (pos' & Hrun & Hl & Hk).
  exists pos'. rewrite Hrun. split; [reflexivity|]. split; [exact Hl|]. exact Hk.
Qed.

Lemma int32_range (z : Z) : - 2 ^ 31 <= int32 z < 2 ^ 31.
Proof. unfold int32. pose proof (Z.mod_pos_bound (z + 2 ^ 31) (2 ^ 32)). lia. Qed.

Lemma int32_small (z : Z) : - 2 ^ 31 <= z < 2 ^ 31 -> int32 z = z.
Proof. intros Hz. unfold int32. rewrite Z.mod_small by lia. lia. Qed.

Lemma zeroMarkWidth_idem (adjustOffsets : bool) (p : GlyphPosition) :
  zeroMarkWidth adjustOffsets (zeroMarkWidth adjustOffsets p)
    = zeroMarkWidth adjustOffsets p.
Proof.
  unfold zeroMarkWidth. destruct adjustOffsets; cbn; [|reflexivity].
  rewrite !Z.sub_0_r.
  rewrite (int32_small (int32 (XOffset p - XAdvance p))) by apply int32_range.
  rewrite (int32_small (int32 (YOffset p - YAdvance p))) by apply int32_range.
  reflexivity.
Qed.

(** X15. With a position for every glyph, [zeroWidthDefaultIgnorables]
    returns and touches positions only: when default ignorables are
    recorded and neither PreserveDefaultIgnorables nor
    RemoveDefaultIgnorables is set, the advances and offsets of every
    default ignorable become zero and its attachment is kept; all other
    positions stay, and under any other flags every position stays. *)
Theorem zeroWidthDefaultIgnorables_zeroes (buffer : Buffer) :
  (length (Info buffer) <= length (Pos buffer))%nat ->
  let active :=
    has_bits (scratchFlags buffer) bsfHasDefaultIgnorables
    && negb (has_bits (Flags buffer) PreserveDefaultIgnorables)
    && negb (has_bits (Flags buffer) RemoveDefaultIgnorables) in
  exists pos',
    zeroWidthDefaultIgnorables buffer = Some (set_Pos buffer pos') /\
    length pos' = length (Pos buffer) /\
    forall i : nat,
      pos' !! i =
        match Info buffer !! i with
        | Some g =>
            if active && isDefaultIgnorable g then zeroPosition <$> Pos buffer !! i
            else Pos buffer !! i
        | None => Pos buffer !! i
        end.
Proof.
  intros Hlen active. unfold zeroWidthDefaultIgnorables.
  destruct (has_bits (scratchFlags buffer) bsfHasDefaultIgnorables) eqn:Escratch,
    (has_bits (Flags buffer) PreserveDefaultIgnorables) eqn:Epres,
    (has_bits (Flags buffer) RemoveDefaultIgnorables) eqn:Erem;
    cbn [negb orb andb] in *;
    try (exists (Pos buffer); split; [destruct buffer; reflexivity|];
         split; [reflexivity|]; intros i; destruct (Info buffer !! i); reflexivity).
  destruct (updatePositions_spec isDefaultIgnorable zeroPosition _ _ Hlen)
    as (pos' & Hrun & Hl & Hk).
  exists pos'. rewrite Hrun. split; [reflexivity|]. split; [exact Hl|]. exact Hk.
Qed.

(** X16. A default ignorable is replaced by a zero-advance invisible
    glyph.  When default ignorables are recorded, neither
    PreserveDefaultIgnorables nor RemoveDefaultIgnorables is set, no
    Invisible glyph is given and the font has a space glyph, then
    [zeroWidthDefaultIgnorables] followed by [hideDefaultIgnorables]
    leaves, in the place of every default ignorable, the space glyph with
    zero advances and offsets, and every other glyph and position as it
    was. *)
Theorem default_ignorables_become_zero_width_spaces (buffer : Buffer) (font : Font)
    (space : Z) :
  has_bits (scratchFlags buffer) bsfHasDefaultIgnorables = true ->
  has_bits (Flags buffer) PreserveDefaultIgnorables = false ->
  has_bits (Flags buffer) RemoveDefaultIgnorables = false ->
  Invisible buffer = 0 -> NominalGlyph font 32 = (space, true) ->
  (length (Info buffer) <= length (Pos buffer))%nat ->
  exists zeroed,
    zeroWidthDefaultIgnorables buffer = Some zeroed /\
    let hidden := hideDefaultIgnorables zeroed font in
    length (Info hidden) = length (Info buffer) /\
    length (Pos hidden) = length (Pos buffer) /\
    forall (i : nat) g, Info buffer !! i = Some g ->
      if isDefaultIgnorable g then
        Info hidden !! i = Some (set_Glyph g space) /\
        Pos hidden !! i = zeroPosition <$> Pos buffer !! i
      else
        Info hidden !! i = Some g /\ Pos hidden !! i = Pos buffer !! i.
Proof.
  intros Hscratch Hpres Hrem Hinv Hspace Hlen.
  destruct (zeroWidthDefaultIgnorables_active buffer Hscratch Hpres Hrem Hlen)
    as (pos' & Hrun & Hl & Hk).
  exists (set_Pos buffer pos'). split; [exact Hrun|].
  assert (hide_branch (set_Pos buffer pos') font = HideReplace space) as Hb.
  { unfold hide_branch. cbn [scratchFlags Flags Invisible set_Pos].
    rewrite Hscratch, Hpres, Hrem, Hinv, Hspace. reflexivity. }
  rewrite hideDefaultIgnorables_branch, Hb. cbn [Info Pos set_Info set_Pos].
  split; [apply List.length_map|]. split; [exact Hl|].
  intros i g Hg. rewrite lookup_map, Hg, Hk, Hg. cbn [fmap option_fmap option_map].
  destruct (isDefaultIgnorable g); split; reflexivity.
Qed.

(** X17. With a position for every glyph, [zeroMarkWidthsByGdef]
    returns; every glyph of GDEF class mark gets advances zero and, when
    offsets are adjusted, its offsets moved back by its old advances (in
    32-bit arithmetic); nothing else changes.  Running it a second time
    changes nothing more. *)
Theorem zeroMarkWidthsByGdef_zeroes (buffer : Buffer) (adjustOffsets : bool) :
  (length (Info buffer) <= length (Pos buffer))%nat ->
  exists pos',
    zeroMarkWidthsByGdef buffer adjustOffsets = Some (set_Pos buffer pos') /\
    length pos' = length (Pos buffer) /\
    (forall i : nat,
       pos' !! i =
         match Info buffer !! i with
         | Some g =>
             if isMark g then zeroMarkWidth adjustOffsets <$> Pos buffer !! i
             else Pos buffer !! i
         | None => Pos buffer !! i
         end) /\
    (forall p, XAdvance (zeroMarkWidth adjustOffsets p) = 0 /\
               YAdvance (zeroMarkWidth adjustOffsets p) = 0 /\
               attachChain (zeroMarkWidth adjustOffsets p) = attachChain p /\
               attachType (zeroMarkWidth adjustOffsets p) = attachType p) /\
    zeroMarkWidthsByGdef (set_Pos buffer pos') adjustOffsets
      = Some (set_Pos buffer pos').
Proof.
  intros Hlen. unfold zeroMarkWidthsByGdef.
  destruct (updatePositions_spec isMark (zeroMarkWidth adjustOffsets) _ _ Hlen)
    as (pos' & Hrun & Hl & Hk).
  exists pos'. rewrite Hrun. split; [reflexivity|]. split; [exact Hl|].
  split; [exact Hk|]. split.
  { intros p. unfold zeroMarkWidth. destruct adjustOffsets; repeat split. }
  cbn [Info Pos set_Pos].
  destruct (updatePositions_spec isMark (zeroMarkWidth adjustOffsets) (Info buffer) pos')
    as (pos'' & Hrun' & Hl' & Hk'); [lia|].
  rewrite Hrun'. cbn [mbind option_bind]. f_equal. unfold set_Pos. cbn. f_equal.
  apply list_eq. intros i. rewrite Hk', Hk.
  destruct (Info buffer !! i) as [g|]; [|reflexivity].
  destruct (isMark g); [|reflexivity].
  destruct (Pos buffer !! i) as [p|]; [|reflexivity]. cbn. f_equal.
  apply zeroMarkWidth_idem.
Qed.

End ZeroWidthFacts.

(** ** Vertical forms *)

Lemma vertCharFor_table (u : Z) :
  vertCharFor u = u \/ In (u, vertCharFor u) vertTable.
Proof.
  unfold vertCharFor.
  repeat match goal with
  | |- context [if ?a =? ?b then _ else _] =>
      destruct (Z.eqb_spec a b) as [->|?]
  | |- context [if Z.shiftr ?a 8 =? ?b then _ else _] =>
      destruct (Z.eqb_spec (Z.shiftr a 8) b)
  end;
  try (left; reflexivity); right; unfold vertTable; simpl; tauto.
Qed.

Lemma vertTable_ok : forallb vertRow_ok vertTable = true.
Proof. vm_compute. reflexivity. Qed.

(** X18. [vertCharFor] changes a character only into one of the
    vertical presentation forms U+FE10..U+FE48; a form it gives is left
    alone when the function is applied again, and two different
    characters that it changes never get the same form. *)
Theorem vertCharFor_vertical_forms (u : Z) :
  (vertCharFor u = u \/ 0xfe10 <= vertCharFor u <= 0xfe48) /\
  vertCharFor (vertCharFor u) = vertCharFor u /\
  (forall v, vertCharFor u <> u -> vertCharFor v <> v ->
     vertCharFor u = vertCharFor v -> u = v).
Proof.
  pose proof vertTable_ok as T. rewrite forallb_forall in T.
  assert (forall x, vertCharFor x <> x ->
            In (x, vertCharFor x) vertTable /\ vertRow_ok (x, vertCharFor x) = true) as Hrow.
  { intros x Hx. destruct (vertCharFor_table x) as [Hfix|Hin]; [contradiction|].
    split; [exact Hin|apply T, Hin]. }
  destruct (Z.eq_dec (vertCharFor u) u) as [Hfix|Hch].
  - split; [left; exact Hfix|]. split; [rewrite Hfix; exact Hfix|]. contradiction.
  - destruct (Hrow u Hch) as [Hin Hok]. unfold vertRow_ok in Hok. cbn [fst snd] in Hok.
    apply andb_prop in Hok as [Hok Hall]. apply andb_prop in Hok as [Hok Hne].
    apply andb_prop in Hok as [Hok Hidem]. apply andb_prop in Hok as [Hok Hhi].
    apply andb_prop in Hok as [_ Hlo].
    split; [right; lia|]. split; [apply Z.eqb_eq; exact Hidem|].
    intros v _ Hv Heq. destruct (Hrow v Hv) as [Hinv _].
    rewrite forallb_forall in Hall. specialize (Hall _ Hinv). cbn [fst snd] in Hall.
    apply orb_prop in Hall as [Hdiff|Hsame].
    + apply negb_true_iff, Z.eqb_neq in Hdiff. congruence.
    + apply Z.eqb_eq in Hsame. congruence.
Qed.

(** *** Zero widths on a sample buffer *)

(** The letters a and b around a ZERO WIDTH JOINER, positioned; no buffer
    flag, no Invisible glyph. *)
Definition zwjPositioned : Buffer :=
  set_Pos (zwjBuffer 0 0)
    [mkGlyphPosition 600 0 0 0 0 0; mkGlyphPosition 250 10 0 (-5) 0 0;
     mkGlyphPosition 610 0 0 0 0 0].

(** A base and two marks above it, positioned. *)
Definition marksPositioned : Buffer :=
  mkBuffer [mkGlyphInfo 0 0x65 72 0 0x02 0 0 0 0 0;
            mkGlyphInfo 0 0x0301 130 0 0x08 0 0 0 0 0;
            mkGlyphInfo 0 0x0323 131 0 0x08 0 0 0 0 0]
           [mkGlyphPosition 500 0 0 0 0 0; mkGlyphPosition 120 40 0 300 0 0;
            mkGlyphPosition 90 35 0 (-80) 0 0]
           0 0 0 0 0 0.

Lemma zeroWidthDefaultIgnorables_zeroes_witness :
  (length (Info zwjPositioned) <= length (Pos zwjPositioned))%nat /\
  exists pos',
    zeroWidthDefaultIgnorables zwjPositioned = Some (set_Pos zwjPositioned pos') /\
    pos' !! 1%nat = Some (mkGlyphPosition 0 0 0 0 0 0) /\
    pos' !! 2%nat = Some (mkGlyphPosition 610 0 0 0 0 0).
Proof.
  assert (length (Info zwjPositioned) <= length (Pos zwjPositioned))%nat as Hlen
    by (simpl; lia).
  split; [exact Hlen|].
  destruct (zeroWidthDefaultIgnorables_zeroes zwjPositioned Hlen) as (pos' & Hrun & _ & Hk).
  exists pos'. split; [exact Hrun|]. split; [exact (Hk 1%nat)|exact (Hk 2%nat)].
Defined.

Lemma default_ignorables_become_zero_width_spaces_witness :
  (has_bits (scratchFlags zwjPositioned) bsfHasDefaultIgnorables = true /\
   has_bits (Flags zwjPositioned) PreserveDefaultIgnorables = false /\
   has_bits (Flags zwjPositioned) RemoveDefaultIgnorables = false /\
   Invisible zwjPositioned = 0 /\ NominalGlyph spaceFont 32 = (3, true) /\
   (length (Info zwjPositioned) <= length (Pos zwjPositioned))%nat) /\
  exists zeroed,
    zeroWidthDefaultIgnorables zwjPositioned = Some zeroed /\
    Glyph <$> Info (hideDefaultIgnorables zeroed spaceFont) !! 1%nat = Some 3 /\
    Pos (hideDefaultIgnorables zeroed spaceFont) !! 1%nat
      = Some (mkGlyphPosition 0 0 0 0 0 0).
Proof.
  assert (length (Info zwjPositioned) <= length (Pos zwjPositioned))%nat as Hlen
    by (simpl; lia).
  assert (has_bits (scratchFlags zwjPositioned) bsfHasDefaultIgnorables = true) as Hs
    by reflexivity.
  assert (has_bits (Flags zwjPositioned) PreserveDefaultIgnorables = false) as Hp
    by reflexivity.
  assert (has_bits (Flags zwjPositioned) RemoveDefaultIgnorables = false) as Hr
    by reflexivity.
  assert (Invisible zwjPositioned = 0) as Hi by reflexivity.
  assert (NominalGlyph spaceFont 32 = (3, true)) as Hg by reflexivity.
  split; [repeat split; assumption|].
  destruct (default_ignorables_become_zero_width_spaces zwjPositioned spaceFont 3
              Hs Hp Hr Hi Hg Hlen)
    as (zeroed & Hrun & _ & _ & Hk).
  exists zeroed. split; [exact Hrun|].
  destruct (Hk 1%nat (mkGlyphInfo 1 0x200D 900 0 0 0 0 upropsMaskIgnorable 0 0) eq_refl)
    as [Hinfo Hpos].
  split; [rewrite Hinfo; reflexivity|exact Hpos].
Defined.

Lemma zeroMarkWidthsByGdef_zeroes_witness :
  (length (Info marksPositioned) <= length (Pos marksPositioned))%nat /\
  exists pos',
    zeroMarkWidthsByGdef marksPositioned true = Some (set_Pos marksPositioned pos') /\
    pos' !! 0%nat = Some (mkGlyphPosition 500 0 0 0 0 0) /\
    pos' !! 1%nat = Some (mkGlyphPosition 0 (-80) 0 300 0 0).
Proof.
  assert (length (Info marksPositioned) <= length (Pos marksPositioned))%nat as Hlen
    by (simpl; lia).
  split; [exact Hlen|].
  destruct (zeroMarkWidthsByGdef_zeroes marksPositioned true Hlen)
    as (pos' & Hrun & _ & Hk & _).
  exists pos'. split; [exact Hrun|]. split; [exact (Hk 0%nat)|exact (Hk 1%nat)].
Defined.

(** ** Finishing the offsets *)

Lemma settled_refl p : settled p p.
Proof. unfold settled. auto. Qed.

Lemma settled_trans p q r : settled p q -> settled q r -> settled p r.
Proof.
  unfold settled. intros (Hx & Hy & Ht & Hc) (Hx' & Hy' & Ht' & Hc').
  repeat split; try congruence. destruct Hc, Hc'; [left|right|right|right]; congruence.
Qed.

Lemma settles_refl pos : Forall2 settled pos pos.
Proof. induction pos; constructor; [apply settled_refl|assumption]. Qed.

Lemma settles_trans pos : forall pos' pos'',
  Forall2 settled pos pos' -> Forall2 settled pos' pos'' -> Forall2 settled pos pos''.
Proof.
  induction pos as [|p pos IH]; intros pos' pos'' H1 H2.
  - inversion H1; subst. inversion H2; subst. constructor.
  - inversion H1; subst. inversion H2; subst. constructor.
    + eapply settled_trans; eassumption.
    + eapply IH; eassumption.
Qed.

Lemma settles_insert pos (i : nat) p q :
  pos !! i = Some p -> settled p q -> Forall2 settled pos (<[i := q]> pos).
Proof.
  intros Hp Hq. rewrite <- (list_insert_id pos i p Hp) at 1.
  apply Forall2_insert; [apply settles_refl|exact Hq].
Qed.

Lemma pending_settles pos : forall pos',
  Forall2 settled pos pos' -> (pending pos' <= pending pos)%nat.
Proof.
  unfold pending. induction pos as [|p pos IH]; intros pos' Hs; inversion Hs; subst;
    [simpl; lia|].
  match goal with Hh : settled p ?y, Ht : Forall2 settled pos ?l' |- _ =>
    specialize (IH _ Ht); destruct Hh as (_ & _ & _ & [Hc|Hc]); simpl; rewrite Hc
  end.
  - destruct (negb (attachChain p =? 0)); simpl; lia.
  - change (negb (0 =? 0)) with false. cbn iota. destruct (negb (attachChain p =? 0));
      simpl; lia.
Qed.

Lemma pending_clear pos : forall (i : nat) p,
  pos !! i = Some p -> attachChain p <> 0 ->
  (pending (<[i := set_attachChain p 0]> pos) < pending pos)%nat.
Proof.
  unfold pending. induction pos as [|q pos IH]; intros [|i] p Hp Hc; simpl in *;
    try discriminate.
  - injection Hp as ->. apply Z.eqb_neq in Hc. rewrite Hc. simpl. lia.
  - specialize (IH i p Hp Hc). destruct (negb (attachChain q =? 0)); simpl; lia.
Qed.

Lemma pending_le_length pos : (pending pos <= length pos)%nat.
Proof. unfold pending. apply List.filter_length_le. Qed.

Lemma at_index_nat {A : Type} (l : list A) (i : Z) (x : A) :
  at_index l i = Some x -> l !! Z.to_nat i = Some x /\ 0 <= i.
Proof.
  unfold at_index. destruct (Z.ltb_spec i 0); [discriminate|]. intros Hx. split; [exact Hx|lia].
Qed.

Lemma chains_ok_settles pos pos' :
  chains_ok pos -> Forall2 settled pos pos' -> chains_ok pos'.
Proof.
  intros Hok Hs i p' Hp' Hc.
  destruct (at_index_nat _ _ _ Hp') as [Hn Hi].
  destruct (Forall2_lookup_r _ _ _ _ _ Hs Hn) as (p & Hp & _ & _ & Ht & Hch).
  destruct Hch as [Hch|Hch]; [|contradiction].
  rewrite Hch, Ht. apply Hok; [|lia].
  unfold at_index. destruct (Z.ltb_spec i 0); [lia|exact Hp].
Qed.

Lemma fold_offsets_settled (f : GlyphPosition -> GlyphPosition -> GlyphPosition)
    (run : list GlyphPosition) :
  (forall q p, settled q (f q p)) ->
  forall q, settled q (fold_left f run q).
Proof.
  intros Hf. induction run as [|p run IH]; intros q; simpl; [apply settled_refl|].
  eapply settled_trans; [apply Hf|apply IH].
Qed.

Lemma set_offsets_settled p x y : settled p (set_offsets p x y).
Proof. unfold settled. simpl. auto. Qed.

Lemma propagate_spec (direction : Direction) (fuel : nat) : forall pos i,
  chains_ok pos -> (pending pos < fuel)%nat -> 0 <= i < Z.of_nat (length pos) ->
  exists pos',
    propagateAttachmentOffsets fuel pos i direction = Some pos' /\
    Forall2 settled pos pos' /\
    exists p', at_index pos' i = Some p' /\ attachChain p' = 0.
Proof.
  induction fuel as [|fuel IH]; intros pos i Hok Hfuel Hi; [lia|].
  destruct (at_index_is_Some pos i Hi) as [p Hp].
  destruct (at_index_nat _ _ _ Hp) as [Hpn _].
  cbn [propagateAttachmentOffsets]. rewrite Hp. cbn [mbind option_bind].
  destruct (Z.eqb_spec (attachChain p) 0) as [Hz|Hnz].
  { exists pos. split; [reflexivity|]. split; [apply settles_refl|]. exists p. auto. }
  set (pos1 := <[Z.to_nat i := set_attachChain p 0]> pos).
  assert (Forall2 settled pos pos1) as Hs1.
  { apply (settles_insert pos _ p); [exact Hpn|]. unfold settled. simpl. auto. }
  assert (length pos1 = length pos) as Hl1 by apply length_insert.
  assert (at_index pos1 i = Some (set_attachChain p 0)) as Hp1.
  { unfold at_index, pos1. destruct (Z.ltb_spec i 0); [lia|].
    apply list_lookup_insert_eq. lia. }
  destruct (Hok i p Hp Hnz) as [Hj Hback].
  destruct (Z.geb_spec (i + attachChain p) (Z.of_nat (length pos1))) as [Hout|Hin].
  { exists pos1. split; [reflexivity|]. split; [exact Hs1|]. eexists. split; [exact Hp1|].
    reflexivity. }
  destruct (IH pos1 (i + attachChain p)) as (pos2 & Hrun & Hs2 & _).
  { apply (chains_ok_settles pos); assumption. }
  { pose proof (pending_clear pos (Z.to_nat i) p Hpn Hnz). fold pos1 in H. lia. }
  { lia. }
  rewrite Hrun. cbn [mbind option_bind].
  pose proof (Forall2_length _ _ _ Hs2) as Hl2.
  destruct (at_index_is_Some pos2 i ltac:(lia)) as [pi Hpi].
  destruct (at_index_is_Some pos2 (i + attachChain p) ltac:(lia)) as [pj Hpj].
  rewrite Hpi, Hpj. cbn [mbind option_bind].
  destruct (at_index_nat _ _ _ Hpi) as [Hpin _].
  destruct (at_index_nat _ _ _ Hp1) as [Hp1n _].
  assert (attachChain pi = 0) as Hci.
  { destruct (Forall2_lookup_lr _ _ _ _ _ _ Hs2 Hp1n Hpin) as (_ & _ & _ & [Hc|Hc]);
      [rewrite Hc; reflexivity|exact Hc]. }
  assert (forall q, settled pi q ->
            exists pos', Some (<[Z.to_nat i := q]> pos2) = Some pos' /\
              Forall2 settled pos pos' /\
              exists p', at_index pos' i = Some p' /\ attachChain p' = 0) as Hfinish.
  { intros q Hq. eexists. split; [reflexivity|]. split.
    - eapply settles_trans; [exact Hs1|]. eapply settles_trans; [exact Hs2|].
      apply (settles_insert pos2 _ pi q Hpin Hq).
    - exists q. split.
      + unfold at_index. destruct (Z.ltb_spec i 0); [lia|].
        apply list_lookup_insert_eq. lia.
      + destruct Hq as (_ & _ & _ & [Hc|Hc]); [rewrite Hc; exact Hci|exact Hc]. }
  destruct (Z.land (attachType p) attachTypeCursive =? 0) eqn:Hcur; cbn [negb].
  - apply Z.eqb_eq in Hcur. specialize (Hback Hcur).
    destruct (isForward direction).
    + assert (sliceZ pos2 (i + attachChain p) i
              = Some (take (Z.to_nat (i - (i + attachChain p)))
                        (drop (Z.to_nat (i + attachChain p)) pos2))) as ->.
      { unfold sliceZ.
        destruct (Z.leb_spec 0 (i + attachChain p)); [|lia].
        destruct (Z.leb_spec (i + attachChain p) i); [|lia].
        destruct (Z.leb_spec i (Z.of_nat (length pos2))); [|lia]. reflexivity. }
      cbn [mbind option_bind]. apply Hfinish.
      eapply settled_trans; [apply set_offsets_settled|].
      apply fold_offsets_settled. intros q0 p0. apply set_offsets_settled.
    + assert (sliceZ pos2 (i + attachChain p + 1) (i + 1)
              = Some (take (Z.to_nat (i + 1 - (i + attachChain p + 1)))
                        (drop (Z.to_nat (i + attachChain p + 1)) pos2))) as ->.
      { unfold sliceZ.
        destruct (Z.leb_spec 0 (i + attachChain p + 1)); [|lia].
        destruct (Z.leb_spec (i + attachChain p + 1) (i + 1)); [|lia].
        destruct (Z.leb_spec (i + 1) (Z.of_nat (length pos2))); [|lia]. reflexivity. }
      cbn [mbind option_bind]. apply Hfinish.
      eapply settled_trans; [apply set_offsets_settled|].
      apply fold_offsets_settled. intros q0 p0. apply set_offsets_settled.
  - destruct (isHorizontal direction); apply Hfinish, set_offsets_settled.
Qed.

Lemma finish_loop (direction : Direction) (n : nat) : forall (a : nat) pos,
  chains_ok pos -> (a + n = length pos)%nat ->
  (forall (m : nat) p, (m < a)%nat -> pos !! m = Some p -> attachChain p = 0) ->
  exists pos',
    for_range
      (fun i pos =>
         propagateAttachmentOffsets (S (length pos)) pos (Z.of_nat i) direction)
      a n pos = Some pos' /\
    Forall2 settled pos pos' /\
    forall (m : nat) p, pos' !! m = Some p -> attachChain p = 0.
Proof.
  induction n as [|n IH]; intros a pos Hok Han Hdone.
  - exists pos. split; [reflexivity|]. split; [apply settles_refl|].
    intros m p Hp. apply (Hdone m p); [|exact Hp]. apply lookup_lt_Some in Hp. lia.
  - destruct (propagate_spec direction (S (length pos)) pos (Z.of_nat a))
      as (pos1 & Hrun & Hs1 & p1 & Hp1 & Hc1);
      [exact Hok|pose proof (pending_le_length pos); lia|lia|].
    pose proof (Forall2_length _ _ _ Hs1) as Hl1.
    destruct (IH (S a) pos1) as (pos' & Hrun' & Hs' & Hall).
    + apply (chains_ok_settles pos); assumption.
    + lia.
    + intros m p Hm Hp. destruct (Nat.eq_dec m a) as [->|Hne].
      * destruct (at_index_nat _ _ _ Hp1) as [Hp1n _]. rewrite Nat2Z.id in Hp1n. congruence.
      * destruct (Forall2_lookup_r _ _ _ _ _ Hs1 Hp) as (p0 & Hp0 & _ & _ & _ & [Hc|Hc]);
          [|exact Hc].
        rewrite Hc. apply (Hdone m p0); [lia|exact Hp0].
    + exists pos'. split; [|split; [eapply settles_trans; eassumption|exact Hall]].
      cbn [for_range]. rewrite Hrun. exact Hrun'.
Qed.

Section FinishFacts.
Context `{PackageConstants}.

(** X19. [positionFinishOffsetsGPOS] always comes to an end, even on
    attachment chains that run in a circle.  When no chain points before
    the first glyph and every mark attachment points back, it returns;
    on a buffer with GPOS attachments recorded every attach-chain is
    then cleared, and in any case advances and attachment types are as
    before and a chain is either as before or cleared. *)
Theorem positionFinishOffsetsGPOS_clears_chains (buffer : Buffer) (direction : Direction) :
  chains_ok (Pos buffer) ->
  exists pos',
    positionFinishOffsetsGPOS buffer direction = Some (set_Pos buffer pos') /\
    Forall2 settled (Pos buffer) pos' /\
    (has_bits (scratchFlags buffer) bsfHasGPOSAttachment = true ->
     forall p, In p pos' -> attachChain p = 0) /\
    (has_bits (scratchFlags buffer) bsfHasGPOSAttachment = false -> pos' = Pos buffer).
Proof.
  intros Hok. unfold positionFinishOffsetsGPOS.
  destruct (has_bits (scratchFlags buffer) bsfHasGPOSAttachment).
  - destruct (finish_loop direction (length (Pos buffer)) 0 (Pos buffer))
      as (pos' & Hrun & Hs & Hall); [exact Hok|lia|intros m p Hm; lia|].
    exists pos'. rewrite Hrun. split; [reflexivity|]. split; [exact Hs|].
    split; [|discriminate].
    intros _ p Hp. apply list_elem_of_In, list_elem_of_lookup in Hp as [m Hm].
    apply (Hall m p Hm).
  - exists (Pos buffer). split; [destruct buffer; reflexivity|].
    split; [apply settles_refl|]. split; [discriminate|reflexivity].
Qed.

End FinishFacts.

Lemma int32_sub_l (a x : Z) : int32 (int32 a - x) = int32 (a - x).
Proof.
  unfold int32. f_equal.
  replace ((a + 2 ^ 31) mod 2 ^ 32 - 2 ^ 31 - x + 2 ^ 31)
    with ((a + 2 ^ 31) mod 2 ^ 32 - x) by lia.
  rewrite Zminus_mod_idemp_l. f_equal. lia.
Qed.

Lemma int32_add_l (a x : Z) : int32 (int32 a + x) = int32 (a + x).
Proof.
  replace (int32 a + x) with (int32 a - (- x)) by lia.
  rewrite int32_sub_l. f_equal. lia.
Qed.

Lemma fold_sub_advances (run : list GlyphPosition) : forall (q : GlyphPosition) (a b : Z),
  XOffset q = int32 a -> YOffset q = int32 b ->
  fold_left
    (fun pi p =>
       set_offsets pi (int32 (XOffset pi - XAdvance p)) (int32 (YOffset pi - YAdvance p)))
    run q
  = set_offsets q (int32 (a - sumXAdvance run)) (int32 (b - sumYAdvance run)).
Proof.
  unfold sumXAdvance, sumYAdvance.
  induction run as [|p run IH]; intros q a b Hx Hy; simpl.
  - rewrite !Z.sub_0_r, <- Hx, <- Hy. destruct q; reflexivity.
  - rewrite (IH _ (a - XAdvance p) (b - YAdvance p)).
    + unfold set_offsets. simpl. f_equal; f_equal; lia.
    + simpl. rewrite Hx. apply int32_sub_l.
    + simpl. rewrite Hy. apply int32_sub_l.
Qed.

Lemma fold_add_advances (run : list GlyphPosition) : forall (q : GlyphPosition) (a b : Z),
  XOffset q = int32 a -> YOffset q = int32 b ->
  fold_left
    (fun pi p =>
       set_offsets pi (int32 (XOffset pi + XAdvance p)) (int32 (YOffset pi + YAdvance p)))
    run q
  = set_offsets q (int32 (a + sumXAdvance run)) (int32 (b + sumYAdvance run)).
Proof.
  unfold sumXAdvance, sumYAdvance.
  induction run as [|p run IH]; intros q a b Hx Hy; simpl.
  - rewrite !Z.add_0_r, <- Hx, <- Hy. destruct q; reflexivity.
  - rewrite (IH _ (a + XAdvance p) (b + YAdvance p)).
    + unfold set_offsets. simpl. f_equal; f_equal; lia.
    + simpl. rewrite Hx. apply int32_add_l.
    + simpl. rewrite Hy. apply int32_add_l.
Qed.

(** X20. A mark attached to a glyph that is itself unattached ends up
    relative to that glyph.  For a mark at [i] attached back to the
    glyph at [j], [propagateAttachmentOffsets] clears the mark's chain
    and adds to its offsets the offsets of the glyph; in forward text it
    then takes off the advances of the glyphs from [j] up to the mark, in
    backward text it adds the advances of the glyphs after [j] up to and
    with the mark; all in 32-bit arithmetic.  No other position
    changes. *)
Theorem mark_offsets_follow_the_base (pos : list GlyphPosition) (i j : Z)
    (mark base : GlyphPosition) (direction : Direction) (fuel : nat) :
  at_index pos i = Some mark -> at_index pos j = Some base -> j < i ->
  attachChain mark = j - i ->
  Z.land (attachType mark) attachTypeCursive = 0 ->
  attachChain base = 0 ->
  (2 <= fuel)%nat ->
  propagateAttachmentOffsets fuel pos i direction =
    Some (<[Z.to_nat i :=
              if isForward direction then
                let run := take (Z.to_nat (i - j)) (drop (Z.to_nat j) pos) in
                mkGlyphPosition (XAdvance mark)
                  (int32 (XOffset mark + XOffset base - sumXAdvance run))
                  (YAdvance mark)
                  (int32 (YOffset mark + YOffset base - sumYAdvance run))
                  0 (attachType mark)
              else
                let run := take (Z.to_nat (i - j)) (drop (Z.to_nat (j + 1)) pos) in
                mkGlyphPosition (XAdvance mark)
                  (int32 (XOffset mark + XOffset base + sumXAdvance run))
                  (YAdvance mark)
                  (int32 (YOffset mark + YOffset base + sumYAdvance run))
                  0 (attachType mark)]> pos).
Proof.
  intros Hmark Hbase Hji Hchain Htype Hbase0 Hfuel.
  destruct fuel as [|[|fuel]]; try lia.
  pose proof (at_index_lt _ _ _ Hmark) as Hi. pose proof (at_index_lt _ _ _ Hbase) as Hj.
  destruct (at_index_nat _ _ _ Hmark) as [Hmn _].
  destruct (at_index_nat _ _ _ Hbase) as [Hbn _].
  set (pos1 := <[Z.to_nat i := set_attachChain mark 0]> pos).
  assert (at_index pos1 i = Some (set_attachChain mark 0)) as Hm1.
  { unfold at_index, pos1. destruct (Z.ltb_spec i 0); [lia|].
    apply list_lookup_insert_eq. lia. }
  assert (at_index pos1 j = Some base) as Hb1.
  { unfold at_index, pos1. destruct (Z.ltb_spec j 0); [lia|].
    rewrite list_lookup_insert_ne by lia. exact Hbn. }
  assert (length pos1 = length pos) as Hl1 by apply length_insert.
  assert (propagateAttachmentOffsets (S fuel) pos1 j direction = Some pos1) as Hrec.
  { cbn [propagateAttachmentOffsets]. rewrite Hb1. cbn [mbind option_bind].
    rewrite Hbase0. reflexivity. }
  cbn [propagateAttachmentOffsets] in Hrec |- *.
  rewrite Hmark. cbn [mbind option_bind].
  destruct (Z.eqb_spec (attachChain mark) 0) as [Hz|_]; [lia|].
  fold pos1. replace (i + attachChain mark) with j by lia.
  destruct (Z.geb_spec j (Z.of_nat (length pos1))) as [Hge|_]; [lia|].
  rewrite Hrec. cbn [mbind option_bind]. rewrite Hm1, Hb1. cbn [mbind option_bind].
  rewrite Htype. cbn [Z.eqb negb].
  assert (forall q, <[Z.to_nat i := q]> pos1 = <[Z.to_nat i := q]> pos) as Hins
    by (intros q; unfold pos1; apply list_insert_insert_eq).
  destruct (isForward direction).
  - assert (sliceZ pos1 j i
            = Some (take (Z.to_nat (i - j)) (drop (Z.to_nat j) pos))) as ->.
    { unfold sliceZ. destruct (Z.leb_spec 0 j); [|lia]. destruct (Z.leb_spec j i); [|lia].
      destruct (Z.leb_spec i (Z.of_nat (length pos1))); [|lia]. cbn [andb]. f_equal.
      unfold pos1. apply list_eq. intros k.
      rewrite !lookup_take, !lookup_drop.
      destruct (decide (k < Z.to_nat (i - j))%nat); [|reflexivity].
      apply list_lookup_insert_ne. lia. }
    cbn [mbind option_bind]. rewrite Hins. f_equal. f_equal.
    rewrite (fold_sub_advances _ _ (XOffset mark + XOffset base)
               (YOffset mark + YOffset base)); reflexivity.
  - assert (sliceZ pos1 (j + 1) (i + 1)
            = Some (take (Z.to_nat (i - j)) (drop (Z.to_nat (j + 1)) pos1))) as ->.
    { unfold sliceZ. destruct (Z.leb_spec 0 (j + 1)); [|lia].
      destruct (Z.leb_spec (j + 1) (i + 1)); [|lia].
      destruct (Z.leb_spec (i + 1) (Z.of_nat (length pos1))); [|lia]. cbn [andb].
      f_equal. f_equal. lia. }
    cbn [mbind option_bind]. rewrite Hins. f_equal. f_equal.
    rewrite (fold_add_advances _ _ (XOffset mark + XOffset base)
               (YOffset mark + YOffset base)) by reflexivity.
    assert (sumXAdvance (take (Z.to_nat (i - j)) (drop (Z.to_nat (j + 1)) pos1))
            = sumXAdvance (take (Z.to_nat (i - j)) (drop (Z.to_nat (j + 1)) pos))
            /\ sumYAdvance (take (Z.to_nat (i - j)) (drop (Z.to_nat (j + 1)) pos1))
               = sumYAdvance (take (Z.to_nat (i - j)) (drop (Z.to_nat (j + 1)) pos)))
      as [-> ->]; [|reflexivity].
    unfold sumXAdvance, sumYAdvance, pos1.
    assert (forall f : GlyphPosition -> Z,
              f (set_attachChain mark 0) = f mark ->
              map f (take (Z.to_nat (i - j))
                       (drop (Z.to_nat (j + 1)) (<[Z.to_nat i := set_attachChain mark 0]> pos)))
              = map f (take (Z.to_nat (i - j)) (drop (Z.to_nat (j + 1)) pos))) as Hmap.
    { intros f Hf. change (map f ?l) with (f <$> l). apply list_eq. intros k.
      rewrite !list_lookup_fmap, !lookup_take, !lookup_drop.
      destruct (decide (k < Z.to_nat (i - j))%nat); [|reflexivity].
      destruct (Nat.eq_dec (Z.to_nat (j + 1) + k) (Z.to_nat i)) as [Heq|Hne].
      - rewrite Heq, list_lookup_insert_eq by lia. rewrite Hmn. simpl. f_equal. exact Hf.
      - rewrite list_lookup_insert_ne by lia. reflexivity. }
    rewrite (Hmap XAdvance eq_refl), (Hmap YAdvance eq_refl). split; reflexivity.
Qed.

(** *** Attachments on a sample buffer *)

(** A base with advance 500 and two marks attached to it, as
    [applyGPOSMarks] leaves them; GPOS attachments are recorded. *)
Definition attachedMarks : Buffer :=
  mkBuffer [mkGlyphInfo 0 0x65 72 0 0x02 0 0 0 0 0;
            mkGlyphInfo 0 0x0301 130 0 0x08 0 0 0 0 0;
            mkGlyphInfo 0 0x0323 131 0 0x08 0 0 0 0 0]
           [mkGlyphPosition 500 0 0 0 0 0;
            mkGlyphPosition 0 230 0 480 (-1) attachTypeMark;
            mkGlyphPosition 0 210 0 (-60) (-2) attachTypeMark]
           0 0 bsfHasGPOSAttachment 0 0 0.

Definition leftToRight : Direction := mkDirection true true.

Lemma attachedMarks_chains_ok : chains_ok (Pos attachedMarks).
Proof.
  intros i p Hp Hc. pose proof (at_index_lt _ _ _ Hp) as Hi. simpl in Hi.
  assert (i = 0 \/ i = 1 \/ i = 2) as Hcases by lia.
  destruct Hcases as [Hc0|[Hc1|Hc2]]; subst i;
    injection Hp as <-; simpl in *; try lia; split; lia.
Qed.

Lemma positionFinishOffsetsGPOS_clears_chains_witness :
  chains_ok (Pos attachedMarks) /\
  exists pos',
    positionFinishOffsetsGPOS attachedMarks leftToRight
      = Some (set_Pos attachedMarks pos') /\
    forall p, In p pos' -> attachChain p = 0.
Proof.
  split; [exact attachedMarks_chains_ok|].
  destruct (positionFinishOffsetsGPOS_clears_chains attachedMarks leftToRight
              attachedMarks_chains_ok) as (pos' & Hrun & _ & Hall & _).
  exists pos'. split; [exact Hrun|]. apply Hall. reflexivity.
Defined.

Lemma mark_offsets_follow_the_base_witness :
  (at_index (Pos attachedMarks) 2 = Some (mkGlyphPosition 0 210 0 (-60) (-2) attachTypeMark) /\
   at_index (Pos attachedMarks) 0 = Some (mkGlyphPosition 500 0 0 0 0 0) /\
   0 < 2 /\ -2 = 0 - 2 /\ Z.land attachTypeMark attachTypeCursive = 0 /\
   (2 <= 4)%nat) /\
  propagateAttachmentOffsets 4 (Pos attachedMarks) 2 leftToRight =
    Some [mkGlyphPosition 500 0 0 0 0 0;
          mkGlyphPosition 0 230 0 480 (-1) attachTypeMark;
          mkGlyphPosition 0 (-290) 0 (-60) 0 attachTypeMark].
Proof.
  assert (0 < 2) as Hji by lia.
  assert (2 <= 4)%nat as Hfuel by lia.
  split; [repeat split; try reflexivity; assumption|].
  exact (mark_offsets_follow_the_base (Pos attachedMarks) 2 0
           (mkGlyphPosition 0 210 0 (-60) (-2) attachTypeMark)
           (mkGlyphPosition 500 0 0 0 0 0) leftToRight 4
           eq_refl eq_refl Hji eq_refl eq_refl eq_refl Hfuel).
Defined.

(** The sample buffer finished: both marks sit over the base, 500 units
    back from the pen. *)
Example attachedMarks_finished :
  Pos <$> positionFinishOffsetsGPOS attachedMarks leftToRight =
  Some [mkGlyphPosition 500 0 0 0 0 0;
        mkGlyphPosition 0 (-270) 0 480 0 attachTypeMark;
        mkGlyphPosition 0 (-290) 0 (-60) 0 attachTypeMark].
Proof. vm_compute. reflexivity. Qed.

Lemma finish_loop_idle (direction : Direction) (pos : list GlyphPosition) (n : nat) :
  (forall p, In p pos -> attachChain p = 0) ->
  forall a : nat, (a + n <= length pos)%nat ->
  for_range
    (fun i pos => propagateAttachmentOffsets (S (length pos)) pos (Z.of_nat i) direction)
    a n pos = Some pos.
Proof.
  intros Hzero. induction n as [|n IH]; intros a Ha; [reflexivity|].
  cbn [for_range propagateAttachmentOffsets].
  destruct (at_index_is_Some pos (Z.of_nat a) ltac:(lia)) as [p Hp]. rewrite Hp.
  cbn [mbind option_bind]. rewrite (Hzero p (at_index_In _ _ _ Hp)).
  change (0 =? 0) with true. cbn iota. apply IH. lia.
Qed.

Section StartFacts.
Context `{PackageConstants}.

(** X21. [positionStartGPOS] clears every attachment and nothing else,
    and a buffer without attachments is a fixed point of
    [positionFinishOffsetsGPOS]: finishing right after the start returns
    the buffer as the start left it, whatever the scratch flags say. *)
Theorem positionStartGPOS_clears_attachments (buffer : Buffer) (direction : Direction) :
  length (Pos (positionStartGPOS buffer)) = length (Pos buffer) /\
  (forall (i : nat) p, Pos buffer !! i = Some p ->
     Pos (positionStartGPOS buffer) !! i
       = Some (mkGlyphPosition (XAdvance p) (XOffset p) (YAdvance p) (YOffset p) 0 0)) /\
  Info (positionStartGPOS buffer) = Info buffer /\
  positionFinishOffsetsGPOS (positionStartGPOS buffer) direction
    = Some (positionStartGPOS buffer).
Proof.
  split; [apply List.length_map|]. split; [|split; [reflexivity|]].
  - intros i p Hp. unfold positionStartGPOS. cbn [Pos set_Pos].
    rewrite lookup_map, Hp. reflexivity.
  - unfold positionFinishOffsetsGPOS.
    destruct (has_bits (scratchFlags (positionStartGPOS buffer)) bsfHasGPOSAttachment);
      [|reflexivity].
    rewrite finish_loop_idle; [destruct buffer; reflexivity| |lia].
    intros p Hp. unfold positionStartGPOS in Hp. cbn [Pos set_Pos] in Hp.
    apply in_map_iff in Hp as (p0 & <- & _). reflexivity.
Qed.

End StartFacts.

(** ** Khmer syllables *)

Lemma syllable_table : syllable_table_ok = true.
Proof. vm_compute. reflexivity. Qed.

Lemma syllable_byte serial type :
  1 <= serial <= 15 -> 0 <= type < 16 -> syllable_byte_ok serial type = true.
Proof.
  intros Hs Ht. pose proof syllable_table as T. unfold syllable_table_ok in T.
  rewrite forallb_forall in T. specialize (T serial).
  rewrite <- list_elem_of_In, elem_of_seqZ in T. specialize (T ltac:(lia)).
  apply (forallb_below _ 16 type T Ht).
Qed.

Lemma for_range_set_syllable (s : Z) (n : nat) : forall (a : nat) (info : list GlyphInfo),
  (n = 0 \/ a + n <= length info)%nat ->
  exists info',
    for_range
      (fun i info => g ← info !! i; Some (<[i := set_syllable g s]> info)) a n info
      = Some info' /\
    length info' = length info /\
    forall k : nat,
      info' !! k = if (a <=? k)%nat && (k <? a + n)%nat
                   then (fun g => set_syllable g s) <$> info !! k else info !! k.
Proof.
  induction n as [|n IH]; intros a info Hb.
  - exists info. split; [reflexivity|]. split; [reflexivity|]. intros k.
    nat_bools; try reflexivity; lia.
  - destruct Hb as [Hb|Hb]; [discriminate|].
    destruct (lookup_lt_is_Some_2 info a) as [g Hg]; [lia|].
    destruct (IH (S a) (<[a := set_syllable g s]> info)) as (info' & Hrun & Hlen & Hk).
    { right. rewrite length_insert. lia. }
    exists info'. split.
    { cbn [for_range]. rewrite Hg. cbn [mbind option_bind]. exact Hrun. }
    split; [rewrite Hlen, length_insert; reflexivity|].
    intros k. rewrite Hk.
    destruct (Nat.eq_dec k a) as [->|Hne].
    + rewrite list_lookup_insert_eq by lia. rewrite Hg. nat_bools; try reflexivity; lia.
    + rewrite list_lookup_insert_ne by lia. nat_bools; try reflexivity; lia.
Qed.

Section KhmerSyllableFacts.
Context `{PackageConstants} `{BufferOps} `{KhmerMachine}.

(** X22. [foundSyllableKhmer] numbers the syllables so that neighbours
    differ.  For a serial number from 1 to 15 and a syllable type below
    16, the glyphs of the syllable get the byte [serial * 16 + type],
    which is not zero and from which [reorderSyllableKhmer] reads the
    type back; the serial number that is left is again from 1 to 15 and
    differs from the one used, so the next syllable gets another byte.
    No other glyph changes. *)
Theorem foundSyllableKhmer_numbers_syllables (syllableType : Z) (ts te : nat)
    (info : list GlyphInfo) (syllableSerial : Z) :
  1 <= syllableSerial <= 15 -> 0 <= syllableType < 16 ->
  (te <= length info)%nat ->
  let s := syllableSerial * 16 + syllableType in
  exists info' serial',
    foundSyllableKhmer syllableType ts te info syllableSerial = Some (info', serial') /\
    1 <= serial' <= 15 /\ serial' <> syllableSerial /\
    (forall type', 0 <= type' < 16 -> serial' * 16 + type' <> s) /\
    s <> 0 /\ Z.land s 0x0F = syllableType /\
    length info' = length info /\
    (forall k : nat,
       info' !! k = if (ts <=? k)%nat && (k <? te)%nat
                    then (fun g => set_syllable g s) <$> info !! k else info !! k) /\
    (forall khmerPlan buffer, Info buffer = info' -> (ts < te)%nat ->
       reorderSyllableKhmer khmerPlan buffer ts te =
         if (syllableType =? khmerBrokenCluster) || (syllableType =? khmerConsonantSyllable)
         then reorderConsonantSyllable khmerPlan buffer ts te
         else Some buffer).
Proof.
  intros Hs Ht Hte s.
  pose proof (syllable_byte syllableSerial syllableType Hs Ht) as T.
  unfold syllable_byte_ok in T.
  apply andb_prop in T as [T Hval]. apply andb_prop in T as [T Hnz].
  apply andb_prop in T as [Hlow Hhigh].
  apply Z.eqb_eq in Hval, Hlow, Hhigh. apply negb_true_iff, Z.eqb_neq in Hnz.
  fold s in Hval. rewrite Hval in Hlow, Hnz.
  destruct (for_range_set_syllable s (te - ts) ts info) as (info' & Hrun & Hlen & Hk);
    [lia|].
  unfold foundSyllableKhmer. rewrite Hval, Hrun. cbn [mbind option_bind].
  eexists info', _. split; [reflexivity|].
  assert (u8 (syllableSerial + 1) = syllableSerial + 1) as ->
    by (unfold u8; apply Z.mod_small; lia).
  assert (forall k : nat,
            info' !! k = if (ts <=? k)%nat && (k <? te)%nat
                         then (fun g => set_syllable g s) <$> info !! k else info !! k)
    as Hk'.
  { intros k. rewrite Hk. nat_bools; try reflexivity; lia. }
  assert (forall khmerPlan buffer, Info buffer = info' -> (ts < te)%nat ->
            reorderSyllableKhmer khmerPlan buffer ts te =
              if (syllableType =? khmerBrokenCluster)
                 || (syllableType =? khmerConsonantSyllable)
              then reorderConsonantSyllable khmerPlan buffer ts te
              else Some buffer) as Hdispatch.
  { intros khmerPlan buffer Hinfo Hlt. unfold reorderSyllableKhmer.
    rewrite Hinfo, Hk'.
    destruct (Nat.leb_spec ts ts); [|lia]. destruct (Nat.ltb_spec ts te); [|lia].
    cbn [andb]. destruct (lookup_lt_is_Some_2 info ts) as [g Hg]; [lia|].
    rewrite Hg. cbn. rewrite Hlow. reflexivity. }
  destruct (Z.eqb_spec (syllableSerial + 1) 16) as [H16|H16];
    (split; [lia|]; split; [lia|]; split; [unfold s; intros type' Ht'; lia|];
     split; [exact Hnz|]; split; [exact Hlow|]; split; [exact Hlen|];
     split; [exact Hk'|exact Hdispatch]).
Qed.

End KhmerSyllableFacts.

(** The first syllable of a text: KA, COENG, RO get the serial number 1
    and the type of a consonant syllable; the next serial number is 2. *)
Lemma foundSyllableKhmer_numbers_syllables_witness :
  1 <= 1 <= 15 /\ 0 <= khmerConsonantSyllable < 16 /\
  (3 <= length (Info kroBuffer))%nat /\
  exists info' serial',
    foundSyllableKhmer khmerConsonantSyllable 0 3 (Info kroBuffer) 1
      = Some (info', serial') /\
    serial' <> 1 /\
    info' !! 1%nat = Some (set_syllable (khmerGlyph 1 0x17D2 0 4) 16).
Proof.
  assert (1 <= 1 <= 15) as Hs by lia.
  assert (0 <= khmerConsonantSyllable < 16) as Ht by (vm_compute; split; [discriminate|reflexivity]).
  assert (3 <= length (Info kroBuffer))%nat as Hl by (simpl; lia).
  split; [exact Hs|]. split; [exact Ht|]. split; [exact Hl|].
  destruct (foundSyllableKhmer_numbers_syllables khmerConsonantSyllable 0 3
              (Info kroBuffer) 1 Hs Ht Hl)
    as (info' & serial' & Hrun & _ & Hne & _ & _ & _ & _ & Hk & _).
  exists info', serial'. split; [exact Hrun|]. split; [exact Hne|].
  rewrite Hk. reflexivity.
Defined.

Example first_syllable_numbered :
  foundSyllableKhmer khmerConsonantSyllable 0 3 (Info kroBuffer) 1
    = Some ([set_syllable (khmerGlyph 0 0x1780 0 1) 16;
             set_syllable (khmerGlyph 1 0x17D2 0 4) 16;
             set_syllable (khmerGlyph 2 0x179A 0 15) 16], 2) /\
  fst <$> foundSyllableKhmer khmerNonKhmerCluster 0 1 (Info kroBuffer) 15
    = Some (set_syllable (khmerGlyph 0 0x1780 0 1) 0xF2 :: tail (Info kroBuffer)) /\
  snd <$> foundSyllableKhmer khmerNonKhmerCluster 0 1 (Info kroBuffer) 15 = Some 1.
Proof. repeat split. Qed.

(** ** The features of a Khmer plan *)

(** The last request for a tag decides, when it is global, whatever is
    requested for other tags after it. *)
Lemma merged_last_request (infos post : list featureInfo) (d r : featureInfo) :
  is_global d = true ->
  (forall x, In x post -> Tag x <> Tag d) ->
  In r (mergeFeatureInfos (infos ++ d :: post)) -> Tag r = Tag d ->
  is_global r = true /\ maxValue r = maxValue d.
Proof.
  intros Hd Hpost Hr Ht.
  destruct (merged_from_filter _ r Hr)
    as (first & rest & Hdups & _ & _ & _ & _ & _ & Hglobal & _ & _ & Hvalue).
  rewrite List.filter_app in Hdups. simpl in Hdups.
  unfold same_tag at 2 in Hdups. rewrite Ht, Z.eqb_refl in Hdups.
  assert (List.filter (same_tag (Tag d)) post = []) as Hnone.
  { clear -Hpost. induction post as [|x post IH]; [reflexivity|]. simpl.
    unfold same_tag at 1. destruct (Z.eqb_spec (Tag x) (Tag d)) as [E|_].
    - exfalso. apply (Hpost x); [left; reflexivity|exact E].
    - apply IH. intros y Hy. apply Hpost. right. exact Hy. }
  rewrite Hnone in Hdups.
  assert (List.last rest first = d) as Hlast.
  { destruct (List.filter (same_tag (Tag d)) infos) as [|x l].
    - injection Hdups as <- <-. reflexivity.
    - injection Hdups as <- <-. rewrite <- (last_cons x (l ++ [d]) x).
      change (x :: l ++ [d]) with ((x :: l) ++ [d]). apply List.last_last. }
  rewrite Hlast in Hglobal, Hvalue. split; [rewrite Hglobal; exact Hd|].
  apply (Hvalue Hd).
Qed.

(** The record a user feature becomes at the stage [st]. *)
Definition userInfo (st : Z * Z) (f : Feature) : featureInfo :=
  mkFeatureInfo (feat_Tag f) (feat_Value f) (if feat_isGlobal f then ffGLOBAL else ffNone)
    (if feat_isGlobal f then feat_Value f else 0) st.

Lemma user_requests (userFeatures : list Feature) : forall mb,
  fold_left
    (fun map_ f =>
       addFeatureExt map_ (feat_Tag f) (if feat_isGlobal f then ffGLOBAL else ffNone)
         (feat_Value f))
    userFeatures mb
  = mkMapBuilder (mb_stages mb)
      (featureInfos mb ++ map (userInfo (currentStage mb)) userFeatures)
      (currentStage mb).
Proof.
  induction userFeatures as [|f l IH]; intros mb.
  - simpl. rewrite app_nil_r. destruct mb; reflexivity.
  - cbn [fold_left]. rewrite IH. cbn [addFeatureExt mb_stages featureInfos currentStage].
    rewrite <- app_assoc. cbn [app map]. unfold userInfo at 2.
    destruct (feat_isGlobal f); reflexivity.
Qed.

(** What is known of a merged record from its duplicates: the stage of
    the table is the least one, and the flags above [ffHasFallback] are
    those of the first request. *)
Lemma merged_first_stage (r x : featureInfo) (l : list featureInfo) :
  merged_from r (x :: l) ->
  (forall y, In y l -> fst (stage x) <= fst (stage y)) ->
  fst (stage r) = fst (stage x) /\
  forall k, 2 <= k -> Z.testbit (flags r) k = Z.testbit (flags x) k.
Proof.
  intros (first & rest & Hd & _ & _ & [Hin Hmin] & _ & _ & _ & Hbits & _) Hl.
  injection Hd as <- <-. split; [|exact Hbits].
  assert (fst (stage r) <= fst (stage x)) as Hle by (apply Hmin; left; reflexivity).
  cbn [map] in Hin. destruct Hin as [Hin|Hin]; [lia|].
  apply in_map_iff in Hin as (y & Hy & Hyl). specialize (Hl y Hyl). lia.
Qed.

Lemma merged_common (r : featureInfo) (dups : list featureInfo) (s k : Z) (b : bool) :
  merged_from r dups -> 2 <= k ->
  (forall y, In y dups -> fst (stage y) = s /\ Z.testbit (flags y) k = b) ->
  fst (stage r) = s /\ Z.testbit (flags r) k = b.
Proof.
  intros (first & rest & Hd & _ & _ & [Hin _] & _ & _ & _ & Hbits & _) Hk Hall.
  split.
  - apply in_map_iff in Hin as (y & Hy & Hyl). rewrite <- Hy. apply Hall, Hyl.
  - rewrite (Hbits k Hk). apply Hall. rewrite Hd. left. reflexivity.
Qed.

(** Checks on the requests made before ([pre]) and after ([post]) the
    user's: the first request for [tag] is at GSUB stage 3 and per
    syllable and none is at an earlier stage; or every request for [tag]
    is at GSUB stage 4 and not per syllable. *)
Definition requested_at_stage_3 (pre post : list featureInfo) (tag : Z) : bool :=
  match List.filter (same_tag tag) pre with
  | [] => false
  | x :: more =>
      (fst (stage x) =? 3) && Z.testbit (flags x) 6
      && forallb (fun y => 3 <=? fst (stage y)) (more ++ List.filter (same_tag tag) post)
  end.

Definition requested_at_stage_4 (pre post : list featureInfo) (tag : Z) : bool :=
  forallb (fun y => (fst (stage y) =? 4) && negb (Z.testbit (flags y) 6))
    (List.filter (same_tag tag) (pre ++ post)).

Lemma userInfo_stage_4 (userFeatures : list Feature) (tag : Z) (y : featureInfo) :
  In y (List.filter (same_tag tag) (map (userInfo (4, 0)) userFeatures)) ->
  fst (stage y) = 4 /\ Z.testbit (flags y) 6 = false.
Proof.
  intros Hy. apply filter_In in Hy as [Hy _].
  apply in_map_iff in Hy as (f & <- & _). unfold userInfo. cbn [stage flags fst].
  split; [reflexivity|]. destruct (feat_isGlobal f); reflexivity.
Qed.

Lemma merged_at_stage_3 (pre post : list featureInfo) (userFeatures : list Feature)
    (tag : Z) (r : featureInfo) :
  requested_at_stage_3 pre post tag = true ->
  merged_from r
    (List.filter (same_tag tag) (pre ++ map (userInfo (4, 0)) userFeatures ++ post)) ->
  fst (stage r) = 3 /\ has_bits (flags r) ffPerSyllable = true.
Proof.
  unfold requested_at_stage_3. rewrite !List.filter_app.
  destruct (List.filter (same_tag tag) pre) as [|x more]; [discriminate|].
  intros Hc Hm. apply andb_true_iff in Hc as [Hc Hall].
  apply andb_true_iff in Hc as [Hst Hbit]. apply Z.eqb_eq in Hst.
  rewrite forallb_forall in Hall.
  destruct (merged_first_stage r x _ Hm) as [Hstage Hflags].
  - intros y Hy. rewrite Hst.
    apply in_app_or in Hy as [Hy|Hy];
      [|apply in_app_or in Hy as [Hy|Hy]].
    + apply Z.leb_le, Hall, in_or_app. left. exact Hy.
    + destruct (userInfo_stage_4 _ _ _ Hy) as [-> _]. lia.
    + apply Z.leb_le, Hall, in_or_app. right. exact Hy.
  - split; [lia|].
    change ffPerSyllable with (Z.shiftl 1 6). rewrite has_bits_testbit by lia.
    rewrite Hflags by lia. exact Hbit.
Qed.

Lemma merged_at_stage_4 (pre post : list featureInfo) (userFeatures : list Feature)
    (tag : Z) (r : featureInfo) :
  requested_at_stage_4 pre post tag = true ->
  merged_from r
    (List.filter (same_tag tag) (pre ++ map (userInfo (4, 0)) userFeatures ++ post)) ->
  fst (stage r) = 4 /\ has_bits (flags r) ffPerSyllable = false.
Proof.
  unfold requested_at_stage_4. rewrite !List.filter_app, forallb_forall.
  intros Hall Hm.
  change ffPerSyllable with (Z.shiftl 1 6). rewrite has_bits_testbit by lia.
  apply (merged_common r _ 4 6 false Hm); [lia|].
  intros y Hy.
  assert (In y (List.filter (same_tag tag) pre ++ List.filter (same_tag tag) post)
          -> fst (stage y) = 4 /\ Z.testbit (flags y) 6 = false) as Hfixed.
  { intros Hin. specialize (Hall y Hin). apply andb_true_iff in Hall as [Hs Hb].
    apply Z.eqb_eq in Hs. apply negb_true_iff in Hb. split; assumption. }
  apply in_app_or in Hy as [Hy|Hy]; [|apply in_app_or in Hy as [Hy|Hy]].
  - apply Hfixed, in_or_app. left. exact Hy.
  - apply (userInfo_stage_4 _ _ _ Hy).
  - apply Hfixed, in_or_app. right. exact Hy.
Qed.

Section KhmerPlanFacts.
Variable requiredFeatureTag : Z * Z.
Variable findFeatureForLang : Z -> Z -> Z.
Variable findFeature : Z -> Z -> Z.

(** A feature of the map carries the stage and the per-syllable flag of
    the record it was allocated for. *)
Lemma allocate_appends_record st info f :
  In f (features (allocate requiredFeatureTag findFeatureForLang findFeature st info)) ->
  In f (features st) \/
  (fm_tag f = Tag info /\ fm_stage f = stage info /\
   fm_perSyllable f = has_bits (flags info) ffPerSyllable).
Proof.
  unfold allocate.
  destruct (_ || _); [left; assumption|].
  match goal with
  | |- context [let '(_, _) := ?p in _] => destruct p as [featureIndex found]
  end.
  destruct (negb found && negb (has_bits (flags info) ffHasFallback));
    [left; assumption|].
  cbn [features]. intros Hin. apply in_app_or in Hin as [Hin|[<-|[]]];
    [left; exact Hin|right]. repeat split.
Qed.

Lemma fold_allocate_record infos : forall st f,
  In f (features (fold_left (allocate requiredFeatureTag findFeatureForLang findFeature)
                    infos st)) ->
  In f (features st) \/
  exists info, In info infos /\ fm_tag f = Tag info /\ fm_stage f = stage info /\
               fm_perSyllable f = has_bits (flags info) ffPerSyllable.
Proof.
  induction infos as [|info infos IH]; intros st f Hf; simpl in Hf; [left; exact Hf|].
  destruct (IH _ f Hf) as [Hst|(info' & Hin & Hrest)].
  - destruct (allocate_appends_record st info f Hst) as [Hold|Hnew]; [left; exact Hold|].
    right. exists info. split; [left; reflexivity|exact Hnew].
  - right. exists info'. split; [right; exact Hin|exact Hrest].
Qed.

Lemma compile_feature_record infos f :
  In f (features (compile requiredFeatureTag findFeatureForLang findFeature infos)) ->
  exists r, In r (mergeFeatureInfos infos) /\ fm_tag f = Tag r /\
            fm_stage f = stage r /\
            fm_perSyllable f = has_bits (flags r) ffPerSyllable.
Proof.
  unfold compile. intros Hf. apply fold_allocate_record in Hf as [[]|Hf]. exact Hf.
Qed.

(** A tag whose last request disables it is not in the map. *)
Lemma last_disable_absent (infos post : list featureInfo) (d : featureInfo) :
  is_global d = true -> maxValue d = 0 ->
  (forall x, In x post -> Tag x <> Tag d) ->
  let m := features (compile requiredFeatureTag findFeatureForLang findFeature
                       (infos ++ d :: post)) in
  (forall f, In f m -> fm_tag f <> Tag d) /\ bsearchFeature m (Tag d) = Some None.
Proof.
  intros Hd Hv Hpost m.
  assert (forall f, In f m -> fm_tag f <> Tag d) as Habsent.
  { intros f Hf Ht. unfold m in Hf.
    destruct (compile_feature_from _ _ _ _ f Hf) as (r & Hr & Htag & Hval).
    destruct (merged_last_request infos post d r Hd Hpost Hr) as [_ Hmax]; [lia|].
    apply Hval. lia. }
  split; [exact Habsent|].
  apply bsearchFeature_absent; [apply compile_sorted|exact Habsent].
Qed.

(** A tag whose last request enables it, and that the language system of
    the font has, is in the map on the global bit. *)
Lemma last_enable_global (infos post : list featureInfo) (d : featureInfo) :
  is_global d = true -> maxValue d = 1 ->
  (forall x, In x post -> Tag x <> Tag d) ->
  findFeatureForLang 0 (Tag d) <> NoFeatureIndex \/
  findFeatureForLang 1 (Tag d) <> NoFeatureIndex ->
  let m := features (compile requiredFeatureTag findFeatureForLang findFeature
                       (infos ++ d :: post)) in
  exists f, bsearchFeature m (Tag d) = Some (Some f) /\
            fm_mask f = globalBitMask /\ fm_shift f = globalBitShift /\
            fm_mask1 f = globalBitMask /\ fm_needsFallback f = false.
Proof.
  intros Hgd Hvd Hpost Hfound m.
  destruct (merged_has_tag (infos ++ d :: post) d) as (r & Hr & Htr);
    [apply in_or_app; right; left; reflexivity|].
  destruct (merged_last_request infos post d r Hgd Hpost Hr Htr) as [Hgr Hvr].
  pose proof Hr as Hr'.
  apply in_split in Hr' as (l1 & l2 & Hsplit).
  pose proof (alloc_inv_fold requiredFeatureTag findFeatureForLang findFeature
                l1 [] _ (alloc_inv_start)) as ((_ & Hnb) & _).
  destruct (allocate_enabled requiredFeatureTag findFeatureForLang findFeature
              _ r Hgr ltac:(lia) Hnb)
    as (f & Hf & Htag & Hmask & Hshift & Hmask1 & Hfb & _).
  { rewrite Htr. exact Hfound. }
  assert (In f m) as Hin.
  { unfold m, compile. rewrite Hsplit, fold_left_app. cbn [fold_left].
    apply fold_allocate_keeps. rewrite Hf. apply in_or_app. right. left. reflexivity. }
  exists f. split; [|repeat split; assumption].
  replace (Tag d) with (fm_tag f) by lia.
  apply bsearchFeature_found; [apply compile_sorted|exact Hin].
Qed.

Variable direction_isHorizontal : SegmentDirection -> bool.
Variable setupSyllablesKhmer : Buffer -> bool * Buffer.
Variable reorderKhmer : Buffer -> bool * Buffer.
Variable UniscribeBugCompatible : bool.

(** X23. The overrides of the Khmer shaper decide.  Whatever the
    direction and whatever the user asks for, a Khmer plan has no 'liga':
    no feature of the compiled map has the tag, and its mask is 0.  With
    [UniscribeBugCompatible] the same holds of 'kern'.  And 'clig', when
    the language system of the font has it, is on the global bit, so it
    applies to every glyph, even if the user disabled it. *)
Theorem khmer_overrides_decide (direction : SegmentDirection)
    (userFeatures : list Feature) (map_ : otMapBuilder) :
  let m :=
    features
      (compile requiredFeatureTag findFeatureForLang findFeature
         (featureInfos
            (planner_collectFeatures direction_isHorizontal
               (complexShaperKhmer setupSyllablesKhmer reorderKhmer UniscribeBugCompatible)
               direction userFeatures map_))) in
  ((forall f, In f m -> fm_tag f <> tag_liga) /\
   getMask m tag_liga = Some (0, 0) /\ getMask1 m tag_liga = Some 0 /\
   getFeatureIndex m 0 tag_liga = Some NoFeatureIndex) /\
  (UniscribeBugCompatible = true ->
   (forall f, In f m -> fm_tag f <> tag_kern) /\
   getMask m tag_kern = Some (0, 0) /\ needsFallback m tag_kern = Some false) /\
  (findFeatureForLang 0 tag_clig <> NoFeatureIndex \/
   findFeatureForLang 1 tag_clig <> NoFeatureIndex ->
   getMask m tag_clig = Some (globalBitMask, globalBitShift) /\
   getMask1 m tag_clig = Some globalBitMask).
Proof.
  intros m. unfold planner_collectFeatures in m. cbv zeta in m.
  match goal with
  | m := context [shaper_overrideFeatures _ ?X] |- _ => set (before := X) in *
  end.
  set (clig := mkFeatureInfo tag_clig 1 (Z.lor ffGLOBAL ffNone) 1 (currentStage before)).
  set (kern := mkFeatureInfo tag_kern 0 ffGLOBAL 0 (currentStage before)).
  set (liga := mkFeatureInfo tag_liga 0 ffGLOBAL 0 (currentStage before)).
  assert (featureInfos
            (shaper_overrideFeatures
               (complexShaperKhmer setupSyllablesKhmer reorderKhmer UniscribeBugCompatible)
               before)
          = featureInfos before
              ++ clig :: (if UniscribeBugCompatible then [kern] else []) ++ [liga])
    as Hinfos.
  { cbn [shaper_overrideFeatures complexShaperKhmer]. unfold khmer_overrideFeatures.
    cbv zeta.
    destruct UniscribeBugCompatible;
      cbn [disableFeature enableFeature enableFeatureExt addFeatureExt featureInfos
           currentStage]; rewrite <- !app_assoc; reflexivity. }
  subst m. rewrite Hinfos. clear Hinfos.
  split; [|split].
  - replace (featureInfos before ++ clig :: (if UniscribeBugCompatible then [kern] else [])
               ++ [liga])
      with ((featureInfos before
               ++ clig :: (if UniscribeBugCompatible then [kern] else [])) ++ liga :: [])
      by (rewrite <- app_assoc; reflexivity).
    destruct (last_disable_absent
                (featureInfos before
                   ++ clig :: (if UniscribeBugCompatible then [kern] else [])) [] liga)
      as [Habsent Hnone]; [reflexivity|reflexivity|intros x []|].
    change (Tag liga) with tag_liga in *.
    split; [exact Habsent|].
    unfold getMask, getMask1, getFeatureIndex. rewrite Hnone. repeat split.
  - intros ->.
    replace (featureInfos before ++ clig :: [kern] ++ [liga])
      with ((featureInfos before ++ [clig]) ++ kern :: [liga])
      by (rewrite <- app_assoc; reflexivity).
    destruct (last_disable_absent (featureInfos before ++ [clig]) [liga] kern)
      as [Habsent Hnone]; [reflexivity|reflexivity| |].
    { intros x [<-|[]]. vm_compute. discriminate. }
    change (Tag kern) with tag_kern in *.
    split; [exact Habsent|].
    unfold getMask, needsFallback. rewrite Hnone. repeat split.
  - intros Hfound.
    destruct (last_enable_global (featureInfos before)
                ((if UniscribeBugCompatible then [kern] else []) ++ [liga]) clig)
      as (f & Hf & Hmask & Hshift & Hmask1 & _);
      [reflexivity|reflexivity| |exact Hfound|].
    { intros x Hx. apply in_app_or in Hx as [Hx|[<-|[]]].
      - destruct UniscribeBugCompatible; [|destruct Hx].
        destruct Hx as [<-|[]]. vm_compute. discriminate.
      - vm_compute. discriminate. }
    change (Tag clig) with tag_clig in *.
    unfold getMask, getMask1. rewrite Hf. cbn [mbind option_bind].
    rewrite Hmask, Hshift, Hmask1. split; reflexivity.
Qed.

(** The requests of a Khmer plan that starts from a new builder: those
    made before the user's, and the overrides. *)
Definition khmerDefaults (horizontal : bool) (direction : SegmentDirection)
    : otMapBuilder :=
  planner_collectFeatures (fun _ => horizontal)
    (mkComplexShaper (khmer_collectFeatures setupSyllablesKhmer reorderKhmer)
       (fun map_ => map_))
    direction [] newOtMapBuilder.

Definition khmerOverrides : list featureInfo :=
  featureInfos
    (khmer_overrideFeatures UniscribeBugCompatible (mkMapBuilder ([], []) [] (4, 0))).

Lemma khmer_plan_requests (direction : SegmentDirection) (userFeatures : list Feature) :
  let plan :=
    planner_collectFeatures direction_isHorizontal
      (complexShaperKhmer setupSyllablesKhmer reorderKhmer UniscribeBugCompatible)
      direction userFeatures newOtMapBuilder in
  let defaults := khmerDefaults (direction_isHorizontal direction) direction in
  mb_stages plan = mb_stages defaults /\
  featureInfos plan
    = featureInfos defaults ++ map (userInfo (4, 0)) userFeatures ++ khmerOverrides.
Proof.
  intros plan defaults. subst plan. unfold planner_collectFeatures. cbv zeta.
  rewrite user_requests.
  match goal with
  | |- context [mkMapBuilder (mb_stages ?X) _ _] =>
      change X with defaults;
      assert (currentStage defaults = (4, 0)) as ->
        by (unfold defaults; destruct (direction_isHorizontal direction), direction;
            reflexivity)
  end.
  cbn [shaper_overrideFeatures complexShaperKhmer]. unfold khmerOverrides,
    khmer_overrideFeatures. cbv zeta.
  destruct UniscribeBugCompatible;
    cbn [disableFeature enableFeature enableFeatureExt addFeatureExt featureInfos
         currentStage mb_stages app];
    (split; [reflexivity|rewrite <- !app_assoc; reflexivity]).
Qed.

Lemma khmer_requests_table (horizontal : bool) (direction : SegmentDirection) :
  forallb (requested_at_stage_3 (featureInfos (khmerDefaults horizontal direction))
             khmerOverrides)
    [tag_locl; tag_ccmp; tag_pref; tag_blwf; tag_abvf; tag_pstf; tag_cfar] = true /\
  forallb (requested_at_stage_4 (featureInfos (khmerDefaults horizontal direction))
             khmerOverrides)
    [tag_pres; tag_abvs; tag_blws; tag_psts; tag_clig] = true.
Proof.
  unfold khmerOverrides.
  destruct horizontal, direction, UniscribeBugCompatible; vm_compute; split; reflexivity.
Qed.

(** X24. The stages of a Khmer plan.  Starting from a new builder, the
    GSUB pauses are, in this order: none, [setupSyllablesKhmer],
    [reorderKhmer], none, closing the stages 0 to 3.  Whatever the
    direction and whatever the user asks for, a feature of the compiled
    map with the tag 'locl', 'ccmp' or one of the basic Khmer features
    is at GSUB stage 3, the one that follows the reordering, and is
    applied per syllable; 'pres', 'abvs', 'blws', 'psts' and 'clig' are
    at stage 4 and are not per syllable. *)
Theorem khmer_basic_features_follow_reordering (direction : SegmentDirection)
    (userFeatures : list Feature) :
  let plan :=
    planner_collectFeatures direction_isHorizontal
      (complexShaperKhmer setupSyllablesKhmer reorderKhmer UniscribeBugCompatible)
      direction userFeatures newOtMapBuilder in
  let m :=
    features (compile requiredFeatureTag findFeatureForLang findFeature
                (featureInfos plan)) in
  fst (mb_stages plan)
    = [mkStageInfo None 0; mkStageInfo (Some setupSyllablesKhmer) 1;
       mkStageInfo (Some reorderKhmer) 2; mkStageInfo None 3] /\
  (forall f, In f m ->
     In (fm_tag f) [tag_locl; tag_ccmp; tag_pref; tag_blwf; tag_abvf; tag_pstf; tag_cfar] ->
     fst (fm_stage f) = 3 /\ fm_perSyllable f = true) /\
  (forall f, In f m ->
     In (fm_tag f) [tag_pres; tag_abvs; tag_blws; tag_psts; tag_clig] ->
     fst (fm_stage f) = 4 /\ fm_perSyllable f = false).
Proof.
  intros plan m.
  destruct (khmer_plan_requests direction userFeatures) as [Hstages Hinfos].
  fold plan in Hstages, Hinfos.
  destruct (khmer_requests_table (direction_isHorizontal direction) direction)
    as [Hbasic Hother].
  rewrite forallb_forall in Hbasic, Hother.
  split; [|split].
  - rewrite Hstages. unfold khmerDefaults.
    destruct (direction_isHorizontal direction), direction; reflexivity.
  - intros f Hf Htag.
    destruct (compile_feature_record _ f Hf) as (r & Hr & Ht & Hst & Hps).
    pose proof (merged_from_filter _ r Hr) as Hm. rewrite Hinfos in Hm.
    rewrite Ht in Htag. rewrite Hst, Hps.
    apply (merged_at_stage_3 _ _ _ _ _ (Hbasic _ Htag) Hm).
  - intros f Hf Htag.
    destruct (compile_feature_record _ f Hf) as (r & Hr & Ht & Hst & Hps).
    pose proof (merged_from_filter _ r Hr) as Hm. rewrite Hinfos in Hm.
    rewrite Ht in Htag. rewrite Hst, Hps.
    apply (merged_at_stage_4 _ _ _ _ _ (Hother _ Htag) Hm).
Qed.

End KhmerPlanFacts.

(** *** A Khmer plan *)

(** A font whose language system has 'pref', 'pres', 'clig' and 'liga'
    in GSUB and 'kern' in GPOS, and a user who asks for 'liga' and
    against 'clig'.  ('trak' has a fallback, so it is in the map though
    the font lacks it.) *)
Definition khmerFontFeature (tableIndex tag : Z) : Z :=
  if (tableIndex =? 0) && (tag =? tag_pref) then 0
  else if (tableIndex =? 0) && (tag =? tag_pres) then 1
  else if (tableIndex =? 0) && (tag =? tag_clig) then 2
  else if (tableIndex =? 0) && (tag =? tag_liga) then 3
  else if (tableIndex =? 1) && (tag =? tag_kern) then 0
  else NoFeatureIndex.

Definition ligaturesPlease : list Feature :=
  [mkFeature tag_liga 1 true; mkFeature tag_clig 0 true].

Definition khmerPlanMap (uniscribe : bool) : list featureMap :=
  features
    (compile (0, 0) khmerFontFeature (fun _ _ => NoFeatureIndex)
       (featureInfos
          (planner_collectFeatures
             (fun d => match d with LeftToRight | RightToLeft => true | _ => false end)
             (complexShaperKhmer (fun b => (false, b)) (fun b => (false, b)) uniscribe)
             LeftToRight ligaturesPlease newOtMapBuilder))).

Example khmer_plan_of_the_sample_font :
  map (fun f => (fm_tag f, fst (fm_stage f), fm_perSyllable f, fm_mask f))
      (khmerPlanMap false)
    = [(tag_clig, 4, false, globalBitMask);
       (tag_kern, 4, false, globalBitMask);
       (tag_pref, 3, true, 0x10);
       (tag_pres, 4, false, globalBitMask);
       (tag_trak, 1, false, globalBitMask)] /\
  map fm_tag (khmerPlanMap true) = [tag_clig; tag_pref; tag_pres; tag_trak] /\
  getMask (khmerPlanMap false) tag_liga = Some (0, 0) /\
  getFeatureStage (khmerPlanMap false) 0 tag_pref = Some 3.
Proof. vm_compute. repeat split. Qed.
